(** * Desempenho Comercial: the normalisation and KPI pipeline of [app.py]

    A shallow embedding of the data pipeline of [src/app.py]
    ([limpar_moeda], [format_large_numbers], [carregar_dados], the option
    lists of the side bar and the filtering / accumulation part of the page
    script) together with the properties of the specification that are
    settled against it, and further properties of the code.

    Conventions of the embedding.
    - A Python [str] is a Rocq [string]; its characters are read as the code
      points U+0000 .. U+00FF.
    - A finite float is the rational it stands for ([Qc]); [NaN] and the
      infinities are kept where the code can produce or test them, signed
      zeros are not told apart.  [binary64] rounds a rational to the nearest
      float.  The conversion of an int rounds and overflows as [float]
      does; the text of a float literal is read as the decimal number it
      writes, without rounding.
    - The columns that [carregar_dados] and the page compute are given
      twice: on exact rationals (the pipeline on rows, where the properties
      of grouping, order and back-fill are stated) and on binary64 cells
      ([variacao64], [cumsum64], [meta_dia64], [sum64]), where each
      subtraction, addition and division rounds as the code does.  A
      property that depends on the arithmetic is stated on the second.
    - A data frame is the list of its rows, in row order; a column is the
      list of its cells.  A missing cell ([None], [NaN], [NaT], [pd.NA]) is
      [None].
    - The table is taken as [carregar_dados] has it after its first lines:
      the currency columns parsed and the dates read.  [Real] and [Meta Mês]
      hold finite numbers, a date that could not be read is missing.
    - A table has a row with a shop and a date, so that the group-wise
      back-fill has a group to work on (on a table without one pandas leaves
      the whole [Meta Mês] column missing). *)

From Stdlib Require Import ZArith QArith Qcanon List String Ascii Bool Lia.
From Stdlib Require Import Permutation Sorting.Sorted DecimalString Qabs.
From Stdlib Require DecimalFacts DecimalPos DecimalN.
Import ListNotations.

Local Open Scope Z_scope.

(** ** Numbers *)

Definition Qc_of_Z (z : Z) : Qc := Q2Qc (inject_Z z).

Definition Qc_eqb (a b : Qc) : bool := Qeq_bool a b.

(** Rounding to the nearest integer, ties to the even one. *)
Definition round_half_even (q : Qc) : Z :=
  let n := Qnum q in
  let d := Zpos (Qden q) in
  let lo := (n / d)%Z in
  match (2 * (n mod d) ?= d)%Z with
  | Lt => lo
  | Gt => (lo + 1)%Z
  | Eq => if Z.even lo then lo else (lo + 1)%Z
  end.

(** [2 ^ e], also for a negative [e]. *)
Definition pow2 (e : Z) : Qc :=
  if 0 <=? e then Qc_of_Z (2 ^ e) else (/ Qc_of_Z (2 ^ (- e)))%Qc.

(** [floor (log2 |q|)] for [q <> 0]. *)
Definition ilog2 (q : Qc) : Z :=
  let n := Z.abs (Qnum q) in
  let d := Zpos (Qden q) in
  let k := Z.log2 n - Z.log2 d in
  if d * 2 ^ Z.max 0 k <=? n * 2 ^ Z.max 0 (- k) then k else k - 1.

(** ** Python values and primitives *)

Module Py.

(** A Python float: a finite number, an infinity or NaN. *)
Inductive float :=
| Fin (q : Qc)
| Inf (negative : bool)
| NaN.

(** Rounding to binary64: the number with a mantissa of 53 bits nearest to
    [q], ties to the even mantissa; the exponent of the last bit is not
    below -1074 (the subnormal numbers), and a result of 2^1024 or more is
    an infinity. *)
Definition binary64 (q : Qc) : float :=
  if Qc_eqb q (Qc_of_Z 0) then Fin (Qc_of_Z 0)
  else
    let e := Z.max (ilog2 q - 52) (-1074) in
    let m := round_half_even (q / pow2 e)%Qc in
    if (0 <=? e) && (2 ^ 1024 <=? Z.abs m * 2 ^ e)
    then Inf (Qnum q <? 0)
    else Fin (Qc_of_Z m * pow2 e)%Qc.

(** The values a cell handed to [limpar_moeda] can hold.  A list or an
    ndarray is given by what [pd.isna] says of its elements, the first and
    the others (an empty one, whose truth value depends on the version of
    numpy, is left out). *)
Inductive value :=
| VNone                      (* None, pd.NA, pd.NaT *)
| VBool (b : bool)           (* bool is a subclass of int *)
| VInt (z : Z)               (* int and the numpy integers *)
| VFloat (f : float)         (* float and the numpy floats; no complex *)
| VStr (s : string)
| VArray (na : bool) (others : list bool)   (* list, ndarray *)
| VOther.                    (* any other non-null scalar object *)

Inductive exn := ValueError | OverflowError.

(** A computation that returns or raises. *)
Inductive result (A : Type) :=
| Ok (a : A)
| Raise (e : exn).
Arguments Ok {A} a.
Arguments Raise {A} e.

(** [try: c  except: handler] (a bare [except] catches everything). *)
Definition try_except {A} (c : result A) (handler : result A) : result A :=
  match c with
  | Ok a => Ok a
  | Raise _ => handler
  end.

(** What [pd.isna] returns: a bool on a scalar, an array of bools on a list
    or an ndarray. *)
Inductive bool_or_array :=
| NaBool (b : bool)
| NaArray (first : bool) (others : list bool).

Definition isna (v : value) : bool_or_array :=
  match v with
  | VNone => NaBool true
  | VFloat NaN => NaBool true
  | VArray na others => NaArray na others
  | _ => NaBool false
  end.

(** The truth value that [if] asks for: an array of two elements or more
    has none. *)
Definition truth (c : bool_or_array) : result bool :=
  match c with
  | NaBool b => Ok b
  | NaArray b [] => Ok b
  | NaArray _ (_ :: _) => Raise ValueError
  end.

Definition code (c : ascii) : N := N_of_ascii c.

(** [str.isspace] on one character (code points below 256). *)
Definition isspace (c : ascii) : bool :=
  let n := code c in
  ((9 <=? n) && (n <=? 13) || (28 <=? n) && (n <=? 32)
   || (n =? 133) || (n =? 160))%N.

(** ASCII digits: the only decimal digits below U+0100. *)
Definition isdigit (c : ascii) : bool :=
  let n := code c in ((48 <=? n) && (n <=? 57))%N.

Fixpoint lstrip_with (sp : ascii -> bool) (s : string) : string :=
  match s with
  | EmptyString => EmptyString
  | String c s' => if sp c then lstrip_with sp s' else s
  end.

Fixpoint rstrip_with (sp : ascii -> bool) (s : string) : string :=
  match s with
  | EmptyString => EmptyString
  | String c s' =>
      match rstrip_with sp s' with
      | EmptyString => if sp c then EmptyString else String c EmptyString
      | t => String c t
      end
  end.

(** [s.strip()] *)
Definition strip (s : string) : string :=
  rstrip_with isspace (lstrip_with isspace s).

(** [s.replace(old, new)] for a non-empty [old]: every occurrence, found
    left to right without overlap.  [skip] counts the characters of the
    occurrence being consumed. *)
Fixpoint replace_from (old new : string) (skip : nat) (s : string) : string :=
  match s with
  | EmptyString => EmptyString
  | String c s' =>
      match skip with
      | S k => replace_from old new k s'
      | O =>
          if prefix old s
          then (new ++ replace_from old new (String.length old - 1) s')%string
          else String c (replace_from old new 0 s')
      end
  end.

Definition replace (old new s : string) : string := replace_from old new 0 s.

(** The lookahead [(?=\d{3},)] tested on the text that follows a position. *)
Definition followed_by_3digits_comma (rest : string) : bool :=
  match rest with
  | String a (String b (String c (String d _))) =>
      isdigit a && isdigit b && isdigit c && Ascii.eqb d ","
  | _ => false
  end.

(** [re.sub] of the pattern [\.(?=\d{3},)] by the empty string in [v]. *)
Fixpoint sub_thousands (v : string) : string :=
  match v with
  | EmptyString => EmptyString
  | String c rest =>
      if Ascii.eqb c "." && followed_by_3digits_comma rest
      then sub_thousands rest
      else String c (sub_thousands rest)
  end.

(** *** [float(str)] *)

(** White space as the float constructor sees it: the ASCII white space of
    [Py_ISSPACE], and the non-ASCII white space that is first turned into
    a blank. *)
Definition float_space (c : ascii) : bool :=
  let n := code c in
  ((9 <=? n) && (n <=? 13) || (n =? 32) || (n =? 133) || (n =? 160))%N.

(** Underscores are dropped when each stands between two digits; any other
    underscore is an error.  [prev] is the previous character. *)
Fixpoint drop_underscores (prev : ascii) (s : string) : option string :=
  match s with
  | EmptyString => if Ascii.eqb prev "_" then None else Some EmptyString
  | String c s' =>
      if Ascii.eqb c "_"
      then if isdigit prev then drop_underscores c s' else None
      else if Ascii.eqb prev "_" && negb (isdigit c) then None
           else option_map (String c) (drop_underscores c s')
  end.

Definition take_sign (s : string) : bool * string :=
  match s with
  | String "-" s' => (true, s')
  | String "+" s' => (false, s')
  | _ => (false, s)
  end.

(** The longest prefix of digits, as the number it denotes and its length,
    and what follows it. *)
Fixpoint take_digits (acc : Z) (n : nat) (s : string) : Z * nat * string :=
  match s with
  | String c s' =>
      if isdigit c
      then take_digits (10 * acc + (Z.of_N (code c) - 48)) (S n) s'
      else (acc, n, s)
  | EmptyString => (acc, n, s)
  end.

(** mantissa * 10 ^ exponent *)
Definition scale10 (m e : Z) : Qc :=
  if 0 <=? e then Qc_of_Z (m * 10 ^ e)
  else Q2Qc (Qmake m (Z.to_pos (10 ^ (- e)))).

Definition apply_sign (neg : bool) (z : Z) : Z := if neg then - z else z.

(** [sign? (digits (. digits?)? | . digits) ((e|E) sign? digits)?] *)
Definition parse_decimal (s : string) : option Qc :=
  let '(neg, s1) := take_sign s in
  let '(ip, ni, s2) := take_digits 0 0 s1 in
  let '(m, nf, s3) :=
    match s2 with
    | String "." s' => take_digits ip 0 s'
    | _ => (ip, O, s2)
    end in
  if (ni + nf =? 0)%nat then None
  else
    match s3 with
    | EmptyString => Some (scale10 (apply_sign neg m) (- Z.of_nat nf))
    | String c s4 =>
        if Ascii.eqb c "e" || Ascii.eqb c "E"
        then
          let '(eneg, s5) := take_sign s4 in
          let '(e, ne, s6) := take_digits 0 0 s5 in
          match ne, s6 with
          | S _, EmptyString =>
              Some (scale10 (apply_sign neg m) (apply_sign eneg e - Z.of_nat nf))
          | _, _ => None
          end
        else None
    end.

Definition lower (c : ascii) : ascii :=
  let n := code c in
  if ((65 <=? n) && (n <=? 90))%N then ascii_of_N (n + 32) else c.

Fixpoint lowercase (s : string) : string :=
  match s with
  | EmptyString => EmptyString
  | String c s' => String (lower c) (lowercase s')
  end.

(** [sign? (inf | infinity | nan)], in any case. *)
Definition parse_inf_or_nan (s : string) : option float :=
  let '(neg, s1) := take_sign s in
  let w := lowercase s1 in
  if (w =? "inf")%string || (w =? "infinity")%string then Some (Inf neg)
  else if (w =? "nan")%string then Some NaN
  else None.

(** [float(s)] for a string [s]: raises [ValueError] on anything that is
    not a float literal. *)
Definition float_of_str (s : string) : result float :=
  let t := rstrip_with float_space (lstrip_with float_space s) in
  match drop_underscores "000" t with
  | None => Raise ValueError
  | Some u =>
      match parse_decimal u with
      | Some q => Ok (Fin q)
      | None =>
          match parse_inf_or_nan u with
          | Some f => Ok f
          | None => Raise ValueError
          end
      end
  end.

(** [float(n)] for an int: the nearest float, [OverflowError] when that is
    beyond the largest one. *)
Definition float_of_int (z : Z) : result float :=
  match binary64 (Qc_of_Z z) with
  | Inf _ => Raise OverflowError
  | f => Ok f
  end.

End Py.

(** ** Currency parser: [limpar_moeda] *)

Import Py.

Definition zero : float := Fin (Qc_of_Z 0).

Definition limpar_moeda (valor : value) : result float :=
  match truth (isna valor) with
  | Raise e => Raise e
  | Ok true => Ok zero
  | Ok false =>
      match valor with
      | VBool b => float_of_int (if b then 1 else 0)
      | VInt z => float_of_int z
      | VFloat f => Ok f
      | VStr s =>
          let v := strip s in
          if (v =? EmptyString)%string || (v =? "-")%string then Ok zero
          else
            let v := strip (replace "r$" EmptyString (replace "R$" EmptyString v)) in
            let v := sub_thousands v in
            let v := replace "," "." v in
            try_except (float_of_str v) (Ok zero)
      | _ => Ok zero
      end
  end.

(** ** Orders used for sorting *)

Section Comparisons.

(** A comparison function that decides a total order. *)
Record total_order {A : Type} (cmp : A -> A -> comparison) : Prop := {
  cmp_eq : forall a b, cmp a b = Eq <-> a = b;
  cmp_antisym : forall a b, cmp b a = CompOpp (cmp a b);
  cmp_trans : forall a b c, cmp a b = Lt -> cmp b c = Lt -> cmp a c = Lt
}.

Definition leb_of {A : Type} (cmp : A -> A -> comparison) (a b : A) : bool :=
  match cmp a b with Gt => false | _ => true end.

(** Missing values sort after every value ([na_position="last"]). *)
Definition nulls_last {A : Type} (cmp : A -> A -> comparison)
           (a b : option A) : comparison :=
  match a, b with
  | Some x, Some y => cmp x y
  | Some _, None => Lt
  | None, Some _ => Gt
  | None, None => Eq
  end.

(** Lexicographic order on pairs. *)
Definition lex {A B : Type} (cmpA : A -> A -> comparison)
           (cmpB : B -> B -> comparison) (p q : A * B) : comparison :=
  match cmpA (fst p) (fst q) with
  | Eq => cmpB (snd p) (snd q)
  | c => c
  end.

(** The order of the images under [f]. *)
Definition on {A B : Type} (f : A -> B) (cmp : B -> B -> comparison)
           (a b : A) : comparison := cmp (f a) (f b).

End Comparisons.

(** ** The ledger table *)

(** A value of the [Data] column.  The code uses its order, its equality,
    its year and its month; [day] stands for what the time stamp holds below
    the month. *)
Record Date := mkDate { year : Z; month : Z; day : Z }.

(** A calendar month, the value of [dt.to_period("M")]. *)
Definition Period : Type := Z * Z.

Definition to_period_M (d : Date) : Period := (year d, month d).

Definition date_cmp : Date -> Date -> comparison :=
  on (fun d => (year d, (month d, day d))) (lex Z.compare (lex Z.compare Z.compare)).

Definition period_cmp : Period -> Period -> comparison := lex Z.compare Z.compare.

Definition date_eqb (a b : Date) : bool :=
  (year a =? year b) && (month a =? month b) && (day a =? day b).

Definition period_eqb (a b : Period) : bool :=
  (fst a =? fst b) && (snd a =? snd b).

(** One row of the frame.  The first seven columns come from the source file
    (currency columns already numeric); [DIAS], [Real_Variacao] and
    [Meta_Dia] are the columns [carregar_dados] adds, [None] standing for NaN. *)
Record Row := mkRow {
  Nome_Loja : option string;
  Produto : option string;
  Regional : option string;
  Coordenador : option string;
  Data : option Date;
  Real : Qc;
  Meta_Mes : Qc;
  DIAS : option nat;
  Real_Variacao : option Qc;
  Meta_Dia : option Qc
}.

Definition DataFrame : Type := list Row.

Definition set_DIAS (v : option nat) (r : Row) : Row :=
  mkRow (Nome_Loja r) (Produto r) (Regional r) (Coordenador r) (Data r)
        (Real r) (Meta_Mes r) v (Real_Variacao r) (Meta_Dia r).

Definition set_Meta_Mes (v : Qc) (r : Row) : Row :=
  mkRow (Nome_Loja r) (Produto r) (Regional r) (Coordenador r) (Data r)
        (Real r) v (DIAS r) (Real_Variacao r) (Meta_Dia r).

Definition set_Real_Variacao (v : option Qc) (r : Row) : Row :=
  mkRow (Nome_Loja r) (Produto r) (Regional r) (Coordenador r) (Data r)
        (Real r) (Meta_Mes r) (DIAS r) v (Meta_Dia r).

Definition set_Meta_Dia (v : option Qc) (r : Row) : Row :=
  mkRow (Nome_Loja r) (Produto r) (Regional r) (Coordenador r) (Data r)
        (Real r) (Meta_Mes r) (DIAS r) (Real_Variacao r) v.

(** [df[col] = values]: the cells are assigned row by row. *)
Definition assign {V : Type} (set : V -> Row -> Row) (df : DataFrame)
           (values : list V) : DataFrame :=
  map (fun p => set (snd p) (fst p)) (combine df values).

(** [df["ano_mes"] = df["Data"].dt.to_period("M")] *)
Definition ano_mes (r : Row) : option Period := option_map to_period_M (Data r).

(** The group key [(Nome_Loja, ano_mes)]. *)
Definition Key : Type := string * Period.

Definition key_eqb (a b : Key) : bool :=
  String.eqb (fst a) (fst b) && period_eqb (snd a) (snd b).

(** A row whose shop or month is missing has no key: [groupby] drops it. *)
Definition chave (r : Row) : option Key :=
  match Nome_Loja r, ano_mes r with
  | Some loja, Some mes => Some (loja, mes)
  | _, _ => None
  end.

(** ** [groupby]: sizes and transforms *)

Section GroupBy.

Context {K : Type} (eqb : K -> K -> bool).

Definition has_key (k : K) (o : option K) : bool :=
  match o with
  | Some k' => eqb k k'
  | None => false
  end.

(** How many of the [keys] are [k]. *)
Definition count_key (k : K) (keys : list (option K)) : nat :=
  List.length (filter (has_key k) keys).

(** The cells of column [x] in the rows whose key satisfies [p], in row
    order. *)
Definition pick {A : Type} (p : option K -> bool) (keys : list (option K))
           (x : list A) : list A :=
  map snd (filter (fun c => p (fst c)) (combine keys x)).

(** The cells of column [x] that lie in the rows of group [k]. *)
Definition get_group {A : Type} (keys : list (option K)) (x : list A) (k : K)
  : list A :=
  pick (has_key k) keys x.

(** The keys of the groups, each once. *)
Fixpoint group_keys (keys : list (option K)) : list K :=
  match keys with
  | [] => []
  | None :: rest => group_keys rest
  | Some k :: rest =>
      k :: filter (fun k' => negb (eqb k k')) (group_keys rest)
  end.

(** [groupby(...).size()]: one entry per group, the number of its rows. *)
Definition size (keys : list (option K)) : list (K * nat) :=
  map (fun k => (k, count_key k keys)) (group_keys keys).

Fixpoint lookup {V : Type} (k : K) (table : list (K * V)) : option V :=
  match table with
  | [] => None
  | (k', v) :: rest => if eqb k k' then Some v else lookup k rest
  end.

(** [merge(right, on=keys, how="left")] against a table with one row per
    key: every left row, in its order, with the matching value or NaN. *)
Definition merge_left {V : Type} (keys : list (option K)) (right : list (K * V))
  : list (option V) :=
  map (fun o => match o with
                | Some k => lookup k right
                | None => None
                end) keys.

(** [x.groupby(keys).transform(f)]: [f] is applied to the cells of each
    group, and its results go back to the rows of the group, in order.
    Rows without a key get NaN.  [seen] are the keys of the rows already
    passed. *)
Fixpoint scatter {B : Type} (result_of : K -> list (option B))
         (seen todo : list (option K)) : list (option B) :=
  match todo with
  | [] => []
  | o :: rest =>
      match o with
      | Some k =>
          match nth_error (result_of k) (count_key k seen) with
          | Some cell => cell
          | None => None
          end
      | None => None
      end :: scatter result_of (seen ++ [o]) rest
  end.

Definition transform {A B : Type} (keys : list (option K)) (x : list A)
           (f : list A -> list (option B)) : list (option B) :=
  scatter (fun k => f (get_group keys x k)) [] keys.

End GroupBy.

(** ** Stable sorting *)

Section Sort.

Context {A : Type} (leb : A -> A -> bool).

(** [a] goes in front of the first element that is not below it: rows with
    equal keys keep their order. *)
Fixpoint insert (a : A) (l : list A) : list A :=
  match l with
  | [] => [a]
  | b :: rest => if leb a b then a :: l else b :: insert a rest
  end.

Fixpoint sort (l : list A) : list A :=
  match l with
  | [] => []
  | a :: rest => insert a (sort rest)
  end.

End Sort.

(** ** [carregar_dados]: the normalised table *)

Local Open Scope Qc_scope.

(** [.replace(0, pd.NA)] on one cell. *)
Definition replace_zero_na (x : Qc) : option Qc :=
  if Qc_eqb x 0 then None else Some x.

(** [x.bfill()]: a missing cell takes the next valid value below it. *)
Fixpoint bfill {A : Type} (x : list (option A)) : list (option A) :=
  match x with
  | [] => []
  | cell :: rest =>
      let filled := bfill rest in
      match cell with
      | Some v => Some v
      | None => hd None filled
      end :: filled
  end.

(** [.fillna(d)] on one cell. *)
Definition fillna (d : Qc) (cell : option Qc) : Qc :=
  match cell with
  | Some v => v
  | None => d
  end.

(** [x.shift(1)]: every cell moves one row down, NaN enters at the top. *)
Definition shift1 {A : Type} (x : list (option A)) : list (option A) :=
  match x with
  | [] => []
  | _ :: _ => None :: removelast x
  end.

Fixpoint map2 {A B C : Type} (f : A -> B -> C) (x : list A) (y : list B) : list C :=
  match x, y with
  | a :: x', b :: y' => f a b :: map2 f x' y'
  | _, _ => []
  end.

(** Subtraction of two cells; NaN propagates. *)
Definition sub_cells (a b : option Qc) : option Qc :=
  match a, b with
  | Some p, Some q => Some (p - q)
  | _, _ => None
  end.

(** The inner function of [carregar_dados]: [v = x - x.shift(1)], then
    [v.iloc[0] = x.iloc[0]].  ([iloc[0]] needs a row; [transform] only calls
    the function on the rows of an existing group.) *)
Definition variacao (x : list Qc) : list (option Qc) :=
  let x := map Some x in
  let v := map2 sub_cells x (shift1 x) in
  match x, v with
  | x0 :: _, _ :: v' => x0 :: v'
  | _, _ => v
  end.

(** [Meta Mês / DIAS] on one row.  Dividing by NaN gives NaN; dividing by
    zero gives an infinity or NaN, no finite number either. *)
Definition div_cells (a : Qc) (d : option nat) : option Qc :=
  match d with
  | Some O => None
  | Some n => Some (a / Qc_of_Z (Z.of_nat n))
  | None => None
  end.

(** The sort key of [sort_values(["Nome_Loja", "ano_mes", "Data"])]. *)
Definition sort_key (r : Row) : option string * (option Period * option Date) :=
  (Nome_Loja r, (ano_mes r, Data r)).

Definition row_cmp : Row -> Row -> comparison :=
  on sort_key (lex (nulls_last String.compare)
                   (lex (nulls_last period_cmp) (nulls_last date_cmp))).

Definition sort_values (df : DataFrame) : DataFrame := sort (leb_of row_cmp) df.

(** The four blocks of [carregar_dados], in the order of the source. *)

(** [DIAS POR MÊS]: the size of each (shop, month) group, merged back on
    the rows. *)
Definition dias_por_mes (df : DataFrame) : DataFrame :=
  let dias := size key_eqb (map chave df) in
  assign set_DIAS df (merge_left key_eqb (map chave df) dias).

(** [META MÊS]: zeros become missing, each group is back-filled, what is
    still missing becomes zero.  (With no group at all, no row having a shop
    and a date, pandas gives back an empty column and [Meta Mês] is missing
    on every row; that table is outside this definition.) *)
Definition meta_mes (df : DataFrame) : DataFrame :=
  assign set_Meta_Mes df
    (map (fillna 0)
       (transform key_eqb (map chave df)
          (map replace_zero_na (map Meta_Mes df)) bfill)).

(** [VARIAÇÃO], on the sorted frame. *)
Definition real_variacao (df : DataFrame) : DataFrame :=
  assign set_Real_Variacao df
    (transform key_eqb (map chave df) (map Real df) variacao).

(** [META DIA] *)
Definition meta_dia (df : DataFrame) : DataFrame :=
  map (fun r => set_Meta_Dia (div_cells (Meta_Mes r) (DIAS r)) r) df.

Definition carregar_dados (df : DataFrame) : DataFrame :=
  let df := dias_por_mes df in
  let df := meta_mes df in
  let df := sort_values df in
  let df := real_variacao df in
  meta_dia df.

(** ** Filtering and accumulation (the page script) *)

(** What the side bar returns.  A year or month taken from a column that
    holds NaT is NaN, here [None]. *)
Record Selecao := mkSelecao {
  produto_sel : string;
  regional_sel : string;
  coordenador_sel : string;
  loja_sel : string;
  ano_sel : option Z;
  mes_sel : option Z
}.

(** [column == sel] on one cell: a missing cell equals nothing. *)
Definition eq_str (cell : option string) (sel : string) : bool :=
  match cell with
  | Some s => String.eqb s sel
  | None => false
  end.

Definition eq_num (cell : option Z) (sel : option Z) : bool :=
  match cell, sel with
  | Some a, Some b => Z.eqb a b
  | _, _ => false
  end.

Definition filtrar (rede : DataFrame) (s : Selecao) : DataFrame :=
  let df_f := rede in
  let df_f :=
    if negb (produto_sel s =? "Todos")%string
    then filter (fun r => eq_str (Produto r) (produto_sel s)) df_f else df_f in
  let df_f :=
    if negb (regional_sel s =? "Todas")%string
    then filter (fun r => eq_str (Regional r) (regional_sel s)) df_f else df_f in
  let df_f :=
    if negb (coordenador_sel s =? "Todos")%string
    then filter (fun r => eq_str (Coordenador r) (coordenador_sel s)) df_f else df_f in
  let df_f :=
    if negb (loja_sel s =? "Todas")%string
    then filter (fun r => eq_str (Nome_Loja r) (loja_sel s)) df_f else df_f in
  filter (fun r => eq_num (option_map year (Data r)) (ano_sel s)
                   && eq_num (option_map month (Data r)) (mes_sel s)) df_f.

(** A column sum: NaN cells are skipped. *)
Fixpoint sum_skipna (x : list (option Qc)) : Qc :=
  match x with
  | [] => 0
  | Some v :: rest => v + sum_skipna rest
  | None :: rest => sum_skipna rest
  end.

Fixpoint cumsum_from (acc : Qc) (x : list Qc) : list Qc :=
  match x with
  | [] => []
  | v :: rest => (acc + v) :: cumsum_from (acc + v) rest
  end.

(** [x.cumsum()] *)
Definition cumsum (x : list Qc) : list Qc := cumsum_from 0 x.

(** [df_grouped], column by column. *)
Record Grouped := mkGrouped {
  g_Data : list Date;
  g_Real_Variacao : list Qc;
  g_Meta_Dia : list Qc;
  REAL_ACUM : list Qc;
  META_ACUM : list Qc;
  DESVIO_DIA : list Qc;
  DESVIO_ACUM : list Qc
}.

(** [df_f.groupby("Data", as_index=False).agg({"Real_Variacao": "sum",
    "Meta Dia": "sum"})]: one row per date, the groups in key order. *)
Definition groupby_Data_sum (df_f : DataFrame) : list (Date * (Qc * Qc)) :=
  let keys := map Data df_f in
  map (fun d =>
         (d, (sum_skipna (get_group date_eqb keys (map Real_Variacao df_f) d),
              sum_skipna (get_group date_eqb keys (map Meta_Dia df_f) d))))
      (sort (leb_of date_cmp) (group_keys date_eqb keys)).

Definition df_grouped (df_f : DataFrame) : Grouped :=
  let g := sort (leb_of (on fst date_cmp)) (groupby_Data_sum df_f) in
  let data := map fst g in
  let real_variacao := map (fun p => fst (snd p)) g in
  let meta_dia := map (fun p => snd (snd p)) g in
  let real_acum := cumsum real_variacao in
  let meta_acum := cumsum meta_dia in
  let desvio_dia := map2 Qcminus real_variacao meta_dia in
  let desvio_acum := map2 Qcminus real_acum meta_acum in
  mkGrouped data real_variacao meta_dia real_acum meta_acum desvio_dia desvio_acum.

(** ** The arithmetic of a column on binary64

    What numpy does on two float64 cells, and with it the functions of the
    source that subtract, divide and accumulate along a column, cell by
    cell as the code runs them.  (The sign of a zero is not kept.) *)

Definition add64 (a b : float) : float :=
  match a, b with
  | Fin x, Fin y => binary64 (x + y)
  | NaN, _ | _, NaN => NaN
  | Inf s, Inf t => if Bool.eqb s t then Inf s else NaN
  | Inf s, Fin _ => Inf s
  | Fin _, Inf t => Inf t
  end.

Definition sub64 (a b : float) : float :=
  match a, b with
  | Fin x, Fin y => binary64 (x - y)
  | NaN, _ | _, NaN => NaN
  | Inf s, Inf t => if Bool.eqb s t then NaN else Inf s
  | Inf s, Fin _ => Inf s
  | Fin _, Inf t => Inf (negb t)
  end.

Definition div64 (a b : float) : float :=
  match a, b with
  | Fin x, Fin y =>
      if Qc_eqb y 0
      then if Qc_eqb x 0 then NaN else Inf (Qnum x <? 0)%Z
      else binary64 (x / y)
  | NaN, _ | _, NaN => NaN
  | Inf _, Inf _ => NaN
  | Inf s, Fin y => Inf (xorb s (Qnum y <? 0)%Z)
  | Fin _, Inf _ => Fin 0
  end.

Definition isnan (a : float) : bool :=
  match a with
  | NaN => true
  | _ => false
  end.

(** [x.shift(1)] on a column of floats. *)
Definition shift64 (x : list float) : list float :=
  match x with
  | [] => []
  | _ :: _ => NaN :: removelast x
  end.

(** The inner function [variacao] of [carregar_dados] on the readings of a
    group: [v = x - x.shift(1)], then [v.iloc[0] = x.iloc[0]]. *)
Definition variacao64 (x : list float) : list float :=
  let v := map2 sub64 x (shift64 x) in
  match x, v with
  | x0 :: _, _ :: v' => x0 :: v'
  | _, _ => v
  end.

(** [np.cumsum]: the first cell, then each cell added to the sum so far. *)
Fixpoint np_cumsum_from (acc : float) (x : list float) : list float :=
  match x with
  | [] => []
  | v :: rest => add64 acc v :: np_cumsum_from (add64 acc v) rest
  end.

Definition np_cumsum (x : list float) : list float :=
  match x with
  | [] => []
  | v :: rest => v :: np_cumsum_from v rest
  end.

(** [x.cumsum()] of pandas: a missing cell counts as 0.0 in the sum and
    stays missing in the result. *)
Definition cumsum64 (x : list float) : list float :=
  map2 (fun v c => if isnan v then NaN else c) x
       (np_cumsum (map (fun v => if isnan v then Fin 0 else v) x)).

(** A count of rows as a float cell: the nearest float; a missing one is
    NaN. *)
Definition dias64 (d : option nat) : float :=
  match d with
  | Some n => binary64 (Qc_of_Z (Z.of_nat n))
  | None => NaN
  end.

(** [Meta Mês / DIAS] on one row. *)
Definition meta_dia64 (r : Row) : float := div64 (Fin (Meta_Mes r)) (dias64 (DIAS r)).

(** ** Presentation: [format_large_numbers] and the calls of the page *)

(** A comma in front of every group of three digits, the digits given from
    the last to the first; [n] digits of the current group are out. *)
Fixpoint group3 (n : nat) (digits : list ascii) : list ascii :=
  match digits with
  | [] => []
  | c :: rest =>
      match n with
      | 3%nat => ","%char :: c :: group3 1 rest
      | _ => c :: group3 (S n) rest
      end
  end.

(** [f"{value:,.0f}"] *)
Definition format_comma_0f (value : Qc) : string :=
  let digits :=
    NilZero.string_of_uint (N.to_uint (Z.to_N (Z.abs (round_half_even value)))) in
  let grouped :=
    string_of_list_ascii (rev (group3 0 (rev (list_ascii_of_string digits)))) in
  if Qlt_le_dec value 0 then String "-" grouped else grouped.

Definition format_large_numbers (value : option Qc) : string :=
  match value with
  | None => EmptyString
  | Some v => replace "," "." (String.append "R$ " (format_comma_0f v))
  end.

(** [df_exibir] *)
Record Exibir := mkExibir {
  e_Data : list Date;
  Producao_Dia : list string;
  e_Meta_Dia : list string;
  Desvio_Dia : list string;
  Producao_Acumulada : list string;
  Meta_Acumulada : list string;
  Desvio_Acumulado : list string
}.

Definition df_exibir (g : Grouped) : Exibir :=
  let fmt := map (fun v => format_large_numbers (Some v)) in
  mkExibir (g_Data g) (fmt (g_Real_Variacao g)) (fmt (g_Meta_Dia g))
           (fmt (DESVIO_DIA g)) (fmt (REAL_ACUM g)) (fmt (META_ACUM g))
           (fmt (DESVIO_ACUM g)).

(** What the page shows, call by call, with the data each call receives. *)
Inductive call :=
| st_warning (body : string)
| st_subheader_selecao (produto : string) (mes ano : option Z)
| st_plotly_chart (x : list Date) (real_dia meta_dia : list Qc)
| st_subheader_tabela
| st_dataframe (data : Exibir)
| to_excel (data : Exibir)
| st_download_button (data : Exibir) (mes ano : option Z).

(** A run of the script: the calls made so far, and a value unless
    [st.stop()] has ended the run. *)
Definition script (A : Type) : Type := list call * option A.

Definition ret {A : Type} (a : A) : script A := ([], Some a).

Definition bind {A B : Type} (m : script A) (f : A -> script B) : script B :=
  match m with
  | (calls, Some a) => let (calls', b) := f a in (calls ++ calls', b)
  | (calls, None) => (calls, None)
  end.

Definition emit (c : call) : script unit := ([c], Some tt).

Definition st_stop {A : Type} : script A := ([], None).

Notation "m ;; k" := (bind m (fun _ => k))
  (at level 61, right associativity).
Notation "x <- m ;; k" := (bind m (fun x => k))
  (at level 61, m at next level, right associativity).

(** "Nenhum dado após aplicar os filtros." *)
Definition nenhum_dado : string :=
  String.append "Nenhum dado ap"
    (String (ascii_of_nat 243) "s aplicar os filtros.").

(** The page from the filtering on, for the table [rede] and the choices
    [s] of the side bar. *)
Definition pagina (rede : DataFrame) (s : Selecao) : script unit :=
  let df_f := filtrar rede s in
  (match df_f with
   | [] => emit (st_warning nenhum_dado) ;; st_stop
   | _ :: _ => ret tt
   end) ;;
  g <- ret (df_grouped df_f) ;;
  emit (st_subheader_selecao (produto_sel s) (mes_sel s) (ano_sel s)) ;;
  emit (st_plotly_chart (g_Data g) (g_Real_Variacao g) (g_Meta_Dia g)) ;;
  emit st_subheader_tabela ;;
  t <- ret (df_exibir g) ;;
  emit (st_dataframe t) ;;
  emit (to_excel t) ;;
  emit (st_download_button t (mes_sel s) (ano_sel s)).

(** ** The option lists of the side bar *)

(** [col.dropna().unique()]: the values of the column, each once, in the
    order in which they first appear. *)
Definition unique_dropna (col : list (option string)) : list string :=
  group_keys String.eqb col.

(** [sorted(x)] on strings. *)
Definition sorted_str (x : list string) : list string :=
  sort (leb_of String.compare) x.

(** [[todos] + sorted(col.dropna().unique())] *)
Definition opcoes (todos : string) (col : list (option string)) : list string :=
  todos :: sorted_str (unique_dropna col).

(** [df_tmp = rede if regional_sel == "Todas" else rede[rede["Regional"] == regional_sel]] *)
Definition df_tmp_regional (rede : DataFrame) (regional_sel : string) : DataFrame :=
  if (regional_sel =? "Todas")%string then rede
  else filter (fun r => eq_str (Regional r) regional_sel) rede.

Definition df_tmp_coordenador (df_tmp : DataFrame) (coordenador_sel : string)
  : DataFrame :=
  if (coordenador_sel =? "Todos")%string then df_tmp
  else filter (fun r => eq_str (Coordenador r) coordenador_sel) df_tmp.

Definition opcoes_produto (rede : DataFrame) : list string :=
  opcoes "Todos" (map Produto rede).

Definition opcoes_regional (rede : DataFrame) : list string :=
  opcoes "Todas" (map Regional rede).

Definition opcoes_coordenador (rede : DataFrame) (regional_sel : string)
  : list string :=
  opcoes "Todos" (map Coordenador (df_tmp_regional rede regional_sel)).

Definition opcoes_loja (rede : DataFrame) (regional_sel coordenador_sel : string)
  : list string :=
  opcoes "Todas"
    (map Nome_Loja
         (df_tmp_coordenador (df_tmp_regional rede regional_sel) coordenador_sel)).

(** * Notions used in the statements

    What follows is not in the source: the selections of rows that the
    statements speak about, the operations in the words of the
    specification, to be compared with those of the code, and concrete
    tables. *)

Local Open Scope nat_scope.

Definition in_group (k : Key) (r : Row) : bool := has_key key_eqb k (chave r).

(** The rows of the frame that belong to group [k], in row order. *)
Definition grupo (k : Key) (df : DataFrame) : DataFrame := filter (in_group k) df.

Definition no_key (o : option Key) : bool :=
  match o with
  | None => true
  | Some _ => false
  end.

(** The rows that [groupby] drops. *)
Definition sem_grupo (df : DataFrame) : DataFrame :=
  filter (fun r => no_key (chave r)) df.

(** What [carregar_dados] does, written for the rows of one group alone. *)
Definition normalizar_grupo (g : DataFrame) : DataFrame :=
  let g := map (set_DIAS (Some (List.length g))) g in
  let g :=
    assign set_Meta_Mes g
      (map (fillna 0%Qc) (bfill (map replace_zero_na (map Meta_Mes g)))) in
  let g := sort_values g in
  let g := assign set_Real_Variacao g (variacao (map Real g)) in
  meta_dia g.

(** What it does to the rows without a group. *)
Definition normalizar_sem_grupo (g : DataFrame) : DataFrame :=
  map (fun r => set_Meta_Dia None
                  (set_Real_Variacao None (set_Meta_Mes 0%Qc (set_DIAS None r))))
      (sort_values g).

(** The columns of the source file that [carregar_dados] never writes. *)
Definition ledger (r : Row) :=
  (Nome_Loja r, Produto r, Regional r, Coordenador r, Data r, Real r).

(** The back-fill in the words of the specification.  The first non-zero
    target of a list of targets, zero when there is none. *)
Fixpoint first_nonzero (targets : list Qc) : Qc :=
  match targets with
  | [] => 0%Qc
  | t :: rest => if Qc_eqb t 0 then first_nonzero rest else t
  end.

(** Each target replaced by the first non-zero target from its own row on. *)
Fixpoint backfill (targets : list Qc) : list Qc :=
  match targets with
  | [] => []
  | t :: rest => first_nonzero (t :: rest) :: backfill rest
  end.

(** The group after the first two blocks, before the sort. *)
Definition grupo_com_meta (g : DataFrame) : DataFrame :=
  assign set_Meta_Mes (map (set_DIAS (Some (List.length g))) g)
         (backfill (map Meta_Mes g)).

(** The order of the rows of the normalised table. *)
Definition key_leb := leb_of (lex (nulls_last String.compare)
                                  (lex (nulls_last period_cmp) (nulls_last date_cmp))).

(** Rows in ascending date order (a missing date after every date). *)
Definition date_le (a b : Row) : Prop :=
  leb_of (nulls_last date_cmp) (Data a) (Data b) = true.

(** The first differences in the words of the specification: the values of
    a list, each minus the one before it; [prev] comes before the first. *)
Fixpoint diffs (prev : Qc) (x : list Qc) : list Qc :=
  match x with
  | [] => []
  | a :: rest => (a - prev)%Qc :: diffs a rest
  end.

(** The number of distinct days among the rows [g]. *)
Definition dias_distintos (g : DataFrame) : nat :=
  List.length (group_keys date_eqb (map Data g)).

(** Every character of a text with the text that follows it. *)
Fixpoint positions (v : string) : list (ascii * string) :=
  match v with
  | EmptyString => []
  | String c rest => (c, rest) :: positions rest
  end.

(** A dot that stands in front of three digits and a comma. *)
Definition is_thousands_dot (p : ascii * string) : bool :=
  Ascii.eqb (fst p) "." && followed_by_3digits_comma (snd p).

Fixpoint map_string (f : ascii -> ascii) (s : string) : string :=
  match s with
  | EmptyString => EmptyString
  | String c rest => String (f c) (map_string f rest)
  end.

Definition comma_to_point (c : ascii) : ascii :=
  if Ascii.eqb c "," then "."%char else c.

(** What [limpar_moeda] makes of a string. *)
Definition parse_text (s : string) : float :=
  let v := strip s in
  if (v =? EmptyString)%string || (v =? "-")%string then zero
  else
    match float_of_str
            (replace "," "."
               (sub_thousands (strip (replace "r$" EmptyString (replace "R$" EmptyString v)))))
    with
    | Ok f => f
    | Raise _ => zero
    end.

(** The rows of a given date. *)
Definition on_date (d : Date) (r : Row) : bool := has_key date_eqb d (Data r).

(** The sum of a list of numbers. *)
Definition total (x : list Qc) : Qc := fold_right Qcplus 0%Qc x.

Definition date_lt (a b : Date) : Prop := date_cmp a b = Lt.

(** The dates of the subset, each once, in ascending order. *)
Definition datas (df_f : DataFrame) : list Date :=
  sort (leb_of date_cmp) (group_keys date_eqb (map Data df_f)).

Definition has_date (r : Row) : bool :=
  match Data r with
  | Some _ => true
  | None => false
  end.

(** [df.dropna(subset=["Data"])], the table without the rows that have no
    date. *)
Definition dropna_Data (df : DataFrame) : DataFrame := filter has_date df.

(** The window of the year and month of the side bar. *)
Definition na_janela (s : Selecao) (r : Row) : bool :=
  eq_num (option_map year (Data r)) (ano_sel s)
  && eq_num (option_map month (Data r)) (mes_sel s).

(** ** Notions of the arithmetic on binary64 *)

(** [q] is a binary64 number: rounding leaves it as it is. *)
Definition is_binary64 (q : Qc) : Prop := binary64 q = Fin q.

(** A cell of the exact table as a float cell. *)
Definition cell64 (c : option Qc) : float :=
  match c with
  | Some q => Fin q
  | None => NaN
  end.

(** The sum of a column taken in row order, the missing cells left out: the
    first cell, then each cell added to the sum so far, as a running sum
    goes. *)
Definition sum64 (x : list float) : float :=
  last (np_cumsum (filter (fun v => negb (isnan v)) x)) (Fin 0%Qc).

(** A whole number below [2 ^ e] in magnitude. *)
Definition whole_below (e : Z) (q : Qc) : Prop :=
  exists z, q = Qc_of_Z z /\ (Z.abs z < 2 ^ e)%Z.

(** The binary64 numbers written 0.2 and 0.9. *)
Definition f0_2 : float := binary64 (Q2Qc (2 # 10)).
Definition f0_9 : float := binary64 (Q2Qc (9 # 10)).

(** ** Concrete tables *)

Module Exemplos.

(** A row of shop [loja] on day [dia] of January 2024. *)
Definition linha (loja : string) (dia : Z) (real meta : Z) : Row :=
  mkRow (Some loja) None None None (Some (mkDate 2024 1 dia))
        (Qc_of_Z real) (Qc_of_Z meta) None None None.

(** A row whose date could not be read. *)
Definition linha_sem_data (loja : string) (real meta : Z) : Row :=
  mkRow (Some loja) None None None None
        (Qc_of_Z real) (Qc_of_Z meta) None None None.

Definition janeiro (loja : string) : Key := (loja, (2024, 1)%Z).

Definition todos : Selecao :=
  mkSelecao "Todos" "Todas" "Todos" "Todas" (Some 2024%Z) (Some 1%Z).

(** One shop, targets [0, 0, 500] and readings [100, 250, 250]. *)
Definition uma_loja : DataFrame :=
  [linha "A" 1 100 0; linha "A" 2 250 0; linha "A" 3 250 500].

(** A reading that falls. *)
Definition estorno : DataFrame := [linha "A" 1 300 0; linha "A" 2 100 0].

(** The two shops of the end-to-end scenario. *)
Definition duas_lojas : DataFrame :=
  [linha "A" 1 100 0; linha "A" 2 300 600;
   linha "B" 1 50 0; linha "B" 2 50 200].

(** The target on the first day only. *)
Definition meta_no_inicio : DataFrame := [linha "A" 1 100 500; linha "A" 2 250 0].

(** The file lists the later day first. *)
Definition fora_de_ordem : DataFrame := [linha "A" 2 250 0; linha "A" 1 100 500].

(** Two rows of one shop on one day. *)
Definition dia_repetido : DataFrame := [linha "A" 1 100 0; linha "A" 1 250 500].

Definition com_data_nula : DataFrame :=
  [linha "A" 1 100 0; linha_sem_data "A" 40 700; linha "A" 2 250 500].

(** The readings 0.2 and 0.9 on two days. *)
Definition leitura (loja : string) (dia : Z) (real : float) : Row :=
  mkRow (Some loja) None None None (Some (mkDate 2024 1 dia))
        (match real with Fin q => q | _ => 0%Qc end) (Qc_of_Z 0) None None None.

Definition leituras_decimais : DataFrame :=
  [leitura "A" 1 f0_2; leitura "A" 2 f0_9].

End Exemplos.

(** ** Notions of the further properties *)


Definition string_lt (a b : string) : Prop := String.compare a b = Lt.

(** [l] is the entry [todos] followed by the values of the column [col],
    the missing ones left out, each once, in strictly ascending order. *)
Definition lista_de_opcoes (todos : string) (col : list (option string))
  (l : list string) : Prop :=
  hd_error l = Some todos
  /\ StronglySorted string_lt (tl l)
  /\ (forall x, In x (tl l) <-> In (Some x) col).

(** Every character of the text satisfies [p]. *)
Fixpoint all_str (p : ascii -> bool) (s : string) : bool :=
  match s with
  | EmptyString => true
  | String c rest => p c && all_str p rest
  end.

(** The number that a text of digits denotes, after the digits [acc]. *)
Fixpoint digits_val (acc : Z) (s : string) : Z :=
  match s with
  | EmptyString => acc
  | String c rest => digits_val (10 * acc + (Z.of_N (code c) - 48)) rest
  end.

(** The number with the digits [ip] before the point and [fp] after it. *)
Definition decimal (ip fp : string) : Qc :=
  scale10 (digits_val 0 (ip ++ fp)) (- Z.of_nat (String.length fp)).

(** A character of a plain number text: a digit, a point or a comma. *)
Definition plain (c : ascii) : bool :=
  isdigit c || Ascii.eqb c "." || Ascii.eqb c ",".

Definition digit_or_point (c : ascii) : bool := isdigit c || Ascii.eqb c ".".

(** [s] without the characters [c]. *)
Fixpoint remove_char (c : ascii) (s : string) : string :=
  match s with
  | EmptyString => EmptyString
  | String x rest =>
      if Ascii.eqb x c then remove_char c rest else String x (remove_char c rest)
  end.

(** The sign and the digits that [format_comma_0f] writes. *)
Definition sign_text (v : Qc) : string :=
  if Qlt_le_dec v 0 then "-"%string else EmptyString.

Definition digits_text (v : Qc) : string :=
  NilZero.string_of_uint (N.to_uint (Z.to_N (Z.abs (round_half_even v)))).

(** The digits of [format_comma_0f] with their separators, the commas
    already turned into points. *)
Definition grouped (ds : string) : string :=
  string_of_list_ascii
    (rev (map comma_to_point (group3 0 (rev (list_ascii_of_string ds))))).

(** How many times [c] occurs in [s]. *)
Fixpoint count_char (c : ascii) (s : string) : nat :=
  match s with
  | EmptyString => O
  | String x rest => if Ascii.eqb x c then S (count_char c rest) else count_char c rest
  end.

(** A character of a number text with its sign. *)
Definition signed (c : ascii) : bool := digit_or_point c || Ascii.eqb c "-".

(** A table with regionals and coordinators. *)
Module ExemplosRede.

Definition linha (loja reg coord : string) (dia : Z) : Row :=
  mkRow (Some loja) None (Some reg) (Some coord) (Some (mkDate 2024 1 dia))
        (Qc_of_Z 0) (Qc_of_Z 0) None None None.

Definition rede : DataFrame :=
  [linha "A" "Sul" "Ana" 1; linha "B" "Sul" "Bia" 1; linha "C" "Norte" "Ana" 2].

End ExemplosRede.

(** * Properties *)

Lemma Qc_eqb_spec (a b : Qc) : reflect (a = b) (Qc_eqb a b).
Proof.
  unfold Qc_eqb. destruct (Qeq_bool a b) eqn:E; constructor.
  - apply Qc_is_canon, Qeq_bool_iff, E.
  - intros ->. rewrite (proj2 (Qeq_bool_iff _ _) (Qeq_refl _)) in E. discriminate.
Qed.

(** ** Orders *)

Section OrderFacts.

Context {A : Type} (cmp : A -> A -> comparison) (O : total_order cmp).

Lemma cmp_refl a : cmp a a = Eq.
Proof. now apply (cmp_eq _ O). Qed.

Lemma leb_of_total a b : leb_of cmp a b = true \/ leb_of cmp b a = true.
Proof.
  unfold leb_of. rewrite (cmp_antisym _ O a b).
  destruct (cmp a b); simpl; auto.
Qed.

Lemma leb_of_trans a b c :
  leb_of cmp a b = true -> leb_of cmp b c = true -> leb_of cmp a c = true.
Proof.
  unfold leb_of. intros Hab Hbc.
  destruct (cmp a b) eqn:Eab; try discriminate;
    destruct (cmp b c) eqn:Ebc; try discriminate.
  - apply (cmp_eq _ O) in Eab. subst b. now rewrite Ebc.
  - apply (cmp_eq _ O) in Eab. subst b. now rewrite Ebc.
  - apply (cmp_eq _ O) in Ebc. subst c. now rewrite Eab.
  - now rewrite (cmp_trans _ O a b c).
Qed.

Lemma total_order_nulls_last : total_order (nulls_last cmp).
Proof.
  split.
  - intros [a|] [b|]; simpl; split; intros H; try discriminate; auto.
    + f_equal. now apply (cmp_eq _ O).
    + injection H as ->. apply cmp_refl.
  - intros [a|] [b|]; simpl; auto. apply (cmp_antisym _ O).
  - intros [a|] [b|] [c|]; simpl; try discriminate; auto.
    apply (cmp_trans _ O).
Qed.

Lemma total_order_on {B : Type} (f : B -> A) :
  (forall x y, f x = f y -> x = y) -> total_order (on f cmp).
Proof.
  intros Hinj. unfold on. split.
  - intros a b. rewrite (cmp_eq _ O). split; [apply Hinj | now intros ->].
  - intros a b. apply (cmp_antisym _ O).
  - intros a b c. apply (cmp_trans _ O).
Qed.

Lemma total_order_lex {B : Type} (cmpB : B -> B -> comparison) :
  total_order cmpB -> total_order (lex cmp cmpB).
Proof.
  intros OB. unfold lex. split.
  - intros [a1 b1] [a2 b2]. simpl. split.
    + destruct (cmp a1 a2) eqn:E; try discriminate.
      intros H. apply (cmp_eq _ O) in E. apply (cmp_eq _ OB) in H. congruence.
    + intros [= -> ->]. rewrite cmp_refl. now apply (cmp_eq _ OB).
  - intros [a1 b1] [a2 b2]. simpl. rewrite (cmp_antisym _ O a1 a2).
    destruct (cmp a1 a2); simpl; auto. apply (cmp_antisym _ OB).
  - intros [a1 b1] [a2 b2] [a3 b3]. simpl.
    destruct (cmp a1 a2) eqn:E12; try discriminate;
      destruct (cmp a2 a3) eqn:E23; try discriminate.
    + apply (cmp_eq _ O) in E12, E23. subst. rewrite cmp_refl.
      apply (cmp_trans _ OB).
    + apply (cmp_eq _ O) in E12. subst. now rewrite E23.
    + apply (cmp_eq _ O) in E23. subst. now rewrite E12.
    + now rewrite (cmp_trans _ O _ _ _ E12 E23).
Qed.

End OrderFacts.

Lemma total_order_Z : total_order Z.compare.
Proof.
  split.
  - apply Z.compare_eq_iff.
  - intros a b. apply Z.compare_antisym.
  - intros a b c. rewrite !Z.compare_lt_iff. lia.
Qed.

Lemma total_order_ascii : total_order Ascii.compare.
Proof.
  unfold Ascii.compare. split.
  - intros a b. rewrite N.compare_eq_iff. split; [|now intros ->].
    intros H. rewrite <- (ascii_N_embedding a), <- (ascii_N_embedding b).
    now rewrite H.
  - intros a b. apply N.compare_antisym.
  - intros a b c. rewrite !N.compare_lt_iff. lia.
Qed.

Lemma total_order_string : total_order String.compare.
Proof.
  split.
  - intros a b. split; [apply String.compare_eq_iff|].
    intros ->. induction b as [|c b IH]; simpl; auto.
    now rewrite (cmp_refl _ total_order_ascii).
  - intros a b. apply String.compare_antisym.
  - intros a. induction a as [|x a IH]; intros [|y b] [|z c]; simpl;
      try discriminate; auto.
    destruct (Ascii.compare x y) eqn:Exy; try discriminate;
      destruct (Ascii.compare y z) eqn:Eyz; try discriminate.
    + apply (cmp_eq _ total_order_ascii) in Exy, Eyz. subst.
      rewrite (cmp_refl _ total_order_ascii). apply IH.
    + apply (cmp_eq _ total_order_ascii) in Exy. subst. now rewrite Eyz.
    + apply (cmp_eq _ total_order_ascii) in Eyz. subst. now rewrite Exy.
    + now rewrite (cmp_trans _ total_order_ascii _ _ _ Exy Eyz).
Qed.

Lemma total_order_period : total_order period_cmp.
Proof. apply total_order_lex; apply total_order_Z. Qed.

Lemma total_order_date : total_order date_cmp.
Proof.
  apply total_order_on.
  - repeat apply total_order_lex; apply total_order_Z.
  - intros [y1 m1 d1] [y2 m2 d2]. simpl. congruence.
Qed.

Lemma total_order_sort_key :
  total_order (lex (nulls_last String.compare)
                   (lex (nulls_last period_cmp) (nulls_last date_cmp))).
Proof.
  repeat apply total_order_lex; apply total_order_nulls_last.
  - apply total_order_string.
  - apply total_order_period.
  - apply total_order_date.
Qed.

(** ** The stable sort *)

Section SortFacts.

Context {A : Type} (leb : A -> A -> bool).
Hypothesis leb_total : forall a b, leb a b = true \/ leb b a = true.
Hypothesis leb_trans :
  forall a b c, leb a b = true -> leb b c = true -> leb a c = true.

Let le (a b : A) : Prop := leb a b = true.

Lemma insert_perm a l : Permutation (insert leb a l) (a :: l).
Proof.
  induction l as [|b l IH]; simpl; auto.
  destruct (leb a b); auto.
  rewrite IH. apply perm_swap.
Qed.

Lemma sort_perm l : Permutation (sort leb l) l.
Proof.
  induction l as [|a l IH]; simpl; auto.
  rewrite insert_perm. now constructor.
Qed.

Lemma sort_length l : List.length (sort leb l) = List.length l.
Proof. apply Permutation_length, sort_perm. Qed.

Lemma insert_sorted a l :
  StronglySorted le l -> StronglySorted le (insert leb a l).
Proof.
  induction 1 as [|b l Hs IH Hb]; simpl.
  - repeat constructor.
  - destruct (leb a b) eqn:E.
    + constructor; [now constructor|].
      constructor; [exact E|].
      apply Forall_impl with (2 := Hb). intros c Hc. exact (leb_trans _ _ _ E Hc).
    + constructor; [exact IH|].
      rewrite (insert_perm a l). constructor; [|exact Hb].
      destruct (leb_total a b) as [H|H]; [congruence|exact H].
Qed.

Lemma sort_sorted l : StronglySorted le (sort leb l).
Proof.
  induction l as [|a l IH]; simpl; [constructor|now apply insert_sorted].
Qed.

Lemma insert_head a l : Forall (le a) l -> insert leb a l = a :: l.
Proof.
  destruct 1 as [|b l Hb _]; simpl; auto. unfold le in Hb. now rewrite Hb.
Qed.

(** A sorted list is left as it is. *)
Lemma sort_sorted_id l : StronglySorted le l -> sort leb l = l.
Proof.
  induction 1 as [|a l Hs IH Ha]; simpl; auto.
  rewrite IH. now apply insert_head.
Qed.

(** Stability: selecting rows and sorting commute. *)
Lemma filter_insert (p : A -> bool) a l :
  StronglySorted le l ->
  filter p (insert leb a l)
  = if p a then insert leb a (filter p l) else filter p l.
Proof.
  induction 1 as [|b l Hs IH Hb]; simpl.
  - now destruct (p a).
  - destruct (leb a b) eqn:E; simpl.
    + destruct (p a) eqn:Pa; auto.
      symmetry. apply (insert_head a (filter p (b :: l))).
      apply Forall_forall. intros c Hc. apply filter_In in Hc as [Hc _].
      destruct Hc as [<-|Hc]; [exact E|].
      rewrite Forall_forall in Hb. exact (leb_trans _ _ _ E (Hb _ Hc)).
    + rewrite IH. destruct (p b) eqn:Pb; destruct (p a); simpl; auto.
      now rewrite E.
Qed.

Lemma filter_sort (p : A -> bool) l :
  filter p (sort leb l) = sort leb (filter p l).
Proof.
  induction l as [|a l IH]; simpl; auto.
  rewrite filter_insert by apply sort_sorted.
  rewrite IH. now destruct (p a).
Qed.

End SortFacts.

(** Sorting with an order that a function [f] preserves sorts the images. *)
Lemma sort_map {A B : Type} (lebA : A -> A -> bool) (lebB : B -> B -> bool)
      (f : A -> B) :
  (forall a b, lebB (f a) (f b) = lebA a b) ->
  forall l, sort lebB (map f l) = map f (sort lebA l).
Proof.
  intros H l. induction l as [|a l IH]; simpl; auto.
  rewrite IH. generalize (sort lebA l). intros s.
  induction s as [|b s IHs]; simpl; auto.
  rewrite H. destruct (lebA a b); simpl; auto. now rewrite IHs.
Qed.

(** ** [groupby] *)

Lemma skipn_nth_error {A : Type} (l : list A) n a :
  nth_error l n = Some a -> skipn n l = a :: skipn (S n) l.
Proof.
  revert n. induction l as [|b l IH]; intros [|n]; simpl; try discriminate.
  - now intros [= ->].
  - intros H. now rewrite (IH _ H).
Qed.

Section GroupByFacts.

Context {K : Type} (eqb : K -> K -> bool).
Hypothesis eqb_spec : forall a b, reflect (a = b) (eqb a b).

Lemma eqb_refl k : eqb k k = true.
Proof. now destruct (eqb_spec k k). Qed.

Lemma has_key_spec k o : has_key eqb k o = true <-> o = Some k.
Proof.
  destruct o as [k'|]; simpl; [|split; discriminate].
  destruct (eqb_spec k k'); split; congruence.
Qed.

Lemma pick_length_le {A : Type} p (keys : list (option K)) (x : list A) :
  List.length keys <= List.length x ->
  List.length (pick p keys x) = List.length (filter p keys).
Proof.
  unfold pick. revert x. induction keys as [|o keys IH]; simpl; auto.
  intros [|a x] H; simpl in *; [lia|].
  destruct (p o); simpl; rewrite IH; auto; lia.
Qed.

Lemma pick_map {A B : Type} p (keys : list (option K)) (f : A -> B) x :
  pick p keys (map f x) = map f (pick p keys x).
Proof.
  unfold pick. revert x. induction keys as [|o keys IH]; simpl; auto.
  intros [|a x]; simpl; auto.
  destruct (p o); simpl; now rewrite IH.
Qed.

(** The picked cells of a column of a frame are the column of the picked
    rows. *)
Lemma pick_rows {R A : Type} p (key : R -> option K) (f : R -> A) rows :
  pick p (map key rows) (map f rows) = map f (filter (fun r => p (key r)) rows).
Proof.
  unfold pick. induction rows as [|r rows IH]; simpl; auto.
  destruct (p (key r)); simpl; now rewrite IH.
Qed.

Lemma count_key_app k l1 l2 :
  count_key eqb k (l1 ++ l2) = (count_key eqb k l1 + count_key eqb k l2)%nat.
Proof. unfold count_key. now rewrite filter_app, length_app. Qed.

Lemma scatter_length {B : Type} (res : K -> list (option B)) todo seen :
  List.length (scatter eqb res seen todo) = List.length todo.
Proof.
  revert seen. induction todo as [|o todo IH]; intros seen; simpl; auto.
Qed.

(** The rows of a group receive the results of the group, in order. *)
Lemma scatter_group {B : Type} (res : K -> list (option B)) k todo seen :
  (count_key eqb k seen + count_key eqb k todo)%nat = List.length (res k) ->
  get_group eqb todo (scatter eqb res seen todo) k
  = skipn (count_key eqb k seen) (res k).
Proof.
  unfold get_group, pick.
  revert seen. induction todo as [|o todo IH]; intros seen Hlen.
  - simpl. unfold count_key in Hlen at 2. simpl in Hlen.
    rewrite Nat.add_0_r in Hlen. rewrite Hlen. now rewrite skipn_all.
  - cbn [scatter combine filter fst].
    destruct (has_key eqb k o) eqn:Hk.
    + apply has_key_spec in Hk. subst o.
      assert (Hc : count_key eqb k (Some k :: todo) = S (count_key eqb k todo)).
      { unfold count_key. simpl. now rewrite eqb_refl. }
      rewrite Hc in Hlen.
      destruct (nth_error (res k) (count_key eqb k seen)) as [cell|] eqn:Hn.
      2:{ apply nth_error_None in Hn. lia. }
      cbn [map snd]. rewrite (skipn_nth_error _ _ _ Hn). f_equal.
      rewrite IH.
      * rewrite count_key_app. unfold count_key at 2. simpl.
        rewrite eqb_refl. simpl. now rewrite Nat.add_1_r.
      * rewrite count_key_app. unfold count_key at 2. simpl.
        rewrite eqb_refl. simpl. lia.
    + assert (Hc : count_key eqb k (o :: todo) = count_key eqb k todo).
      { unfold count_key. simpl. now rewrite Hk. }
      rewrite Hc in Hlen.
      assert (Hs : count_key eqb k (seen ++ [o]) = count_key eqb k seen).
      { rewrite count_key_app. unfold count_key at 2. simpl. rewrite Hk.
        simpl. lia. }
      rewrite IH; rewrite Hs; auto.
Qed.

(** Rows without a key receive NaN. *)
Lemma scatter_null {B : Type} (res : K -> list (option B)) p todo seen :
  (forall k, p (Some k) = false) ->
  Forall (eq None) (pick p todo (scatter eqb res seen todo)).
Proof.
  intros Hp. unfold pick.
  revert seen. induction todo as [|o todo IH]; intros seen; simpl; auto.
  destruct o as [k|]; simpl.
  - rewrite Hp. apply IH.
  - destruct (p None); simpl; auto.
Qed.

Lemma transform_length {A B : Type} keys (x : list A)
      (f : list A -> list (option B)) :
  List.length (transform eqb keys x f) = List.length keys.
Proof. apply scatter_length. Qed.

(** A transform that keeps the length of each group acts on each group
    alone. *)
Lemma transform_group {A B : Type} keys (x : list A)
      (f : list A -> list (option B)) k :
  List.length keys <= List.length x ->
  (forall g, List.length (f g) = List.length g) ->
  get_group eqb keys (transform eqb keys x f) k = f (get_group eqb keys x k).
Proof.
  intros Hx Hf. unfold transform.
  rewrite scatter_group; [reflexivity|].
  rewrite Hf. unfold get_group. rewrite pick_length_le by exact Hx.
  reflexivity.
Qed.

Lemma transform_null {A B : Type} keys (x : list A)
      (f : list A -> list (option B)) p :
  (forall k, p (Some k) = false) ->
  Forall (eq None) (pick p keys (transform eqb keys x f)).
Proof. apply scatter_null. Qed.

(** *** Sizes *)

Lemma group_keys_in k keys :
  In k (group_keys eqb keys) <-> In (Some k) keys.
Proof.
  induction keys as [|[k'|] keys IH]; simpl.
  - tauto.
  - rewrite filter_In, IH. destruct (eqb_spec k' k) as [->|Hne]; simpl.
    + tauto.
    + split.
      * intros [H|[H _]]; [congruence|auto].
      * intros [[= H]|H]; [congruence|auto].
  - rewrite IH. split; [auto|]. intros [H|H]; [discriminate|auto].
Qed.

Lemma lookup_map {V : Type} (g : K -> V) k ks :
  In k ks -> lookup eqb k (map (fun k' => (k', g k')) ks) = Some (g k).
Proof.
  induction ks as [|k' ks IH]; simpl; [tauto|].
  intros H. destruct (eqb_spec k k') as [->|Hne]; auto.
  destruct H as [H|H]; [congruence|auto].
Qed.

Lemma lookup_size k keys :
  In (Some k) keys -> lookup eqb k (size eqb keys) = Some (count_key eqb k keys).
Proof.
  intros H. unfold size.
  apply (lookup_map (fun k' => count_key eqb k' keys)). now apply group_keys_in.
Qed.

Lemma merge_left_group {V : Type} k (right : list (K * V)) v ks :
  (In (Some k) ks -> lookup eqb k right = Some v) ->
  Forall (eq (Some v)) (get_group eqb ks (merge_left eqb ks right) k).
Proof.
  unfold get_group, pick, merge_left.
  induction ks as [|o ks IH]; intros Hv; simpl; auto.
  destruct (has_key eqb k o) eqn:Hk; simpl.
  - apply has_key_spec in Hk. subst o. constructor.
    + symmetry. apply Hv. now left.
    + apply IH. intros H. apply Hv. now right.
  - apply IH. intros H. apply Hv. now right.
Qed.

(** Every row of a group receives the size of the group. *)
Lemma merge_size_group k keys :
  Forall (eq (Some (count_key eqb k keys)))
         (get_group eqb keys (merge_left eqb keys (size eqb keys)) k).
Proof. apply merge_left_group, lookup_size. Qed.

Lemma merge_size_null {V : Type} keys (right : list (K * V)) p :
  (forall k, p (Some k) = false) ->
  Forall (eq None) (pick p keys (merge_left eqb keys right)).
Proof.
  intros Hp. unfold pick, merge_left.
  induction keys as [|[k|] keys IH]; simpl; auto.
  - now rewrite Hp.
  - destruct (p None); simpl; auto.
Qed.

Lemma merge_left_length {V : Type} keys (right : list (K * V)) :
  List.length (merge_left eqb keys right) = List.length keys.
Proof. apply length_map. Qed.

End GroupByFacts.

(** ** Columns and rows *)

Lemma key_eqb_spec (a b : Key) : reflect (a = b) (key_eqb a b).
Proof.
  destruct a as [la [ya ma]], b as [lb [yb mb]]. unfold key_eqb, period_eqb. simpl.
  destruct (String.eqb_spec la lb); simpl; [|constructor; congruence].
  destruct (Z.eqb_spec ya yb); simpl; [|constructor; congruence].
  destruct (Z.eqb_spec ma mb); simpl; constructor; congruence.
Qed.

Lemma date_eqb_spec (a b : Date) : reflect (a = b) (date_eqb a b).
Proof.
  destruct a as [ya ma da], b as [yb mb db]. unfold date_eqb. simpl.
  destruct (Z.eqb_spec ya yb); simpl; [|constructor; congruence].
  destruct (Z.eqb_spec ma mb); simpl; [|constructor; congruence].
  destruct (Z.eqb_spec da db); simpl; constructor; congruence.
Qed.

Section Assign.

Context {V : Type} (set : V -> Row -> Row).

Lemma assign_length df (col : list V) :
  List.length df <= List.length col ->
  List.length (assign set df col) = List.length df.
Proof.
  intros H. unfold assign. rewrite length_map, length_combine. lia.
Qed.

(** A column that the assignment does not touch. *)
Lemma assign_other {B : Type} (f : Row -> B) df (col : list V) :
  (forall v r, f (set v r) = f r) ->
  List.length df <= List.length col ->
  map f (assign set df col) = map f df.
Proof.
  intros Hf. unfold assign. revert col.
  induction df as [|r df IH]; intros [|v col] H; simpl in *; auto; try lia.
  rewrite Hf, IH; auto. lia.
Qed.

(** The column that is assigned. *)
Lemma assign_same (f : Row -> V) df (col : list V) :
  (forall v r, f (set v r) = v) ->
  List.length col <= List.length df ->
  map f (assign set df col) = col.
Proof.
  intros Hf. unfold assign. revert col.
  induction df as [|r df IH]; intros [|v col] H; simpl in *; auto; try lia.
  rewrite Hf, IH; auto. lia.
Qed.

Lemma assign_const df (col : list V) v :
  Forall (eq v) col -> List.length df <= List.length col ->
  assign set df col = map (set v) df.
Proof.
  intros Hc. unfold assign. revert df.
  induction Hc as [|w col <- _ IH]; intros [|r df] H; simpl in *; auto; try lia.
  rewrite IH; auto. lia.
Qed.

(** Selecting rows by their key commutes with an assignment that leaves
    the key alone. *)
Lemma filter_assign (p : option Key -> bool) df (col : list V) :
  (forall v r, chave (set v r) = chave r) ->
  filter (fun r => p (chave r)) (assign set df col)
  = assign set (filter (fun r => p (chave r)) df)
           (pick p (map chave df) col).
Proof.
  intros Hk. unfold assign, pick. revert col.
  induction df as [|r df IH]; intros [|v col]; simpl; auto.
  - destruct (p (chave r)); simpl; auto. now rewrite combine_nil.
  - rewrite Hk. destruct (p (chave r)); simpl; now rewrite IH.
Qed.

End Assign.

Lemma filter_map_comm {A B : Type} (q : B -> bool) (f : A -> B) l :
  filter q (map f l) = map f (filter (fun a => q (f a)) l).
Proof.
  induction l as [|a l IH]; simpl; auto.
  destruct (q (f a)); simpl; now rewrite IH.
Qed.

Lemma bfill_length {A : Type} (x : list (option A)) :
  List.length (bfill x) = List.length x.
Proof. induction x as [|[a|] x IH]; simpl; auto. Qed.

Lemma map2_length {A B C : Type} (f : A -> B -> C) x y :
  List.length (map2 f x y) = Nat.min (List.length x) (List.length y).
Proof.
  revert y. induction x as [|a x IH]; intros [|b y]; simpl; auto.
Qed.

Lemma shift1_length {A : Type} (x : list (option A)) :
  List.length (shift1 x) = List.length x.
Proof.
  destruct x as [|a x]; simpl; auto.
  f_equal. revert a. induction x as [|b x IH]; intros a; simpl; auto.
Qed.

Lemma variacao_length x : List.length (variacao x) = List.length x.
Proof.
  unfold variacao.
  pose proof (map2_length sub_cells (map Some x) (shift1 (map Some x))) as H.
  rewrite shift1_length, Nat.min_id, length_map in H.
  destruct x as [|a x]; simpl in *; auto.
Qed.

Lemma row_leb_total a b :
  leb_of row_cmp a b = true \/ leb_of row_cmp b a = true.
Proof. apply (leb_of_total _ total_order_sort_key). Qed.

Lemma row_leb_trans a b c :
  leb_of row_cmp a b = true -> leb_of row_cmp b c = true ->
  leb_of row_cmp a c = true.
Proof. apply (leb_of_trans _ total_order_sort_key). Qed.

Lemma sort_values_filter p df :
  filter p (sort_values df) = sort_values (filter p df).
Proof. apply filter_sort; [apply row_leb_total | apply row_leb_trans]. Qed.

Lemma sort_values_map (f : Row -> Row) df :
  (forall r, sort_key (f r) = sort_key r) ->
  sort_values (map f df) = map f (sort_values df).
Proof.
  intros H. apply sort_map. intros a b.
  unfold leb_of, row_cmp, on. now rewrite !H.
Qed.

Lemma sort_values_length df : List.length (sort_values df) = List.length df.
Proof. apply sort_length. Qed.

(** ** Groups do not interact *)

Lemma rows_keys_length (p : option Key -> bool) df :
  List.length (filter (fun r => p (chave r)) df)
  = List.length (filter p (map chave df)).
Proof. now rewrite filter_map_comm, length_map. Qed.

Lemma pick_rows_length {A : Type} (p : option Key -> bool) df (col : list A) :
  List.length df <= List.length col ->
  List.length (filter (fun r => p (chave r)) df)
  <= List.length (pick p (map chave df) col).
Proof.
  intros H. rewrite pick_length_le by (rewrite length_map; lia).
  now rewrite rows_keys_length.
Qed.

Lemma grupo_count k df :
  count_key key_eqb k (map chave df) = List.length (grupo k df).
Proof. unfold count_key, grupo, in_group. now rewrite <- rows_keys_length. Qed.

Lemma no_key_some k : no_key (Some k) = false.
Proof. reflexivity. Qed.

Lemma dias_por_mes_grupo k df :
  grupo k (dias_por_mes df)
  = map (set_DIAS (Some (List.length (grupo k df)))) (grupo k df).
Proof.
  unfold grupo at 1, in_group, dias_por_mes.
  rewrite (filter_assign set_DIAS (has_key key_eqb k)) by reflexivity.
  apply assign_const.
  - rewrite <- grupo_count. apply (merge_size_group _ key_eqb_spec).
  - apply pick_rows_length. rewrite merge_left_length, length_map. lia.
Qed.

Lemma dias_por_mes_sem_grupo df :
  sem_grupo (dias_por_mes df) = map (set_DIAS None) (sem_grupo df).
Proof.
  unfold sem_grupo, dias_por_mes.
  rewrite (filter_assign set_DIAS no_key) by reflexivity.
  apply assign_const.
  - apply merge_size_null, no_key_some.
  - apply pick_rows_length. rewrite merge_left_length, length_map. lia.
Qed.

Lemma meta_mes_grupo k df :
  grupo k (meta_mes df)
  = assign set_Meta_Mes (grupo k df)
      (map (fillna 0%Qc)
         (bfill (map replace_zero_na (map Meta_Mes (grupo k df))))).
Proof.
  unfold grupo at 1, in_group, meta_mes.
  rewrite (filter_assign set_Meta_Mes (has_key key_eqb k)) by reflexivity.
  f_equal. rewrite pick_map. f_equal.
  pose proof (transform_group _ key_eqb_spec (map chave df)
                (map replace_zero_na (map Meta_Mes df)) bfill k) as H.
  unfold get_group in H. rewrite H.
  - f_equal. rewrite pick_map. f_equal. now rewrite pick_rows.
  - rewrite !length_map. lia.
  - intros g. apply bfill_length.
Qed.

Lemma meta_mes_sem_grupo df :
  sem_grupo (meta_mes df) = map (set_Meta_Mes 0%Qc) (sem_grupo df).
Proof.
  unfold sem_grupo, meta_mes.
  rewrite (filter_assign set_Meta_Mes no_key) by reflexivity.
  apply assign_const.
  - rewrite pick_map.
    pose proof (transform_null key_eqb (map chave df)
                  (map replace_zero_na (map Meta_Mes df)) bfill no_key
                  no_key_some) as H.
    induction H as [|c l <- _ IH]; simpl; auto.
  - apply pick_rows_length. rewrite length_map, transform_length, length_map. lia.
Qed.

Lemma real_variacao_grupo k df :
  grupo k (real_variacao df)
  = assign set_Real_Variacao (grupo k df) (variacao (map Real (grupo k df))).
Proof.
  unfold grupo at 1, in_group, real_variacao.
  rewrite (filter_assign set_Real_Variacao (has_key key_eqb k)) by reflexivity.
  f_equal.
  pose proof (transform_group _ key_eqb_spec (map chave df) (map Real df)
                variacao k) as H.
  unfold get_group in H. rewrite H.
  - f_equal. now rewrite pick_rows.
  - rewrite !length_map. lia.
  - apply variacao_length.
Qed.

Lemma real_variacao_sem_grupo df :
  sem_grupo (real_variacao df) = map (set_Real_Variacao None) (sem_grupo df).
Proof.
  unfold sem_grupo, real_variacao.
  rewrite (filter_assign set_Real_Variacao no_key) by reflexivity.
  apply assign_const.
  - apply transform_null, no_key_some.
  - apply pick_rows_length. rewrite transform_length, length_map. lia.
Qed.

Lemma meta_dia_filter (p : option Key -> bool) df :
  filter (fun r => p (chave r)) (meta_dia df)
  = meta_dia (filter (fun r => p (chave r)) df).
Proof. unfold meta_dia. now rewrite filter_map_comm. Qed.

(** The rows of a group in the normalised table depend on the rows of that
    group alone. *)
Lemma carregar_dados_grupo k df :
  grupo k (carregar_dados df) = normalizar_grupo (grupo k df).
Proof.
  unfold carregar_dados, normalizar_grupo. cbv zeta.
  unfold grupo at 1, in_group. rewrite (meta_dia_filter (has_key key_eqb k)).
  fold (in_group k). fold (grupo k (real_variacao (sort_values (meta_mes (dias_por_mes df))))).
  rewrite real_variacao_grupo. unfold grupo at 1 2.
  rewrite sort_values_filter. fold (grupo k (meta_mes (dias_por_mes df))).
  rewrite meta_mes_grupo, dias_por_mes_grupo. reflexivity.
Qed.

Lemma carregar_dados_sem_grupo df :
  sem_grupo (carregar_dados df) = normalizar_sem_grupo (sem_grupo df).
Proof.
  unfold carregar_dados, normalizar_sem_grupo. cbv zeta.
  unfold sem_grupo at 1. rewrite (meta_dia_filter no_key).
  fold (sem_grupo (real_variacao (sort_values (meta_mes (dias_por_mes df))))).
  rewrite real_variacao_sem_grupo. unfold sem_grupo at 1.
  rewrite sort_values_filter. fold (sem_grupo (meta_mes (dias_por_mes df))).
  rewrite meta_mes_sem_grupo, dias_por_mes_sem_grupo.
  rewrite !sort_values_map by reflexivity.
  unfold meta_dia. rewrite !map_map. reflexivity.
Qed.

(** ** One group *)

Lemma bfill_hd (x : list Qc) :
  fillna 0%Qc (hd None (bfill (map replace_zero_na x))) = first_nonzero x.
Proof.
  induction x as [|t x IH]; simpl; auto.
  unfold replace_zero_na. destruct (Qc_eqb t 0); simpl; auto.
Qed.

Lemma bfill_backfill (x : list Qc) :
  map (fillna 0%Qc) (bfill (map replace_zero_na x)) = backfill x.
Proof.
  induction x as [|t x IH]; auto.
  cbn [map bfill backfill first_nonzero]. rewrite IH. f_equal.
  unfold replace_zero_na. destruct (Qc_eqb t 0); simpl; auto.
  apply bfill_hd.
Qed.

Lemma backfill_length x : List.length (backfill x) = List.length x.
Proof. induction x; simpl; auto. Qed.

Lemma normalizar_grupo_eq g :
  normalizar_grupo g
  = meta_dia (assign set_Real_Variacao (sort_values (grupo_com_meta g))
                (variacao (map Real (sort_values (grupo_com_meta g))))).
Proof.
  unfold normalizar_grupo, grupo_com_meta. cbv zeta.
  rewrite bfill_backfill, !map_map. reflexivity.
Qed.

Lemma meta_dia_other {B : Type} (f : Row -> B) df :
  (forall v r, f (set_Meta_Dia v r) = f r) -> map f (meta_dia df) = map f df.
Proof.
  intros H. unfold meta_dia. rewrite map_map. apply map_ext. intros r. apply H.
Qed.

(** A column untouched by the last two blocks is the column of the sorted
    group. *)
Lemma normalizar_grupo_other {B : Type} (f : Row -> B) g :
  (forall v r, f (set_Meta_Dia v r) = f r) ->
  (forall v r, f (set_Real_Variacao v r) = f r) ->
  map f (normalizar_grupo g) = map f (sort_values (grupo_com_meta g)).
Proof.
  intros H1 H2. rewrite normalizar_grupo_eq, meta_dia_other by exact H1.
  apply assign_other; [exact H2|]. rewrite variacao_length, length_map. lia.
Qed.

Lemma grupo_com_meta_length g :
  List.length (grupo_com_meta g) = List.length g.
Proof.
  unfold grupo_com_meta.
  rewrite assign_length; rewrite length_map; [reflexivity|].
  rewrite backfill_length, length_map. lia.
Qed.

Lemma normalizar_grupo_length g :
  List.length (normalizar_grupo g) = List.length g.
Proof.
  rewrite <- (length_map Real), (normalizar_grupo_other Real) by reflexivity.
  now rewrite length_map, sort_values_length, grupo_com_meta_length.
Qed.

Lemma grupo_com_meta_other {B : Type} (f : Row -> B) g :
  (forall v r, f (set_Meta_Mes v r) = f r) ->
  (forall v r, f (set_DIAS v r) = f r) ->
  map f (grupo_com_meta g) = map f g.
Proof.
  intros H1 H2. unfold grupo_com_meta. rewrite assign_other.
  - rewrite map_map. apply map_ext. intros r. apply H2.
  - exact H1.
  - rewrite backfill_length, !length_map. lia.
Qed.

Lemma combine_map_pair {A B C : Type} (f : A -> B) (h : A -> C) l :
  combine (map f l) (map h l) = map (fun a => (f a, h a)) l.
Proof. induction l; simpl; congruence. Qed.

(** The targets of the group before the sort: the back-filled targets, row
    by row. *)
Lemma grupo_com_meta_targets g :
  map (fun r => (ledger r, Meta_Mes r)) (grupo_com_meta g)
  = combine (map ledger g) (backfill (map Meta_Mes g)).
Proof.
  rewrite <- combine_map_pair. f_equal.
  - now apply grupo_com_meta_other.
  - unfold grupo_com_meta. apply assign_same; [reflexivity|].
    rewrite backfill_length, !length_map. lia.
Qed.

Lemma normalizar_grupo_targets g :
  Permutation (map (fun r => (ledger r, Meta_Mes r)) (normalizar_grupo g))
              (combine (map ledger g) (backfill (map Meta_Mes g))).
Proof.
  rewrite normalizar_grupo_other by reflexivity.
  rewrite <- grupo_com_meta_targets.
  apply Permutation_map, sort_perm.
Qed.

Lemma normalizar_grupo_variacao g :
  map Real_Variacao (normalizar_grupo g) = variacao (map Real (normalizar_grupo g)).
Proof.
  rewrite (normalizar_grupo_other Real) by reflexivity.
  rewrite normalizar_grupo_eq, meta_dia_other by reflexivity.
  apply assign_same; [reflexivity|].
  rewrite variacao_length, length_map. lia.
Qed.

Lemma normalizar_grupo_DIAS g :
  Forall (fun r => DIAS r = Some (List.length g)) (normalizar_grupo g).
Proof.
  assert (H : Forall (eq (Some (List.length g))) (map DIAS (normalizar_grupo g))).
  { rewrite normalizar_grupo_other by reflexivity.
    assert (Hp : Permutation (map DIAS (grupo_com_meta g))
                             (map DIAS (sort_values (grupo_com_meta g)))).
    { apply Permutation_map. symmetry. apply sort_perm. }
    eapply Permutation_Forall; [exact Hp|].
    unfold grupo_com_meta. rewrite assign_other.
    - rewrite map_map. simpl. apply Forall_forall. intros d Hd.
      apply in_map_iff in Hd as [r [<- _]]. reflexivity.
    - reflexivity.
    - rewrite backfill_length, !length_map. lia. }
  rewrite Forall_map in H. apply Forall_impl with (2 := H). now intros r <-.
Qed.

Lemma meta_dia_rows df :
  Forall (fun r => Meta_Dia r = div_cells (Meta_Mes r) (DIAS r)) (meta_dia df).
Proof.
  unfold meta_dia. apply Forall_forall. intros r Hr.
  apply in_map_iff in Hr as [r0 [<- _]]. reflexivity.
Qed.

Lemma StronglySorted_map {A B : Type} (R : B -> B -> Prop) (f : A -> B) l :
  StronglySorted (fun a b => R (f a) (f b)) l -> StronglySorted R (map f l).
Proof.
  induction 1 as [|a l Hs IH Ha]; simpl; constructor; auto.
  rewrite Forall_map. exact Ha.
Qed.

Lemma sort_values_sorted df :
  StronglySorted (fun a b => key_leb a b = true) (map sort_key (sort_values df)).
Proof.
  apply StronglySorted_map.
  apply (sort_sorted (leb_of row_cmp) row_leb_total row_leb_trans).
Qed.

Lemma carregar_dados_sorted df :
  StronglySorted (fun a b => key_leb a b = true) (map sort_key (carregar_dados df)).
Proof.
  unfold carregar_dados. cbv zeta.
  rewrite meta_dia_other by reflexivity.
  unfold real_variacao. rewrite assign_other.
  - apply sort_values_sorted.
  - reflexivity.
  - rewrite transform_length, length_map. lia.
Qed.

(** ** The order of the rows of a group *)

Lemma in_group_chave k r : in_group k r = true <-> chave r = Some k.
Proof. apply (has_key_spec _ key_eqb_spec). Qed.

Lemma grupo_Forall k df : Forall (fun r => chave r = Some k) (grupo k df).
Proof.
  apply Forall_forall. intros r Hr. apply filter_In in Hr as [_ Hr].
  now apply in_group_chave.
Qed.

Lemma chave_Some r k :
  chave r = Some k -> Nome_Loja r = Some (fst k) /\ ano_mes r = Some (snd k).
Proof.
  unfold chave. destruct (Nome_Loja r), (ano_mes r); try discriminate.
  now intros [= <-].
Qed.

(** Inside a group the sort key orders the rows by date. *)
Lemma key_leb_in_group k a b :
  chave a = Some k -> chave b = Some k ->
  key_leb (sort_key a) (sort_key b) = leb_of (nulls_last date_cmp) (Data a) (Data b).
Proof.
  intros Ha Hb. apply chave_Some in Ha as [La Ma], Hb as [Lb Mb].
  unfold key_leb, leb_of, lex, sort_key. simpl. rewrite La, Lb, Ma, Mb. simpl.
  rewrite (cmp_refl _ total_order_string), (cmp_refl _ total_order_period).
  reflexivity.
Qed.

Lemma StronglySorted_impl_in {A : Type} (R R' : A -> A -> Prop) l :
  (forall a b, In a l -> In b l -> R a b -> R' a b) ->
  StronglySorted R l -> StronglySorted R' l.
Proof.
  intros H Hs. induction Hs as [|a l Hs IH Ha]; constructor.
  - apply IH. intros x y Hx Hy. apply H; now right.
  - rewrite Forall_forall in *. intros b Hb.
    apply H; [now left|now right|auto].
Qed.

Lemma StronglySorted_unmap {A B : Type} (R : B -> B -> Prop) (f : A -> B) l :
  StronglySorted R (map f l) -> StronglySorted (fun a b => R (f a) (f b)) l.
Proof.
  induction l as [|a l IH]; simpl; intros H; [constructor|].
  inversion H as [|? ? Hs Ha]; subst. constructor; auto.
  now rewrite Forall_map in Ha.
Qed.

Lemma StronglySorted_filter {A : Type} (R : A -> A -> Prop) p l :
  StronglySorted R l -> StronglySorted R (filter p l).
Proof.
  induction 1 as [|a l Hs IH Ha]; simpl; [constructor|].
  destruct (p a); auto. constructor; auto.
  rewrite Forall_forall in *. intros b Hb. apply Ha.
  now apply filter_In in Hb as [Hb _].
Qed.

(** The rows of a group of the normalised table are in date order. *)
Lemma grupo_carregar_dados_sorted k df :
  StronglySorted date_le (grupo k (carregar_dados df)).
Proof.
  pose proof (grupo_Forall k (carregar_dados df)) as Hk.
  rewrite Forall_forall in Hk.
  apply StronglySorted_impl_in
    with (R := fun a b => key_leb (sort_key a) (sort_key b) = true).
  - intros a b Ha Hb. unfold date_le.
    now rewrite (key_leb_in_group k a b (Hk _ Ha) (Hk _ Hb)).
  - apply StronglySorted_filter.
    apply (StronglySorted_unmap (fun a b => key_leb a b = true) sort_key).
    apply carregar_dados_sorted.
Qed.

(** A group that is in date order in the source file keeps its row order. *)
Lemma sort_values_grupo_id k g :
  Forall (fun r => chave r = Some k) g -> StronglySorted date_le g ->
  sort_values g = g.
Proof.
  intros Hk Hs. apply sort_sorted_id.
  rewrite Forall_forall in Hk.
  apply StronglySorted_impl_in with (2 := Hs).
  intros a b Ha Hb. unfold date_le.
  rewrite <- (key_leb_in_group k a b (Hk _ Ha) (Hk _ Hb)). auto.
Qed.

(** ** Differences *)

Lemma map2_sub_shift a x :
  map2 sub_cells (map Some x) (removelast (Some a :: map Some x))
  = map Some (diffs a x).
Proof.
  revert a. induction x as [|b x IH]; intros a; auto.
  cbn [map diffs]. rewrite <- IH. reflexivity.
Qed.

Lemma variacao_cons a x :
  variacao (a :: x) = Some a :: map Some (diffs a x).
Proof.
  unfold variacao. cbn [map shift1 map2]. now rewrite map2_sub_shift.
Qed.

Lemma diffs_nth prev x i a b :
  nth_error (prev :: x) i = Some a -> nth_error (prev :: x) (S i) = Some b ->
  nth_error (diffs prev x) i = Some (b - a)%Qc.
Proof.
  revert prev i. induction x as [|c x IH]; intros prev i Ha Hb.
  - destruct i; simpl in Hb; discriminate.
  - destruct i as [|i]; simpl in *.
    + congruence.
    + now apply IH.
Qed.

Lemma last_cons {A : Type} (a d : A) x : last (a :: x) d = last x a.
Proof.
  revert a d. induction x as [|b x IH]; intros a d; auto.
  change (last (a :: b :: x) d) with (last (b :: x) d).
  rewrite IH. symmetry. apply IH.
Qed.

(** ** Equality of numbers *)

Lemma Qc_this_inj (a b : Qc) : this a = this b -> a = b.
Proof. intros H. apply Qc_is_canon. now rewrite H. Qed.

Lemma Qc_list_inj (x y : list Qc) : map this x = map this y -> x = y.
Proof.
  revert y. induction x as [|a x IH]; intros [|b y]; simpl; try discriminate; auto.
  intros [= Hab Hxy]. f_equal; [now apply Qc_this_inj | now apply IH].
Qed.

Lemma Qc_cells_inj (x y : list (option Qc)) :
  map (option_map this) x = map (option_map this) y -> x = y.
Proof.
  revert y. induction x as [|a x IH]; intros [|b y]; simpl; try discriminate; auto.
  intros [= Hab Hxy]. f_equal; [|now apply IH].
  destruct a, b; simpl in Hab; try discriminate; auto.
  injection Hab as Hab. f_equal. now apply Qc_this_inj.
Qed.

(** ** Binary64 numbers *)

Local Open Scope Z_scope.

Lemma Qc_of_Z_this z : this (Qc_of_Z z) = inject_Z z.
Proof.
  change (this (Qc_of_Z z)) with (Qred (inject_Z z)).
  apply Qred_identity. simpl. apply Z.gcd_1_r.
Qed.

Lemma round_half_even_cases (q : Qc) :
  let n := Qnum q in
  let d := Zpos (Qden q) in
  let r := round_half_even q in
  (2 * Z.abs (r * d - n) <= d)%Z
  /\ ((2 * Z.abs (r * d - n))%Z = d -> Z.even r = true)
  /\ ((n < 0)%Z -> (r <= 0)%Z)
  /\ ((0 <= n)%Z -> (0 <= r)%Z).
Proof.
  intros n d r. unfold r, round_half_even. fold n. fold d.
  assert (Hd : (0 < d)%Z) by (unfold d; lia).
  pose proof (Z.div_mod n d ltac:(lia)) as Hdm.
  pose proof (Z.mod_pos_bound n d Hd) as Hm.
  assert (Hneg : (n < 0)%Z -> (n / d + 1 <= 0)%Z).
  { intros Hn. pose proof (Z.div_lt_upper_bound n d 0 Hd ltac:(lia)). lia. }
  assert (Hpos : (0 <= n)%Z -> (0 <= n / d)%Z).
  { intros Hn. apply Z.div_pos; lia. }
  destruct (Z.compare_spec (2 * (n mod d)) d) as [He|Hl|Hg].
  - destruct (Z.even (n / d)) eqn:Ev.
    + repeat split; try lia. now intros _.
    + repeat split; try lia. intros _.
      rewrite Z.add_1_r, Z.even_succ, <- Z.negb_even, Ev. reflexivity.
  - repeat split; try lia.
  - repeat split; try lia.
Qed.

Lemma Qc_of_Z_mult a b : Qc_of_Z (a * b) = (Qc_of_Z a * Qc_of_Z b)%Qc.
Proof.
  apply Qc_is_canon. unfold Qc_of_Z, Qcmult, Q2Qc, this.
  rewrite !Qred_correct. unfold Qeq, Qmult, inject_Z. simpl. lia.
Qed.

Lemma Qc_of_Z_inj a b : Qc_of_Z a = Qc_of_Z b -> a = b.
Proof.
  intros H. apply (f_equal this) in H. rewrite !Qc_of_Z_this in H.
  now injection H.
Qed.

Lemma Qc_of_Z_nonzero z : z <> 0 -> Qc_of_Z z <> Qc_of_Z 0.
Proof. intros Hz H. now apply Qc_of_Z_inj in H. Qed.

Lemma round_half_even_int z : round_half_even (Qc_of_Z z) = z.
Proof.
  unfold round_half_even. rewrite Qc_of_Z_this. simpl.
  rewrite Z.div_1_r, Z.mod_1_r. reflexivity.
Qed.

Lemma ilog2_int z : z <> 0 -> ilog2 (Qc_of_Z z) = Z.log2 (Z.abs z).
Proof.
  intros Hz. unfold ilog2. rewrite Qc_of_Z_this. cbn [inject_Z Qnum Qden].
  change (Z.log2 1) with 0. rewrite Z.sub_0_r.
  pose proof (Z.log2_nonneg (Z.abs z)) as Hk.
  pose proof (Z.log2_spec (Z.abs z) ltac:(lia)) as [Hlo _].
  rewrite Z.max_r by lia. rewrite Z.max_l by lia.
  rewrite Z.pow_0_r, Z.mul_1_r, Z.mul_1_l.
  now rewrite (proj2 (Z.leb_le _ _) Hlo).
Qed.

Lemma pow2_nonpos e : e <= 0 -> pow2 e = (/ Qc_of_Z (2 ^ (- e)))%Qc.
Proof.
  intros He. unfold pow2. destruct (Z.leb_spec 0 e); auto.
  assert (e = 0) by lia. subst e. apply Qc_is_canon. reflexivity.
Qed.

Lemma pow2_nonneg e : 0 <= e -> pow2 e = Qc_of_Z (2 ^ e).
Proof. intros He. unfold pow2. now rewrite (proj2 (Z.leb_le _ _) He). Qed.

Lemma Qc_of_Z_pow2_nonzero e : 0 <= e -> Qc_of_Z (2 ^ e) <> Qc_of_Z 0.
Proof.
  intros He. apply Qc_of_Z_nonzero.
  pose proof (Z.pow_pos_nonneg 2 e ltac:(lia) He). lia.
Qed.

(** A whole number below 2^53 in magnitude is a binary64 number. *)
Lemma binary64_int z : Z.abs z < 2 ^ 53 -> binary64 (Qc_of_Z z) = Fin (Qc_of_Z z).
Proof.
  intros Hz. unfold binary64.
  destruct (Qc_eqb_spec (Qc_of_Z z) (Qc_of_Z 0)) as [E|Hne].
  - now rewrite E.
  - assert (Hz0 : z <> 0) by (intros ->; now apply Hne).
    rewrite (ilog2_int z Hz0).
    pose proof (Z.log2_nonneg (Z.abs z)) as Hk.
    assert (Hk53 : Z.log2 (Z.abs z) < 53)
      by (apply Z.log2_lt_pow2; lia).
    set (k := Z.log2 (Z.abs z)) in *.
    rewrite Z.max_l by lia.
    set (e := k - 52).
    assert (He : e <= 0) by (unfold e; lia).
    pose proof (Qc_of_Z_pow2_nonzero (- e) ltac:(lia)) as Hp.
    assert (Hq : (Qc_of_Z z / pow2 e)%Qc = Qc_of_Z (z * 2 ^ (- e))).
    { rewrite pow2_nonpos, Qc_of_Z_mult by exact He.
      change (Qc_of_Z 0) with 0%Qc in Hp. field.
      split; [exact Hp | discriminate]. }
    rewrite Hq, round_half_even_int.
    assert (Ho : (0 <=? e) && (2 ^ 1024 <=? Z.abs (z * 2 ^ (- e)) * 2 ^ e) = false).
    { destruct (Z.leb_spec 0 e); [|reflexivity]. assert (e = 0) by lia.
      replace e with 0 by lia. cbn [andb Z.opp]. rewrite Z.pow_0_r, !Z.mul_1_r.
      apply Z.leb_gt. apply Z.lt_trans with (1 := Hz). reflexivity. }
    rewrite Ho. f_equal.
    rewrite pow2_nonpos, Qc_of_Z_mult by exact He.
    change (Qc_of_Z 0) with 0%Qc in Hp. field. exact Hp.
Qed.

(** A whole number of 2^1024 or more in magnitude is beyond the largest
    binary64 number. *)
Lemma binary64_int_overflow z :
  2 ^ 1024 <= Z.abs z -> binary64 (Qc_of_Z z) = Inf (z <? 0).
Proof.
  intros Hz.
  assert (Hpos : 0 < 2 ^ 1024) by (apply Z.pow_pos_nonneg; lia).
  assert (Hz0 : z <> 0) by lia.
  unfold binary64.
  destruct (Qc_eqb_spec (Qc_of_Z z) (Qc_of_Z 0)) as [E|Hne];
    [now apply Qc_of_Z_inj in E|].
  rewrite (ilog2_int z Hz0).
  assert (Hk : 1024 <= Z.log2 (Z.abs z)) by (apply Z.log2_le_pow2; lia).
  pose proof (Z.log2_spec (Z.abs z) ltac:(lia)) as [Hlo _].
  set (k := Z.log2 (Z.abs z)) in *.
  rewrite Z.max_l by lia.
  set (e := k - 52).
  assert (He : 0 <= e) by (unfold e; lia).
  rewrite (proj2 (Z.leb_le _ _) He). cbn [andb].
  rewrite Qc_of_Z_this. cbn [inject_Z Qnum].
  set (q := (Qc_of_Z z / pow2 e)%Qc).
  assert (Hp : 0 < 2 ^ e) by (apply Z.pow_pos_nonneg; lia).
  assert (Hq : (Qnum q * 2 ^ e = z * Zpos (Qden q))%Z).
  { assert (E : (q * Qc_of_Z (2 ^ e))%Qc = Qc_of_Z z).
    { unfold q. rewrite pow2_nonneg by exact He.
      pose proof (Qc_of_Z_pow2_nonzero e He) as Hn.
      change (Qc_of_Z 0) with 0%Qc in Hn. field. exact Hn. }
    apply (f_equal this) in E. rewrite Qc_of_Z_this in E.
    assert (E' : (this q * inject_Z (2 ^ e) == inject_Z z)%Q).
    { rewrite <- E. unfold Qcmult, Q2Qc, this at 2. rewrite Qred_correct.
      now rewrite Qc_of_Z_this. }
    unfold Qeq, Qmult, inject_Z in E'. cbn [Qnum Qden] in E'.
    rewrite Pos.mul_1_r, !Z.mul_1_r in E'. exact E'. }
  destruct (round_half_even_cases q) as (Hr & _ & _ & _). cbv zeta in Hr.
  set (r := round_half_even q) in *.
  set (n := Qnum q) in *. set (d := Zpos (Qden q)) in *.
  assert (Hd : 0 < d) by (unfold d; lia).
  assert (Hk2 : 2 ^ k = 2 ^ 52 * 2 ^ e).
  { unfold e. rewrite <- Z.pow_add_r by lia. f_equal. lia. }
  assert (H52 : 2 ^ 52 <= Z.abs r).
  { assert (Hn : 2 ^ 52 * d <= Z.abs n).
    { assert (Z.abs n * 2 ^ e = Z.abs z * d)
        by (rewrite <- (Z.abs_eq (2 ^ e)), <- Z.abs_mul, Hq, Z.abs_mul by lia;
            f_equal; lia).
      nia. }
    assert (H2 : 0 < 2 ^ 52) by reflexivity.
    destruct (Z.abs_spec n) as [[? En]|[? En]], (Z.abs_spec r) as [[? Er]|[? Er]];
      rewrite En in Hn; rewrite Er; nia. }
  assert (Ho : 2 ^ 1024 <= Z.abs r * 2 ^ e).
  { apply Z.le_trans with (2 ^ k).
    - apply Z.pow_le_mono_r; lia.
    - rewrite Hk2. apply Z.mul_le_mono_nonneg_r; lia. }
  now rewrite (proj2 (Z.leb_le _ _) Ho).
Qed.

Lemma Qc_of_Z_minus a b : Qc_of_Z (a - b) = (Qc_of_Z a - Qc_of_Z b)%Qc.
Proof.
  apply Qc_is_canon. unfold Qc_of_Z, Qcminus, Qcplus, Qcopp, Q2Qc, this.
  rewrite !Qred_correct. unfold Qeq, Qplus, Qopp, inject_Z. simpl. lia.
Qed.

Lemma whole_is_binary64 q : whole_below 53 q -> is_binary64 q.
Proof. intros [z [-> Hz]]. now apply binary64_int. Qed.

Lemma whole_diffs a l :
  whole_below 52 a -> Forall (whole_below 52) l ->
  Forall is_binary64 (diffs a l).
Proof.
  intros Ha Hl. revert a Ha. induction Hl as [|b l Hb Hl IH]; intros a Ha.
  - constructor.
  - cbn [diffs]. constructor; [|now apply IH].
    destruct Ha as [za [-> Hza]], Hb as [zb [-> Hzb]].
    apply whole_is_binary64. exists (zb - za). split.
    + now rewrite Qc_of_Z_minus.
    + change (2 ^ 53) with (2 ^ 52 + 2 ^ 52). lia.
Qed.

Local Open Scope Z_scope.
Local Open Scope Qc_scope.
Local Open Scope nat_scope.

(** *** Columns on which no operation rounds *)

Lemma map2_sub64_shift a l :
  Forall is_binary64 (diffs a l) ->
  map2 sub64 (map Fin l) (removelast (Fin a :: map Fin l)) = map Fin (diffs a l).
Proof.
  revert a. induction l as [|b l IH]; intros a H; auto.
  cbn [diffs] in H. inversion H as [|? ? Hb Hl]; subst.
  cbn [map diffs]. rewrite <- (IH b Hl).
  change (removelast (Fin a :: Fin b :: map Fin l))
    with (Fin a :: removelast (Fin b :: map Fin l)).
  cbn [map2 sub64]. now rewrite Hb.
Qed.

(** Where no subtraction rounds, [variacao] gives on binary64 the cells
    that it gives in exact arithmetic. *)
Lemma variacao64_exact (x : list Qc) :
  Forall is_binary64 (diffs (hd 0%Qc x) (tl x)) ->
  variacao64 (map Fin x) = map cell64 (variacao x).
Proof.
  destruct x as [|a l]; auto. cbn [hd tl]. intros H.
  rewrite variacao_cons. unfold variacao64.
  cbn [map shift64 map2 cell64].
  rewrite (map2_sub64_shift a l H), map_map. reflexivity.
Qed.

Lemma np_cumsum_from_diffs acc l :
  Forall is_binary64 l ->
  np_cumsum_from (Fin acc) (map Fin (diffs acc l)) = map Fin l.
Proof.
  intros H. revert acc. induction H as [|a l Ha Hl IH]; intros acc; auto.
  cbn [diffs map np_cumsum_from add64].
  replace (acc + (a - acc))%Qc with a by ring.
  rewrite Ha. now rewrite IH.
Qed.

Lemma np_cumsum_length x : List.length (np_cumsum x) = List.length x.
Proof.
  destruct x as [|v x]; auto. cbn [np_cumsum List.length]. f_equal.
  revert v. induction x as [|w x IH]; intros v; simpl; auto.
Qed.

Lemma filter_Fin (y : list Qc) :
  filter (fun v => negb (isnan v)) (map Fin y) = map Fin y.
Proof. induction y as [|a y IH]; simpl; congruence. Qed.

Lemma cumsum64_Fin (y : list Qc) : cumsum64 (map Fin y) = np_cumsum (map Fin y).
Proof.
  unfold cumsum64. rewrite map_map. cbn [isnan].
  change (map (fun x : Qc => Fin x) y) with (map Fin y).
  pose proof (np_cumsum_length (map Fin y)) as L. rewrite length_map in L.
  generalize dependent (np_cumsum (map Fin y)). clear.
  induction y as [|a y IH]; intros [|c z] L; simpl in L; try discriminate; auto.
  cbn [map map2 isnan]. f_equal. apply IH. now injection L.
Qed.

Lemma sum64_Fin (y : list Qc) : sum64 (map Fin y) = last (np_cumsum (map Fin y)) (Fin 0%Qc).
Proof. unfold sum64. now rewrite filter_Fin. Qed.

Lemma last_map_Fin (y : list Qc) d : last (map Fin y) (Fin d) = Fin (last y d).
Proof. induction y as [|a [|b y] IH]; auto. Qed.

Lemma sum64_variacao64 x :
  Forall is_binary64 x ->
  Forall is_binary64 (diffs (hd 0%Qc x) (tl x)) ->
  sum64 (variacao64 (map Fin x)) = Fin (last x 0%Qc).
Proof.
  intros Hx Hd. rewrite (variacao64_exact x Hd).
  destruct x as [|a l]; auto.
  rewrite variacao_cons. cbn [map cell64]. rewrite map_map. cbn [cell64 hd tl] in *.
  change (Fin a :: map (fun q => Fin q) (diffs a l)) with (map Fin (a :: diffs a l)).
  rewrite sum64_Fin. cbn [map np_cumsum].
  inversion Hx; subst. rewrite np_cumsum_from_diffs by assumption.
  change (Fin a :: map Fin l) with (map Fin (a :: l)). apply last_map_Fin.
Qed.

Lemma np_cumsum_from_exact acc x :
  Forall is_binary64 (cumsum_from acc x) ->
  np_cumsum_from (Fin acc) (map Fin x) = map Fin (cumsum_from acc x).
Proof.
  revert acc. induction x as [|v x IH]; intros acc H; auto.
  cbn [cumsum_from] in H. inversion H as [|? ? Hv Hx]; subst.
  cbn [map np_cumsum_from cumsum_from add64]. rewrite Hv. now rewrite IH.
Qed.

Lemma np_cumsum_exact x :
  Forall is_binary64 (cumsum x) -> np_cumsum (map Fin x) = map Fin (cumsum x).
Proof.
  unfold cumsum. destruct x as [|v x]; auto.
  cbn [cumsum_from map np_cumsum]. replace (0 + v)%Qc with v by ring.
  intros H. inversion H; subst. now rewrite np_cumsum_from_exact.
Qed.

Lemma map2_sub64_exact a b :
  Forall is_binary64 (map2 Qcminus a b) ->
  map2 sub64 (map Fin a) (map Fin b) = map Fin (map2 Qcminus a b).
Proof.
  revert b. induction a as [|u a IH]; intros [|w b] H; auto.
  cbn [map2] in H. inversion H as [|? ? Hu Ha]; subst.
  cbn [map map2 sub64]. rewrite Hu. now rewrite IH.
Qed.

(** ** Delta Deriver *)

Lemma grupo_variacao k df :
  map Real_Variacao (grupo k (carregar_dados df))
  = variacao (map Real (grupo k (carregar_dados df))).
Proof. rewrite carregar_dados_grupo. apply normalizar_grupo_variacao. Qed.

Lemma grupo_ledger k df :
  Permutation (map ledger (grupo k (carregar_dados df))) (map ledger (grupo k df)).
Proof.
  rewrite carregar_dados_grupo, normalizar_grupo_other by reflexivity.
  rewrite <- (grupo_com_meta_other ledger (grupo k df)) by reflexivity.
  apply Permutation_map, sort_perm.
Qed.

Lemma grupo_length k df :
  List.length (grupo k (carregar_dados df)) = List.length (grupo k df).
Proof. rewrite carregar_dados_grupo. apply normalizar_grupo_length. Qed.

(** C3.  In every (shop, month) group of the normalised table the rows are
    in ascending date order and are the rows of the group in the source
    file, one for one; [Real_Variacao] of the first row is its [Real], and
    [Real_Variacao] of every later row is its [Real] minus the [Real] of the
    row just before it.  Readings [100, 250, 250] give [100, 150, 0]; a
    falling reading gives a negative value. *)
Theorem delta_deriver :
  (forall df k,
      let g := grupo k (carregar_dados df) in
      StronglySorted date_le g
      /\ Permutation (map ledger g) (map ledger (grupo k df))
      /\ List.length (map Real_Variacao g) = List.length (grupo k df)
      /\ (forall first rest,
             g = first :: rest -> Real_Variacao first = Some (Real first))
      /\ (forall i prev cur,
             nth_error g i = Some prev -> nth_error g (S i) = Some cur ->
             Real_Variacao cur = Some (Real cur - Real prev)%Qc))
  /\ map Real_Variacao (carregar_dados Exemplos.uma_loja)
     = [Some (Qc_of_Z 100); Some (Qc_of_Z 150); Some (Qc_of_Z 0)]
  /\ map Real_Variacao (carregar_dados Exemplos.estorno)
     = [Some (Qc_of_Z 300); Some (Qc_of_Z (-200))].
Proof.
  split; [|split; apply Qc_cells_inj; vm_compute; reflexivity].
  intros df k g.
  pose proof (grupo_variacao k df) as Hv. fold g in Hv.
  split; [apply grupo_carregar_dados_sorted|].
  split; [apply grupo_ledger|].
  split; [rewrite length_map; apply grupo_length|].
  split.
  - intros first rest Hg. rewrite Hg in Hv. simpl in Hv.
    rewrite variacao_cons in Hv. now injection Hv.
  - intros i prev cur Hp Hc.
    destruct g as [|r0 g']; [destruct i; discriminate|].
    simpl in Hv. rewrite variacao_cons in Hv. injection Hv as _ Hv.
    simpl in Hc.
    assert (Hn : nth_error (map Real_Variacao g') i = Some (Real_Variacao cur))
      by now apply map_nth_error.
    rewrite Hv in Hn. rewrite nth_error_map in Hn.
    rewrite (diffs_nth (Real r0) (map Real g') i (Real prev) (Real cur)) in Hn.
    + simpl in Hn. now injection Hn.
    + change (Real r0 :: map Real g') with (map Real (r0 :: g')).
      now apply map_nth_error.
    + simpl. now apply map_nth_error.
Qed.

Lemma delta_deriver_witness :
  let g := grupo (Exemplos.janeiro "A") (carregar_dados Exemplos.uma_loja) in
  (forall first rest, g = first :: rest -> Real_Variacao first = Some (Real first))
  /\ map (option_map this) (map Real_Variacao g) = [Some 100%Q; Some 150%Q; Some 0%Q].
Proof.
  split.
  - apply (proj1 delta_deriver Exemplos.uma_loja (Exemplos.janeiro "A")).
  - vm_compute. reflexivity.
Defined.

(** ** Telescoping sum *)

(** C4, as the code has it.  The last row of a (shop, month) group of the
    normalised table is a row with the latest date of the group.  Where the
    readings [Real] of the group are binary64 numbers and so is every
    difference of two consecutive readings (no subtraction rounds), the
    cells that [variacao] gives on binary64 are those of [Real_Variacao],
    and added up in row order they give the [Real] of the last row.
    Readings that are whole numbers below 2^52 in magnitude are of that
    kind. *)
Theorem variacao_telescopes :
  (forall df k,
      grupo k df <> [] ->
      exists g r,
        grupo k (carregar_dados df) = g ++ [r]
        /\ Forall (fun y => date_le y r) g
        /\ (let x := map Real (g ++ [r]) in
            Forall is_binary64 x ->
            Forall is_binary64 (diffs (hd 0%Qc x) (tl x)) ->
            variacao64 (map Fin x) = map cell64 (map Real_Variacao (g ++ [r]))
            /\ sum64 (variacao64 (map Fin x)) = Fin (Real r)))
  /\ (forall x : list Qc,
         Forall (whole_below 52) x ->
         Forall is_binary64 x
         /\ Forall is_binary64 (diffs (hd 0%Qc x) (tl x))).
Proof.
  split.
  - intros df k Hne.
    assert (Hne' : grupo k (carregar_dados df) <> []).
    { intros E. apply (f_equal (@List.length Row)) in E.
      rewrite grupo_length in E. destruct (grupo k df); [contradiction|discriminate]. }
    destruct (exists_last Hne') as [g [r Hg]]. exists g, r.
    split; [exact Hg|]. split.
    + pose proof (grupo_carregar_dados_sorted k df) as Hs. rewrite Hg in Hs.
      clear Hg Hne'. induction g as [|a g IH]; simpl in *; [constructor|].
      inversion Hs as [|? ? Hs' Ha]; subst. constructor.
      * rewrite Forall_forall in Ha. apply Ha. apply in_or_app. right. now left.
      * now apply IH.
    + intros x Hx Hd. split.
      * rewrite (variacao64_exact x Hd). unfold x.
        now rewrite <- Hg, grupo_variacao.
      * rewrite (sum64_variacao64 x Hx Hd). unfold x.
        rewrite map_app. cbn [map]. now rewrite last_last.
  - intros x Hx. split.
    + apply Forall_impl with (2 := Hx). intros q [z [-> Hz]].
      apply binary64_int. apply Z.lt_trans with (1 := Hz). reflexivity.
    + destruct x as [|a l]; [constructor|]. cbn [hd tl].
      inversion Hx; subst. now apply whole_diffs.
Qed.

Lemma variacao_telescopes_witness :
  grupo (Exemplos.janeiro "A") Exemplos.uma_loja <> []
  /\ exists g r,
      grupo (Exemplos.janeiro "A") (carregar_dados Exemplos.uma_loja) = g ++ [r]
      /\ sum64 (variacao64 (map Fin (map Real (g ++ [r])))) = Fin (Real r).
Proof.
  assert (H : grupo (Exemplos.janeiro "A") Exemplos.uma_loja <> [])
    by discriminate.
  split; [exact H|].
  destruct (proj1 variacao_telescopes Exemplos.uma_loja (Exemplos.janeiro "A") H)
    as (g & r & Hg & _ & Hx).
  exists g, r. split; [exact Hg|].
  assert (W : Forall (whole_below 52) (map Real (g ++ [r]))).
  { rewrite <- Hg.
    repeat constructor;
      [exists 100%Z | exists 250%Z | exists 250%Z];
      (split; [apply Qc_this_inj; reflexivity | reflexivity]). }
  destruct (proj2 variacao_telescopes _ W) as [W1 W2].
  exact (proj2 (Hx W1 W2)).
Defined.

(** The claim as the specification words it fails on binary64: for the
    readings 0.2 and 0.9 of one shop the differences are 0.2 and 0.7, and
    these add up to 0.8999999999999999, the binary64 number just below 0.9.
    And of the readings 1, NaN, 3 only the first has a difference that is no
    NaN. *)
Lemma variacao_sum_not_last :
  let x := map Fin (map Real (grupo (Exemplos.janeiro "A")
                                    (carregar_dados Exemplos.leituras_decimais))) in
  x = [f0_2; f0_9]
  /\ variacao64 x = [f0_2; binary64 (Q2Qc (7 # 10))]
  /\ sum64 (variacao64 x) = Fin (Q2Qc (8106479329266892 # 9007199254740992))
  /\ f0_9 = Fin (Q2Qc (8106479329266893 # 9007199254740992))
  /\ sum64 (variacao64 x) <> last x NaN
  /\ sum64 (variacao64 [Fin (Qc_of_Z 1); NaN; Fin (Qc_of_Z 3)]) = Fin (Qc_of_Z 1).
Proof.
  assert (float_inj : forall a b : Qc, this a = this b -> Fin a = Fin b)
    by (intros a b H; f_equal; now apply Qc_this_inj).
  assert (E : map Fin (map Real (grupo (Exemplos.janeiro "A")
                                       (carregar_dados Exemplos.leituras_decimais)))
              = [f0_2; f0_9]).
  { vm_compute. repeat f_equal; apply Qc_this_inj; reflexivity. }
  cbv zeta. rewrite E.
  assert (S : sum64 (variacao64 [f0_2; f0_9])
              = Fin (Q2Qc (8106479329266892 # 9007199254740992))).
  { vm_compute. apply float_inj. reflexivity. }
  split; [reflexivity|]. split.
  - vm_compute. repeat f_equal; apply Qc_this_inj; reflexivity.
  - split; [exact S|]. split.
    + vm_compute. apply float_inj. reflexivity.
    + split.
      * rewrite S. intros H. apply (f_equal (fun f => match f with
                                                      | Fin q => Qnum q
                                                      | _ => 0%Z
                                                      end)) in H.
        vm_compute in H. discriminate H.
      * vm_compute. apply float_inj. reflexivity.
Qed.

(** ** Target Backfiller *)

Lemma first_nonzero_zeros zs rest :
  Forall (eq 0%Qc) zs -> first_nonzero (zs ++ rest) = first_nonzero rest.
Proof.
  induction 1 as [|z zs <- _ IH]; simpl; auto.
Qed.

Lemma first_nonzero_cons v rest : v <> 0%Qc -> first_nonzero (v :: rest) = v.
Proof.
  intros Hv. simpl. destruct (Qc_eqb_spec v 0); [contradiction|reflexivity].
Qed.

Lemma backfill_nth pre t post :
  nth_error (backfill (pre ++ t :: post)) (List.length pre)
  = Some (if Qc_eqb t 0 then first_nonzero post else t).
Proof. induction pre as [|a pre IH]; simpl; auto. Qed.

Lemma grupo_targets k df :
  Permutation (map (fun r => (ledger r, Meta_Mes r)) (grupo k (carregar_dados df)))
              (combine (map ledger (grupo k df))
                       (backfill (map Meta_Mes (grupo k df)))).
Proof. rewrite carregar_dados_grupo. apply normalizar_grupo_targets. Qed.

Lemma grupo_targets_sorted k df :
  StronglySorted date_le (grupo k df) ->
  map (fun r => (ledger r, Meta_Mes r)) (grupo k (carregar_dados df))
  = combine (map ledger (grupo k df)) (backfill (map Meta_Mes (grupo k df))).
Proof.
  intros Hs. rewrite carregar_dados_grupo, normalizar_grupo_other by reflexivity.
  rewrite (sort_values_grupo_id k).
  - apply grupo_com_meta_targets.
  - rewrite <- Forall_map with (f := chave) (P := fun o => o = Some k).
    rewrite grupo_com_meta_other by reflexivity.
    rewrite Forall_map. apply grupo_Forall.
  - apply (StronglySorted_unmap
             (fun a b => leb_of (nulls_last date_cmp) a b = true) Data).
    rewrite grupo_com_meta_other by reflexivity.
    apply StronglySorted_map. exact Hs.
Qed.

(** C2, as the code has it.  The back-fill runs before the table is
    sorted, so it follows the row order of the source file: in every (shop,
    month) group a target equal to 0 is missing, a row with a missing target
    takes the first non-zero target of the later rows of its group, and 0
    when there is none.  The order of the file is the date order when the
    rows of the group are in ascending date order in the file.  Targets
    [0, 0, 500] become [500, 500, 500]. *)
Theorem target_backfiller :
  (forall df k,
      let g := grupo k df in
      let filled := combine (map ledger g) (backfill (map Meta_Mes g)) in
      Permutation
        (map (fun r => (ledger r, Meta_Mes r)) (grupo k (carregar_dados df)))
        filled
      /\ (StronglySorted date_le g ->
          map (fun r => (ledger r, Meta_Mes r)) (grupo k (carregar_dados df))
          = filled))
  /\ (forall pre t post,
         nth_error (backfill (pre ++ t :: post)) (List.length pre)
         = Some (if Qc_eqb t 0 then first_nonzero post else t))
  /\ (forall zs v rest,
         Forall (eq 0%Qc) zs -> v <> 0%Qc -> first_nonzero (zs ++ v :: rest) = v)
  /\ (forall zs, Forall (eq 0%Qc) zs -> first_nonzero zs = 0%Qc)
  /\ map Meta_Mes (carregar_dados Exemplos.uma_loja)
     = [Qc_of_Z 500; Qc_of_Z 500; Qc_of_Z 500].
Proof.
  split; [|split; [|split; [|split]]].
  - intros df k g filled. split.
    + apply grupo_targets.
    + apply grupo_targets_sorted.
  - apply backfill_nth.
  - intros zs v rest Hz Hv. rewrite first_nonzero_zeros by exact Hz.
    now apply first_nonzero_cons.
  - intros zs Hz. rewrite <- (app_nil_r zs). now rewrite first_nonzero_zeros.
  - apply Qc_list_inj. vm_compute. reflexivity.
Qed.

Lemma target_backfiller_witness :
  let g := grupo (Exemplos.janeiro "A") Exemplos.uma_loja in
  StronglySorted date_le g
  /\ map (fun r => (ledger r, Meta_Mes r))
         (grupo (Exemplos.janeiro "A") (carregar_dados Exemplos.uma_loja))
     = combine (map ledger g) (backfill (map Meta_Mes g))
  /\ first_nonzero ([0%Qc; 0%Qc] ++ Qc_of_Z 500 :: []) = Qc_of_Z 500.
Proof.
  assert (Hs : StronglySorted date_le (grupo (Exemplos.janeiro "A") Exemplos.uma_loja)).
  { repeat constructor. }
  split; [exact Hs|]. split.
  - exact (proj2 (proj1 target_backfiller Exemplos.uma_loja
                    (Exemplos.janeiro "A")) Hs).
  - apply (proj1 (proj2 (proj2 target_backfiller))).
    + repeat constructor.
    + intros H. apply (f_equal this) in H. vm_compute in H. discriminate.
Defined.

(** The claim as the specification words it, with the back-fill along the
    dates: it fails on a file that lists a later day first.  The target of
    day 1 is copied to day 2, which has no later target. *)
Lemma target_backfiller_date_order_fails :
  ~ (forall df k,
        map Meta_Mes (grupo k (carregar_dados df))
        = backfill (map Meta_Mes (sort_values (grupo k df)))).
Proof.
  intros H.
  specialize (H Exemplos.fora_de_ordem (Exemplos.janeiro "A")).
  apply (f_equal (map this)) in H. vm_compute in H. discriminate.
Qed.

(** ** Constancy of the target *)

Lemma first_nonzero_last v l :
  Forall (fun t => t = 0%Qc \/ t = v) l -> last l 0%Qc = v -> first_nonzero l = v.
Proof.
  induction 1 as [|t l Ht _ IH]; intros Hl; auto.
  rewrite last_cons in Hl. cbn [first_nonzero].
  destruct (Qc_eqb_spec t 0) as [->|Hne].
  - now apply IH.
  - destruct Ht; [contradiction|assumption].
Qed.

Lemma backfill_constant v l :
  Forall (fun t => t = 0%Qc \/ t = v) l -> last l 0%Qc = v ->
  Forall (eq v) (backfill l).
Proof.
  induction 1 as [|t l Ht Hl IH]; intros Hlast; [constructor|].
  cbn [backfill]. constructor.
  - symmetry. apply first_nonzero_last; [now constructor|exact Hlast].
  - destruct l as [|u l]; [constructor|]. apply IH. exact Hlast.
Qed.

Lemma grupo_Meta_Mes k df :
  Permutation (map Meta_Mes (grupo k (carregar_dados df)))
              (backfill (map Meta_Mes (grupo k df))).
Proof.
  pose proof (Permutation_map snd (grupo_targets k df)) as H.
  rewrite map_map in H. simpl in H.
  rewrite H. clear H.
  assert (E : forall (A B : Type) (x : list A) (y : list B),
             List.length y <= List.length x -> map snd (combine x y) = y).
  { intros A B x. induction x as [|a x IH]; intros [|b y] Hl; simpl in *; auto;
      try lia. f_equal. apply IH. lia. }
  rewrite E; [reflexivity|]. rewrite backfill_length, !length_map. lia.
Qed.

Lemma first_nonzero_single t : first_nonzero [t] = t.
Proof. simpl. now destruct (Qc_eqb_spec t 0). Qed.

Lemma backfill_constant_inv v l :
  l <> [] -> Forall (eq v) (backfill l) ->
  Forall (fun t => t = 0%Qc \/ t = v) l /\ last l 0%Qc = v.
Proof.
  induction l as [|t l IH]; intros Hne H; [contradiction|].
  cbn [backfill] in H. apply Forall_cons_iff in H as [Hhd Htl].
  destruct l as [|u l].
  - rewrite first_nonzero_single in Hhd. subst v. split; [|reflexivity].
    constructor; [now right|constructor].
  - destruct (IH ltac:(discriminate) Htl) as [Hall Hlast].
    split; [|exact Hlast]. constructor; [|exact Hall].
    cbn [first_nonzero] in Hhd.
    destruct (Qc_eqb_spec t 0); [now left|now right].
Qed.

(** C1, as the code has it.  After the back-fill every row carries the
    first non-zero target found from that row on in its group, in the row
    order of the source file.  So the target is constant in a (shop, month)
    group exactly when every target of the group is zero or one value [v]
    and the last row of the group in the file carries [v]: every row then
    carries [v], the first non-zero target of the group.  With [v = 0]: a
    group without a non-zero target resolves to zero on every row. *)
Theorem meta_mes_constant :
  forall df k,
    let targets := map Meta_Mes (grupo k df) in
    let rows := grupo k (carregar_dados df) in
    (forall v,
        Forall (fun t => t = 0%Qc \/ t = v) targets ->
        last targets 0%Qc = v ->
        Forall (fun r => Meta_Mes r = v) rows /\ first_nonzero targets = v)
    /\ (forall v,
           rows <> [] ->
           Forall (fun r => Meta_Mes r = v) rows ->
           Forall (fun t => t = 0%Qc \/ t = v) targets /\ last targets 0%Qc = v).
Proof.
  intros df k targets rows. split.
  - intros v Ht Hl. split.
    + pose proof (backfill_constant v targets Ht Hl) as H.
      apply (Permutation_Forall (Permutation_sym (grupo_Meta_Mes k df))) in H.
      rewrite Forall_map in H. apply Forall_impl with (2 := H). now intros r <-.
    + now apply first_nonzero_last.
  - intros v Hne H. apply backfill_constant_inv.
    + intros E. apply Hne. apply (f_equal (@List.length Qc)) in E.
      unfold targets in E. rewrite length_map, <- grupo_length in E.
      fold rows in E. destruct rows; [reflexivity|discriminate].
    + apply (Permutation_Forall (grupo_Meta_Mes k df)).
      rewrite Forall_map. apply Forall_impl with (2 := H). now intros r <-.
Qed.

Lemma meta_mes_constant_witness :
  let rows := grupo (Exemplos.janeiro "A") (carregar_dados Exemplos.uma_loja) in
  let targets := map Meta_Mes (grupo (Exemplos.janeiro "A") Exemplos.uma_loja) in
  Forall (fun r => Meta_Mes r = Qc_of_Z 500) rows
  /\ rows <> []
  /\ last targets 0%Qc = Qc_of_Z 500.
Proof.
  pose proof (meta_mes_constant Exemplos.uma_loja (Exemplos.janeiro "A")) as [H1 H2].
  assert (Hrows : Forall (fun r => Meta_Mes r = Qc_of_Z 500)
                         (grupo (Exemplos.janeiro "A") (carregar_dados Exemplos.uma_loja))).
  { apply (H1 (Qc_of_Z 500)).
    - repeat constructor; left; apply Qc_this_inj; reflexivity.
    - apply Qc_this_inj. reflexivity. }
  assert (Hne : grupo (Exemplos.janeiro "A") (carregar_dados Exemplos.uma_loja) <> [])
    by discriminate.
  split; [exact Hrows|]. split; [exact Hne|].
  exact (proj2 (H2 (Qc_of_Z 500) Hne Hrows)).
Defined.

(** The claim as the specification words it: it fails when the target
    stands on the first day only.  The first row keeps 500 and the second
    has nothing after it to take. *)
Lemma meta_mes_not_constant :
  ~ (forall df k r1 r2,
        In r1 (grupo k (carregar_dados df)) ->
        In r2 (grupo k (carregar_dados df)) ->
        Meta_Mes r1 = Meta_Mes r2).
Proof.
  intros H.
  set (g := grupo (Exemplos.janeiro "A") (carregar_dados Exemplos.meta_no_inicio)).
  assert (H1 : In (nth 0 g (Exemplos.linha "A" 0 0 0)) g) by (left; reflexivity).
  assert (H2 : In (nth 1 g (Exemplos.linha "A" 0 0 0)) g)
    by (right; left; reflexivity).
  specialize (H _ _ _ _ H1 H2).
  apply (f_equal this) in H. vm_compute in H. discriminate.
Qed.

(** ** Calendar Reconciler *)

Lemma filter_all {A : Type} (p : A -> bool) l :
  (forall a, In a l -> p a = true) -> filter p l = l.
Proof.
  induction l as [|a l IH]; simpl; intros H; auto.
  rewrite (H a) by now left. f_equal. apply IH. intros; apply H; now right.
Qed.

Lemma group_keys_length {K : Type} (eqb : K -> K -> bool) keys :
  List.length (group_keys eqb keys) <= List.length keys.
Proof.
  induction keys as [|[k|] keys IH]; simpl; auto; try lia.
  pose proof (filter_length_le (fun k' => negb (eqb k k')) (group_keys eqb keys)).
  lia.
Qed.

Lemma group_keys_NoDup_length {K : Type} (eqb : K -> K -> bool) keys :
  (forall a b, reflect (a = b) (eqb a b)) ->
  NoDup keys -> Forall (fun o => o <> None) keys ->
  List.length (group_keys eqb keys) = List.length keys.
Proof.
  intros Hspec Hnd Hs. induction Hnd as [|o keys Hnotin Hnd IH]; auto.
  inversion Hs as [|? ? Ho Hs']; subst.
  destruct o as [k|]; [|contradiction]. simpl.
  rewrite filter_all; [now rewrite IH|].
  intros k' Hk'. apply (group_keys_in _ Hspec) in Hk'.
  destruct (Hspec k k') as [->|]; [contradiction|reflexivity].
Qed.

Lemma filter_length_all {A : Type} (p : A -> bool) l :
  List.length (filter p l) = List.length l -> forall a, In a l -> p a = true.
Proof.
  induction l as [|b l IH]; simpl; intros L a Ha; [contradiction|].
  pose proof (filter_length_le p l) as Hle.
  destruct (p b) eqn:Eb; simpl in L; [|lia].
  destruct Ha as [<-|Ha]; [exact Eb | apply IH; [lia | exact Ha]].
Qed.

(** As many groups as rows: no key stands twice. *)
Lemma group_keys_length_NoDup {K : Type} (eqb : K -> K -> bool) keys :
  (forall a b, reflect (a = b) (eqb a b)) ->
  List.length (group_keys eqb keys) = List.length keys -> NoDup keys.
Proof.
  intros Hspec. induction keys as [|[k|] keys IH]; simpl; intros L.
  - constructor.
  - pose proof (group_keys_length eqb keys) as H1.
    pose proof (filter_length_le (fun k' => negb (eqb k k')) (group_keys eqb keys)) as H2.
    constructor.
    + intros Hin. apply (group_keys_in _ Hspec) in Hin.
      assert (Hall := filter_length_all (fun k' => negb (eqb k k'))
                        (group_keys eqb keys) ltac:(lia) k Hin).
      simpl in Hall. destruct (Hspec k k); [discriminate|contradiction].
    + apply IH. lia.
  - pose proof (group_keys_length eqb keys). lia.
Qed.

Lemma grupo_DIAS k df :
  Forall (fun r => DIAS r = Some (List.length (grupo k df)))
         (grupo k (carregar_dados df)).
Proof. rewrite carregar_dados_grupo. apply normalizar_grupo_DIAS. Qed.

Lemma chave_Data r k : chave r = Some k -> Data r <> None.
Proof.
  intros H. apply chave_Some in H as [_ H]. unfold ano_mes in H.
  destruct (Data r); [discriminate|discriminate].
Qed.

(** C6, as the code has it.  [DIAS] is the number of rows of the (shop,
    month) group in the source file, joined back on every row of the group.
    That number is never below the number of distinct days of the group; it
    equals it when no two rows of the group have the same date, and is
    larger when two rows of the group have the same date. *)
Theorem dias_is_group_size :
  forall df k,
    let g := grupo k df in
    Forall (fun r => DIAS r = Some (List.length g)) (grupo k (carregar_dados df))
    /\ List.length (grupo k (carregar_dados df)) = List.length g
    /\ dias_distintos g <= List.length g
    /\ (NoDup (map Data g) -> dias_distintos g = List.length g)
    /\ (~ NoDup (map Data g) -> dias_distintos g < List.length g).
Proof.
  intros df k g. split; [apply grupo_DIAS|]. split; [apply grupo_length|].
  unfold dias_distintos.
  assert (Hle : List.length (group_keys date_eqb (map Data g)) <= List.length g).
  { rewrite <- (length_map Data g). apply group_keys_length. }
  split; [exact Hle|]. split.
  - intros Hnd. rewrite <- (length_map Data g).
    apply group_keys_NoDup_length; [apply date_eqb_spec|exact Hnd|].
    rewrite Forall_map. apply Forall_impl with (2 := grupo_Forall k df).
    intros r. apply chave_Data.
  - intros Hdup.
    destruct (Nat.eq_dec (List.length (group_keys date_eqb (map Data g)))
                         (List.length g)) as [E|Hne]; [|lia].
    exfalso. apply Hdup.
    apply (group_keys_length_NoDup date_eqb); [apply date_eqb_spec|].
    now rewrite length_map.
Qed.

Lemma dias_is_group_size_witness :
  let g := grupo (Exemplos.janeiro "A") Exemplos.uma_loja in
  let g' := grupo (Exemplos.janeiro "A") Exemplos.dia_repetido in
  NoDup (map Data g) /\ dias_distintos g = List.length g
  /\ Forall (fun r => DIAS r = Some 3)
            (grupo (Exemplos.janeiro "A") (carregar_dados Exemplos.uma_loja))
  /\ ~ NoDup (map Data g') /\ dias_distintos g' < List.length g'.
Proof.
  assert (Hnd : NoDup (map Data (grupo (Exemplos.janeiro "A") Exemplos.uma_loja))).
  { repeat constructor; simpl; intuition discriminate. }
  assert (Hdup : ~ NoDup (map Data (grupo (Exemplos.janeiro "A") Exemplos.dia_repetido))).
  { intros H. inversion H as [|? ? Hn _]; subst. apply Hn. now left. }
  pose proof (dias_is_group_size Exemplos.uma_loja (Exemplos.janeiro "A")) as H.
  pose proof (dias_is_group_size Exemplos.dia_repetido (Exemplos.janeiro "A")) as H'.
  split; [exact Hnd|]. split; [|split; [|split]].
  - exact (proj1 (proj2 (proj2 (proj2 H))) Hnd).
  - exact (proj1 H).
  - exact Hdup.
  - exact (proj2 (proj2 (proj2 (proj2 H'))) Hdup).
Defined.

(** The claim as the specification words it: it fails when a shop has two
    rows on one day.  [DIAS] is 2, the rows, and the days are 1. *)
Lemma dias_not_distinct_days :
  ~ (forall df k r,
        In r (grupo k (carregar_dados df)) ->
        DIAS r = Some (dias_distintos (grupo k df))).
Proof.
  intros H.
  set (g := grupo (Exemplos.janeiro "A") (carregar_dados Exemplos.dia_repetido)).
  assert (H1 : In (nth 0 g (Exemplos.linha "A" 0 0 0)) g) by (left; reflexivity).
  specialize (H _ _ _ H1). vm_compute in H. discriminate.
Qed.

(** ** Daily Target Allocator *)

Lemma carregar_dados_rows df :
  Forall (fun r => Meta_Dia r = div_cells (Meta_Mes r) (DIAS r)) (carregar_dados df).
Proof. unfold carregar_dados. cbv zeta. apply meta_dia_rows. Qed.

Lemma sem_grupo_DIAS df :
  Forall (fun r => DIAS r = None /\ Meta_Dia r = None /\ Real_Variacao r = None)
         (sem_grupo (carregar_dados df)).
Proof.
  rewrite carregar_dados_sem_grupo. unfold normalizar_sem_grupo.
  apply Forall_forall. intros r Hr. apply in_map_iff in Hr as [r0 [<- _]].
  repeat split.
Qed.

Lemma row_cases df r :
  In r (carregar_dados df) ->
  (exists k, chave r = Some k /\ In r (grupo k (carregar_dados df)))
  \/ (chave r = None /\ In r (sem_grupo (carregar_dados df))).
Proof.
  intros Hr. destruct (chave r) as [k|] eqn:E.
  - left. exists k. split; auto. apply filter_In. split; auto.
    now apply in_group_chave.
  - right. split; auto. apply filter_In. split; auto. now rewrite E.
Qed.

Lemma Qc_of_nat_nonzero n : 1 <= n -> Qc_of_Z (Z.of_nat n) <> 0%Qc.
Proof.
  intros Hn H. apply (f_equal this) in H. unfold Qc_of_Z in H. simpl in H.
  unfold Qred in H. simpl in H.
  destruct (Z.ggcd (Z.of_nat n) 1) as [g [a b]] eqn:E.
  pose proof (Z.ggcd_correct_divisors (Z.of_nat n) 1) as Hd. rewrite E in Hd.
  simpl in H. injection H as Ha _. subst a. lia.
Qed.

(** C7, as the code has it.  On every row of the normalised table
    [Meta Dia] is the back-filled [Meta Mês] divided by [DIAS], and [DIAS]
    is never 0: on a row with a shop and a date it is the number of rows of
    the group, at least 1, and [Meta Dia] times [DIAS] gives [Meta Mês]
    back; on a row without a shop or without a date [DIAS] is missing and so
    is [Meta Dia]. *)
Theorem meta_dia_allocator :
  forall df r,
    In r (carregar_dados df) ->
    Meta_Dia r = div_cells (Meta_Mes r) (DIAS r)
    /\ DIAS r <> Some 0
    /\ (forall k, chave r = Some k ->
                  exists n, DIAS r = Some n /\ 1 <= n
                            /\ n = List.length (grupo k df)
                            /\ Meta_Dia r = Some (Meta_Mes r / Qc_of_Z (Z.of_nat n))%Qc
                            /\ (Meta_Mes r / Qc_of_Z (Z.of_nat n)
                                * Qc_of_Z (Z.of_nat n))%Qc = Meta_Mes r)
    /\ (chave r = None -> DIAS r = None /\ Meta_Dia r = None).
Proof.
  intros df r Hr.
  pose proof (carregar_dados_rows df) as Hrows.
  rewrite Forall_forall in Hrows. specialize (Hrows r Hr).
  assert (Hgroup : forall k, chave r = Some k ->
            DIAS r = Some (List.length (grupo k df))
            /\ 1 <= List.length (grupo k df)).
  { intros k Hk.
    assert (Hin : In r (grupo k (carregar_dados df))).
    { apply filter_In. split; auto. now apply in_group_chave. }
    pose proof (grupo_DIAS k df) as HD. rewrite Forall_forall in HD.
    split; [now apply HD|].
    rewrite <- grupo_length. destruct (grupo k (carregar_dados df)); simpl.
    - contradiction.
    - lia. }
  split; [exact Hrows|]. split; [|split].
  - destruct (row_cases df r Hr) as [[k [Hk _]]|[_ Hn]].
    + destruct (Hgroup k Hk) as [HD Hl]. rewrite HD. intros [= E]. lia.
    + pose proof (sem_grupo_DIAS df) as HN. rewrite Forall_forall in HN.
      destruct (HN r Hn) as [HD _]. rewrite HD. discriminate.
  - intros k Hk. destruct (Hgroup k Hk) as [HD Hl].
    exists (List.length (grupo k df)). repeat split; auto.
    + rewrite Hrows, HD. unfold div_cells.
      destruct (List.length (grupo k df)); [lia|reflexivity].
    + field. now apply Qc_of_nat_nonzero.
  - intros Hk. destruct (row_cases df r Hr) as [[k [Hk' _]]|[_ Hn]]; [congruence|].
    pose proof (sem_grupo_DIAS df) as HN. rewrite Forall_forall in HN.
    destruct (HN r Hn) as [HD [HM _]]. now split.
Qed.

Lemma meta_dia_allocator_witness :
  let r := nth 0 (carregar_dados Exemplos.duas_lojas) (Exemplos.linha "A" 0 0 0) in
  In r (carregar_dados Exemplos.duas_lojas)
  /\ Meta_Dia r = div_cells (Meta_Mes r) (DIAS r)
  /\ option_map this (Meta_Dia r) = Some 300%Q.
Proof.
  assert (Hin : In (nth 0 (carregar_dados Exemplos.duas_lojas) (Exemplos.linha "A" 0 0 0))
                   (carregar_dados Exemplos.duas_lojas)) by (left; reflexivity).
  split; [exact Hin|]. split.
  - exact (proj1 (meta_dia_allocator _ _ Hin)).
  - vm_compute. reflexivity.
Defined.

(** The claim as the specification words it: [DIAS] at least 1 on every
    row fails on a row whose date could not be read, which has no [DIAS]. *)
Lemma dias_missing_without_date :
  ~ (forall df r,
        In r (carregar_dados df) -> exists n, DIAS r = Some n /\ 1 <= n).
Proof.
  intros H.
  set (t := carregar_dados Exemplos.com_data_nula).
  assert (H1 : In (nth 2 t (Exemplos.linha "A" 0 0 0)) t)
    by (right; right; left; reflexivity).
  destruct (H _ _ H1) as [n [Hn _]]. vm_compute in Hn. discriminate.
Qed.

(** ** Currency Parser *)

Lemma sub_thousands_positions v :
  sub_thousands v
  = string_of_list_ascii
      (map fst (filter (fun p => negb (is_thousands_dot p)) (positions v))).
Proof.
  induction v as [|c rest IH]; auto.
  cbn [sub_thousands positions filter]. unfold is_thousands_dot at 1.
  cbn [fst snd].
  destruct (Ascii.eqb c "." && followed_by_3digits_comma rest); simpl;
    now rewrite IH.
Qed.

Lemma followed_by_3digits_comma_spec rest :
  followed_by_3digits_comma rest = true <->
  exists a b c t,
    rest = String a (String b (String c (String "," t)))
    /\ isdigit a = true /\ isdigit b = true /\ isdigit c = true.
Proof.
  split.
  - destruct rest as [|a [|b [|c [|d t]]]]; simpl; try discriminate.
    rewrite !andb_true_iff. intros [[[Ha Hb] Hc] Hd].
    apply Ascii.eqb_eq in Hd. subst d. exists a, b, c, t. auto.
  - intros [a [b [c [t [-> [Ha [Hb Hc]]]]]]]. simpl. now rewrite Ha, Hb, Hc.
Qed.

Lemma replace_comma v : replace "," "." v = map_string comma_to_point v.
Proof.
  unfold replace. induction v as [|c rest IH]; auto.
  cbn [replace_from map_string prefix String.length Nat.sub].
  unfold comma_to_point at 1.
  assert (Hp : prefix EmptyString rest = true) by (destruct rest; reflexivity).
  destruct (ascii_dec "," c) as [<-|Hne]; simpl.
  - now rewrite Hp, IH.
  - rewrite IH. destruct (Ascii.eqb_spec c ","); [congruence|reflexivity].
Qed.

Lemma limpar_moeda_str s : limpar_moeda (VStr s) = Ok (parse_text s).
Proof.
  unfold limpar_moeda, parse_text. cbn [isna truth]. cbv zeta.
  destruct ((strip s =? EmptyString)%string || (strip s =? "-")%string); auto.
  now destruct (float_of_str _).
Qed.

Lemma limpar_moeda_int z :
  (Z.abs z < 2 ^ 53)%Z -> limpar_moeda (VInt z) = Ok (Fin (Qc_of_Z z)).
Proof.
  intros Hz. unfold limpar_moeda. cbn [isna truth]. unfold float_of_int.
  now rewrite binary64_int.
Qed.

Lemma limpar_moeda_int_overflow z :
  (2 ^ 1024 <= Z.abs z)%Z -> limpar_moeda (VInt z) = Raise OverflowError.
Proof.
  intros Hz. unfold limpar_moeda. cbn [isna truth]. unfold float_of_int.
  now rewrite binary64_int_overflow.
Qed.

Lemma limpar_moeda_bool b :
  limpar_moeda (VBool b) = Ok (Fin (Qc_of_Z (if b then 1 else 0))).
Proof.
  unfold limpar_moeda. cbn [isna truth]. unfold float_of_int.
  rewrite binary64_int; [reflexivity|]. now destruct b.
Qed.

(** When [limpar_moeda] raises: on an int beyond the floats, at
    [float(valor)], and on an array of two elements or more, at
    [if pd.isna(valor)]. *)
Lemma limpar_moeda_raises valor e :
  limpar_moeda valor = Raise e <->
  (exists z s, valor = VInt z /\ binary64 (Qc_of_Z z) = Inf s /\ e = OverflowError)
  \/ (exists na b others, valor = VArray na (b :: others) /\ e = ValueError).
Proof.
  split.
  - destruct valor as [| b | z | f | s | na others |].
    + discriminate.
    + rewrite limpar_moeda_bool. discriminate.
    + unfold limpar_moeda. cbn [isna truth]. unfold float_of_int.
      destruct (binary64 (Qc_of_Z z)) as [q|sg|] eqn:E; try discriminate.
      intros [= <-]. left. now exists z, sg.
    + destruct f as [q|sg|]; discriminate.
    + rewrite limpar_moeda_str. discriminate.
    + unfold limpar_moeda. cbn [isna truth].
      destruct others as [|b others]; [destruct na; discriminate|].
      intros [= <-]. right. now exists na, b, others.
    + discriminate.
  - intros [(z & sg & -> & E & ->) | (na & b & others & -> & ->)].
    + unfold limpar_moeda. cbn [isna truth]. unfold float_of_int. now rewrite E.
    + reflexivity.
Qed.

Lemma limpar_moeda_blank s :
  (strip s =? EmptyString)%string || (strip s =? "-")%string = true ->
  limpar_moeda (VStr s) = Ok zero.
Proof. intros H. rewrite limpar_moeda_str. unfold parse_text. now rewrite H. Qed.

Lemma is_thousands_dot_spec c rest :
  is_thousands_dot (c, rest) = true <->
  c = "."%char
  /\ exists d1 d2 d3 t,
      rest = String d1 (String d2 (String d3 (String "," t)))
      /\ isdigit d1 = true /\ isdigit d2 = true /\ isdigit d3 = true.
Proof.
  unfold is_thousands_dot. cbn [fst snd].
  rewrite andb_true_iff, Ascii.eqb_eq, followed_by_3digits_comma_spec.
  reflexivity.
Qed.

Lemma limpar_moeda_1234_56 :
  limpar_moeda (VStr "R$ 1.234,56") = Ok (Fin (Q2Qc (123456 # 100))).
Proof.
  rewrite limpar_moeda_str. reflexivity.
Qed.

(** C5, as the code has it.  [limpar_moeda] raises in two cases, both
    outside its [try]: [OverflowError] on an int whose nearest float is
    beyond the largest one, as every int of 2^1024 or more in magnitude is,
    and [ValueError] on a list or array of two elements or more.  On every
    other value it returns a float.  An int comes back as the nearest
    float, which below 2^53 in magnitude is the int itself, a bool as 1.0
    or 0.0, a float as it is, a missing value as 0.0, and so do an array of
    one element and any other object.  A string is stripped; the empty
    string and ["-"] give 0.0; otherwise the currency marker goes, each dot
    is removed exactly when three digits and a comma follow it in the text
    as it stands, every comma becomes a point, and the text is read as a
    float, 0.0 when it is none.  ["R$ 1.234,56"] gives 1234.56, the empty
    string and ["-"] give 0.0, the int 10 gives 10.0. *)
Theorem limpar_moeda_total :
  (forall valor e,
      limpar_moeda valor = Raise e <->
      (exists z s, valor = VInt z /\ binary64 (Qc_of_Z z) = Inf s
                   /\ e = OverflowError)
      \/ (exists na b others, valor = VArray na (b :: others) /\ e = ValueError))
  /\ (forall z, (2 ^ 1024 <= Z.abs z)%Z ->
                limpar_moeda (VInt z) = Raise OverflowError)
  /\ (forall z, (Z.abs z < 2 ^ 53)%Z ->
                limpar_moeda (VInt z) = Ok (Fin (Qc_of_Z z)))
  /\ (forall z f, limpar_moeda (VInt z) = Ok f -> f = binary64 (Qc_of_Z z))
  /\ (forall b, limpar_moeda (VBool b) = Ok (Fin (Qc_of_Z (if b then 1 else 0))))
  /\ (forall q, limpar_moeda (VFloat (Fin q)) = Ok (Fin q))
  /\ (forall b, limpar_moeda (VFloat (Inf b)) = Ok (Inf b))
  /\ limpar_moeda VNone = Ok zero
  /\ limpar_moeda (VFloat NaN) = Ok zero
  /\ (forall na, limpar_moeda (VArray na []) = Ok zero)
  /\ limpar_moeda VOther = Ok zero
  /\ (forall s, limpar_moeda (VStr s) = Ok (parse_text s))
  /\ (forall s, let v := strip s in
                (v =? EmptyString)%string || (v =? "-")%string = true ->
                limpar_moeda (VStr s) = Ok zero)
  /\ (forall v,
         sub_thousands v
         = string_of_list_ascii
             (map fst (filter (fun p => negb (is_thousands_dot p)) (positions v))))
  /\ (forall c rest,
         is_thousands_dot (c, rest) = true <->
         c = "."%char
         /\ exists d1 d2 d3 t,
             rest = String d1 (String d2 (String d3 (String "," t)))
             /\ isdigit d1 = true /\ isdigit d2 = true /\ isdigit d3 = true)
  /\ (forall v, replace "," "." v = map_string comma_to_point v)
  /\ limpar_moeda (VStr "R$ 1.234,56") = Ok (Fin (Q2Qc (123456 # 100)))
  /\ limpar_moeda (VStr EmptyString) = Ok zero
  /\ limpar_moeda (VStr "-") = Ok zero
  /\ limpar_moeda (VInt 10) = Ok (Fin (Qc_of_Z 10)).
Proof.
  split; [exact limpar_moeda_raises|].
  split; [exact limpar_moeda_int_overflow|].
  split; [exact limpar_moeda_int|].
  split.
  { intros z f. unfold limpar_moeda. cbn [isna truth]. unfold float_of_int.
    destruct (binary64 (Qc_of_Z z)); congruence. }
  split; [exact limpar_moeda_bool|].
  split; [reflexivity|]. split; [reflexivity|].
  split; [reflexivity|]. split; [reflexivity|].
  split; [intros []; reflexivity|]. split; [reflexivity|].
  split; [exact limpar_moeda_str|].
  split; [exact limpar_moeda_blank|].
  split; [exact sub_thousands_positions|].
  split; [exact is_thousands_dot_spec|].
  split; [exact replace_comma|].
  split; [exact limpar_moeda_1234_56|].
  split; [reflexivity|]. split; [reflexivity|].
  apply limpar_moeda_int. reflexivity.
Qed.

Lemma limpar_moeda_total_witness :
  (strip "  -  " =? EmptyString)%string || (strip "  -  " =? "-")%string = true
  /\ limpar_moeda (VStr "  -  ") = Ok zero
  /\ is_thousands_dot ("."%char, "234,56"%string) = true
  /\ limpar_moeda (VInt (2 ^ 53 - 1)) = Ok (Fin (Qc_of_Z (2 ^ 53 - 1)))
  /\ limpar_moeda (VInt (- 2 ^ 1024)) = Raise OverflowError.
Proof.
  pose proof limpar_moeda_total
    as (_ & Hover & Hint & _ & _ & _ & _ & _ & _ & _ & _ & _ & Hblank & _ & Hdot & _).
  split; [reflexivity|]. split; [|split; [|split]].
  - apply (Hblank "  -  "%string). reflexivity.
  - apply (proj2 (Hdot "."%char "234,56"%string)).
    split; [reflexivity|]. exists "2"%char, "3"%char, "4"%char, "56"%string.
    repeat split.
  - apply Hint. reflexivity.
  - apply Hover. discriminate.
Defined.

(** The claim as the specification words it: the parser is not total.  The
    int 10^400 and the largest int below 2^1024 raise [OverflowError], a
    list of two elements raises [ValueError]. *)
Lemma limpar_moeda_not_total :
  limpar_moeda (VInt (10 ^ 400)) = Raise OverflowError
  /\ limpar_moeda (VInt (2 ^ 1024 - 1)) = Raise OverflowError
  /\ limpar_moeda (VArray false [false]) = Raise ValueError
  /\ ~ (forall valor, exists f, limpar_moeda valor = Ok f).
Proof.
  assert (H : limpar_moeda (VInt (10 ^ 400)) = Raise OverflowError).
  { apply limpar_moeda_int_overflow. vm_compute. discriminate. }
  split; [exact H|]. split; [vm_compute; reflexivity|].
  split; [reflexivity|].
  intros T. destruct (T (VInt (10 ^ 400))) as [f Hf]. congruence.
Qed.

(** ** Aggregator *)

Lemma date_leb_total a b :
  leb_of date_cmp a b = true \/ leb_of date_cmp b a = true.
Proof. apply (leb_of_total _ total_order_date). Qed.

Lemma date_leb_trans a b c :
  leb_of date_cmp a b = true -> leb_of date_cmp b c = true ->
  leb_of date_cmp a c = true.
Proof. apply (leb_of_trans _ total_order_date). Qed.

Lemma group_keys_NoDup {K : Type} (eqb : K -> K -> bool) keys :
  (forall a b, reflect (a = b) (eqb a b)) -> NoDup (group_keys eqb keys).
Proof.
  intros Hspec. induction keys as [|[k|] keys IH]; simpl; auto; [|constructor].
  constructor.
  - intros H. apply filter_In in H as [_ H].
    destruct (Hspec k k); [discriminate|congruence].
  - now apply NoDup_filter.
Qed.

Lemma datas_NoDup df_f : NoDup (datas df_f).
Proof.
  unfold datas.
  apply (Permutation_NoDup (Permutation_sym (sort_perm _ _))).
  apply group_keys_NoDup, date_eqb_spec.
Qed.

Lemma datas_In df_f d :
  In d (datas df_f) <-> exists r, In r df_f /\ Data r = Some d.
Proof.
  unfold datas. split.
  - intros H. apply (Permutation_in _ (sort_perm _ _)) in H.
    apply (group_keys_in _ date_eqb_spec) in H.
    apply in_map_iff in H as [r [Hr Hin]]. now exists r.
  - intros [r [Hin Hr]].
    apply (Permutation_in _ (Permutation_sym (sort_perm _ _))).
    apply (group_keys_in _ date_eqb_spec). rewrite <- Hr. now apply in_map.
Qed.

Lemma sorted_NoDup_strict l :
  StronglySorted (fun a b => leb_of date_cmp a b = true) l -> NoDup l ->
  StronglySorted date_lt l.
Proof.
  induction 1 as [|a l Hs IH Ha]; intros Hnd; constructor.
  - apply IH. now inversion Hnd.
  - inversion Hnd as [|? ? Hnotin _]; subst.
    rewrite Forall_forall in *. intros b Hb. specialize (Ha b Hb).
    unfold leb_of in Ha. unfold date_lt.
    destruct (date_cmp a b) eqn:E; auto; [|discriminate].
    apply (cmp_eq _ total_order_date) in E. congruence.
Qed.

Lemma datas_sorted df_f : StronglySorted date_lt (datas df_f).
Proof.
  apply sorted_NoDup_strict; [|apply datas_NoDup].
  apply (sort_sorted _ date_leb_total date_leb_trans).
Qed.

Lemma groupby_Data_sum_dates df_f :
  map fst (groupby_Data_sum df_f) = datas df_f.
Proof. unfold groupby_Data_sum. rewrite map_map. simpl. apply map_id. Qed.

(** [sort_values("Data")] finds the groups in order already. *)
Lemma groupby_Data_sum_sorted df_f :
  sort (leb_of (on fst date_cmp)) (groupby_Data_sum df_f) = groupby_Data_sum df_f.
Proof.
  apply sort_sorted_id.
  apply (StronglySorted_unmap (fun a b => leb_of date_cmp a b = true) fst).
  rewrite groupby_Data_sum_dates.
  apply (sort_sorted _ date_leb_total date_leb_trans).
Qed.

Lemma get_group_on_date {A : Type} (f : Row -> A) df_f d :
  get_group date_eqb (map Data df_f) (map f df_f) d = map f (filter (on_date d) df_f).
Proof. exact (pick_rows (has_key date_eqb d) Data f df_f). Qed.

Lemma cumsum_from_nth acc x i :
  i < List.length x ->
  nth i (cumsum_from acc x) 0%Qc = (acc + total (firstn (S i) x))%Qc.
Proof.
  revert acc i. induction x as [|a x IH]; intros acc i Hi; simpl in Hi; [lia|].
  destruct i as [|i].
  - simpl. unfold total. simpl. destruct x; simpl; ring.
  - cbn [cumsum_from nth]. rewrite IH by lia.
    change (firstn (S (S i)) (a :: x)) with (a :: firstn (S i) x).
    unfold total. simpl. ring.
Qed.

Lemma cumsum_nth x i :
  i < List.length x -> nth i (cumsum x) 0%Qc = total (firstn (S i) x).
Proof. intros H. unfold cumsum. rewrite cumsum_from_nth by exact H. ring. Qed.

Lemma cumsum_length x : List.length (cumsum x) = List.length x.
Proof.
  unfold cumsum. generalize 0%Qc. induction x as [|a x IH]; intros acc; simpl; auto.
Qed.

Lemma map2_nth {A B C : Type} (f : A -> B -> C) x y i da db dc :
  i < List.length x -> i < List.length y ->
  nth i (map2 f x y) dc = f (nth i x da) (nth i y db).
Proof.
  revert y i. induction x as [|a x IH]; intros [|b y] [|i] Hx Hy; simpl in *;
    try lia; auto.
  apply IH; lia.
Qed.

Lemma df_grouped_columns df_f :
  let g := df_grouped df_f in
  g_Data g = datas df_f
  /\ g_Real_Variacao g
     = map (fun d => sum_skipna (map Real_Variacao (filter (on_date d) df_f)))
           (datas df_f)
  /\ g_Meta_Dia g
     = map (fun d => sum_skipna (map Meta_Dia (filter (on_date d) df_f)))
           (datas df_f).
Proof.
  unfold df_grouped. cbv zeta. cbn [g_Data g_Real_Variacao g_Meta_Dia].
  rewrite groupby_Data_sum_sorted. split; [apply groupby_Data_sum_dates|].
  unfold groupby_Data_sum. fold (datas df_f). rewrite !map_map. cbn [fst snd].
  split; apply map_ext; intros d; now rewrite get_group_on_date.
Qed.

Lemma df_grouped_derived df_f :
  let g := df_grouped df_f in
  REAL_ACUM g = cumsum (g_Real_Variacao g)
  /\ META_ACUM g = cumsum (g_Meta_Dia g)
  /\ DESVIO_DIA g = map2 Qcminus (g_Real_Variacao g) (g_Meta_Dia g)
  /\ DESVIO_ACUM g = map2 Qcminus (REAL_ACUM g) (META_ACUM g).
Proof. repeat split. Qed.

(** C8.  [df_grouped] has one row for each date of the filtered subset, the
    dates strictly ascending; its [Real_Variacao] and [Meta Dia] are the
    sums of those columns over all the rows of the subset with that date;
    [REAL_ACUM] and [META_ACUM] are the running sums of the two,
    [DESVIO_DIA] is [Real_Variacao - Meta Dia] and [DESVIO_ACUM] is
    [REAL_ACUM - META_ACUM], row by row.  For the two shops of the scenario
    REAL_ACUM = [150, 350], META_ACUM = [400, 800] and
    DESVIO_ACUM = [-250, -450]. *)
Theorem aggregator :
  (forall df_f,
      let g := df_grouped df_f in
      StronglySorted date_lt (g_Data g)
      /\ (forall d, In d (g_Data g) <-> exists r, In r df_f /\ Data r = Some d)
      /\ g_Real_Variacao g
         = map (fun d => sum_skipna (map Real_Variacao (filter (on_date d) df_f)))
               (g_Data g)
      /\ g_Meta_Dia g
         = map (fun d => sum_skipna (map Meta_Dia (filter (on_date d) df_f)))
               (g_Data g)
      /\ (forall i, i < List.length (g_Data g) ->
            nth i (REAL_ACUM g) 0%Qc = total (firstn (S i) (g_Real_Variacao g))
            /\ nth i (META_ACUM g) 0%Qc = total (firstn (S i) (g_Meta_Dia g))
            /\ nth i (DESVIO_DIA g) 0%Qc
               = (nth i (g_Real_Variacao g) 0 - nth i (g_Meta_Dia g) 0)%Qc
            /\ nth i (DESVIO_ACUM g) 0%Qc
               = (nth i (REAL_ACUM g) 0 - nth i (META_ACUM g) 0)%Qc)
      /\ List.length (REAL_ACUM g) = List.length (g_Data g)
      /\ List.length (META_ACUM g) = List.length (g_Data g)
      /\ List.length (DESVIO_DIA g) = List.length (g_Data g)
      /\ List.length (DESVIO_ACUM g) = List.length (g_Data g))
  /\ (let g := df_grouped (filtrar (carregar_dados Exemplos.duas_lojas) Exemplos.todos) in
      g_Data g = [mkDate 2024 1 1; mkDate 2024 1 2]
      /\ g_Real_Variacao g = [Qc_of_Z 150; Qc_of_Z 200]
      /\ g_Meta_Dia g = [Qc_of_Z 400; Qc_of_Z 400]
      /\ REAL_ACUM g = [Qc_of_Z 150; Qc_of_Z 350]
      /\ META_ACUM g = [Qc_of_Z 400; Qc_of_Z 800]
      /\ DESVIO_ACUM g = [Qc_of_Z (-250); Qc_of_Z (-450)]).
Proof.
  split.
  - intros df_f g.
    destruct (df_grouped_columns df_f) as [HD [HR HM]]. fold g in HD, HR, HM.
    destruct (df_grouped_derived df_f) as [ERA [EMA [EDD EDA]]].
    fold g in ERA, EMA, EDD, EDA.
    assert (LR : List.length (g_Real_Variacao g) = List.length (g_Data g))
      by (rewrite HR, HD; apply length_map).
    assert (LM : List.length (g_Meta_Dia g) = List.length (g_Data g))
      by (rewrite HM, HD; apply length_map).
    assert (LRA : List.length (REAL_ACUM g) = List.length (g_Data g))
      by (rewrite ERA, cumsum_length; exact LR).
    assert (LMA : List.length (META_ACUM g) = List.length (g_Data g))
      by (rewrite EMA, cumsum_length; exact LM).
    split; [rewrite HD; apply datas_sorted|].
    split; [intros d; rewrite HD; apply datas_In|].
    split; [now rewrite HD|]. split; [now rewrite HD|].
    split; [|split; [exact LRA|split; [exact LMA|split]]].
    + intros i Hi. split; [|split; [|split]].
      * rewrite ERA. apply cumsum_nth. now rewrite LR.
      * rewrite EMA. apply cumsum_nth. now rewrite LM.
      * rewrite EDD. apply map2_nth; [now rewrite LR|now rewrite LM].
      * rewrite EDA. apply map2_nth; [now rewrite LRA|now rewrite LMA].
    + rewrite EDD, map2_length, LR, LM. apply Nat.min_id.
    + rewrite EDA, map2_length, LRA, LMA. apply Nat.min_id.
  - cbv zeta. split; [vm_compute; reflexivity|].
    repeat split; apply Qc_list_inj; vm_compute; reflexivity.
Qed.

Lemma aggregator_witness :
  let g := df_grouped (filtrar (carregar_dados Exemplos.duas_lojas) Exemplos.todos) in
  1 < List.length (g_Data g)
  /\ nth 1 (REAL_ACUM g) 0%Qc = total (firstn 2 (g_Real_Variacao g))
  /\ this (nth 1 (REAL_ACUM g) 0%Qc) = 350%Q.
Proof.
  assert (Hi : 1 < List.length
                     (g_Data (df_grouped (filtrar (carregar_dados Exemplos.duas_lojas)
                                                  Exemplos.todos)))).
  { vm_compute. lia. }
  split; [exact Hi|]. split.
  - pose proof (proj1 aggregator (filtrar (carregar_dados Exemplos.duas_lojas)
                                          Exemplos.todos)) as H.
    cbv zeta in H.
    exact (proj1 (proj1 (proj2 (proj2 (proj2 (proj2 H)))) 1 Hi)).
  - vm_compute. reflexivity.
Defined.

(** ** The empty selection *)

(** C9.  When the filtered and windowed subset has no row, the page shows
    the warning and stops: no chart, no table and no export is called.
    When it has a row there is no warning and the page runs to its end. *)
Theorem no_data_signal :
  forall rede s,
    (filtrar rede s = [] -> pagina rede s = ([st_warning nenhum_dado], None))
    /\ (filtrar rede s <> [] ->
        let t := df_exibir (df_grouped (filtrar rede s)) in
        let g := df_grouped (filtrar rede s) in
        pagina rede s
        = ([st_subheader_selecao (produto_sel s) (mes_sel s) (ano_sel s);
            st_plotly_chart (g_Data g) (g_Real_Variacao g) (g_Meta_Dia g);
            st_subheader_tabela;
            st_dataframe t;
            to_excel t;
            st_download_button t (mes_sel s) (ano_sel s)], Some tt)).
Proof.
  intros rede s. unfold pagina. cbv zeta. split.
  - intros ->. reflexivity.
  - intros H. destruct (filtrar rede s) as [|r l]; [contradiction|reflexivity].
Qed.

Lemma no_data_signal_witness :
  filtrar (carregar_dados Exemplos.uma_loja)
          (mkSelecao "Todos" "Todas" "Todos" "Todas" (Some 2023%Z) (Some 1%Z)) = []
  /\ pagina (carregar_dados Exemplos.uma_loja)
            (mkSelecao "Todos" "Todas" "Todos" "Todas" (Some 2023%Z) (Some 1%Z))
     = ([st_warning nenhum_dado], None).
Proof.
  assert (H : filtrar (carregar_dados Exemplos.uma_loja)
                (mkSelecao "Todos" "Todas" "Todos" "Todas" (Some 2023%Z) (Some 1%Z))
              = []) by reflexivity.
  split; [exact H|].
  exact (proj1 (no_data_signal _ _) H).
Defined.

(** ** Rows without a date *)

Lemma filter_comm {A : Type} (p q : A -> bool) l :
  filter p (filter q l) = filter q (filter p l).
Proof.
  induction l as [|a l IH]; simpl; auto.
  destruct (p a) eqn:Pa, (q a) eqn:Qa; simpl; rewrite ?Pa, ?Qa, IH; auto.
Qed.

Lemma filter_filter_impl {A : Type} (p q : A -> bool) l :
  (forall a, p a = true -> q a = true) -> filter p (filter q l) = filter p l.
Proof.
  intros H. induction l as [|a l IH]; simpl; auto.
  destruct (q a) eqn:Qa; simpl.
  - now rewrite IH.
  - destruct (p a) eqn:Pa; auto. rewrite (H a Pa) in Qa. discriminate.
Qed.

Lemma na_janela_has_date s r : na_janela s r = true -> has_date r = true.
Proof.
  unfold na_janela, has_date. destruct (Data r); simpl; auto.
Qed.

Lemma filtrar_window rede s :
  Forall (fun r => na_janela s r = true) (filtrar rede s).
Proof.
  unfold filtrar. cbv zeta. apply Forall_forall. intros r Hr.
  now apply filter_In in Hr as [_ Hr].
Qed.

Lemma cond_filter_comm {A : Type} (b : bool) (p q : A -> bool) l :
  (if b then filter p (filter q l) else filter q l)
  = filter q (if b then filter p l else l).
Proof. destruct b; auto. apply filter_comm. Qed.

Lemma filtrar_dropna rede s : filtrar (dropna_Data rede) s = filtrar rede s.
Proof.
  unfold filtrar, dropna_Data. cbv zeta.
  rewrite !cond_filter_comm.
  apply filter_filter_impl. apply na_janela_has_date.
Qed.

(** Dropping rows that have no key changes no group: sizes and transforms
    of the remaining rows stay as they were. *)
Section DropKeyless.

Context {K R : Type} (eqb : K -> K -> bool) (key : R -> option K) (q : R -> bool).
Hypothesis q_keyless : forall r, q r = false -> key r = None.

Lemma keep_map {B : Type} (g : R -> B) rows :
  map snd (filter (fun c => q (fst c)) (combine rows (map g rows)))
  = map g (filter q rows).
Proof.
  induction rows as [|r rows IH]; simpl; auto.
  destruct (q r); simpl; now rewrite IH.
Qed.

Lemma has_key_keep k rows :
  filter (fun r => has_key eqb k (key r)) (filter q rows)
  = filter (fun r => has_key eqb k (key r)) rows.
Proof.
  apply filter_filter_impl. intros r Hr.
  destruct (q r) eqn:E; auto. now rewrite (q_keyless r E) in Hr.
Qed.

Lemma count_key_keep k rows :
  count_key eqb k (map key (filter q rows)) = count_key eqb k (map key rows).
Proof.
  unfold count_key. rewrite !filter_map_comm, !length_map. f_equal.
  apply has_key_keep.
Qed.

Lemma group_keys_keep rows :
  group_keys eqb (map key (filter q rows)) = group_keys eqb (map key rows).
Proof.
  induction rows as [|r rows IH]; simpl; auto.
  destruct (q r) eqn:E; simpl.
  - now rewrite IH.
  - now rewrite (q_keyless r E).
Qed.

Lemma size_keep rows :
  size eqb (map key (filter q rows)) = size eqb (map key rows).
Proof.
  unfold size. rewrite group_keys_keep. apply map_ext. intros k.
  now rewrite count_key_keep.
Qed.

Lemma merge_left_keep {V : Type} (right : list (K * V)) rows :
  map snd (filter (fun c => q (fst c))
                  (combine rows (merge_left eqb (map key rows) right)))
  = merge_left eqb (map key (filter q rows)) right.
Proof.
  unfold merge_left. rewrite !map_map. apply keep_map.
Qed.

Lemma get_group_keep {A : Type} (g : R -> A) rows k :
  get_group eqb (map key (filter q rows)) (map g (filter q rows)) k
  = get_group eqb (map key rows) (map g rows) k.
Proof.
  unfold get_group.
  rewrite (pick_rows (has_key eqb k) key g (filter q rows)).
  rewrite (pick_rows (has_key eqb k) key g rows).
  now rewrite has_key_keep.
Qed.

Lemma scatter_ext {B : Type} (res res' : K -> list (option B)) todo seen :
  (forall k, res k = res' k) ->
  scatter eqb res seen todo = scatter eqb res' seen todo.
Proof.
  intros H. revert seen. induction todo as [|o todo IH]; intros seen; simpl; auto.
  rewrite IH. destruct o as [k|]; auto. now rewrite H.
Qed.

Lemma scatter_keep {B : Type} (res : K -> list (option B)) todo seen seen' :
  (forall k, count_key eqb k seen = count_key eqb k seen') ->
  map snd (filter (fun c => q (fst c))
                  (combine todo (scatter eqb res seen (map key todo))))
  = scatter eqb res seen' (map key (filter q todo)).
Proof.
  revert seen seen'. induction todo as [|r todo IH]; intros seen seen' Hc; auto.
  cbn [map scatter combine filter fst].
  destruct (q r) eqn:E.
  - cbn [map snd scatter]. f_equal.
    + destruct (key r) as [k|]; auto. now rewrite Hc.
    + apply IH. intros k.
      unfold count_key in *. rewrite !filter_app, !length_app. now rewrite Hc.
  - apply IH. intros k. rewrite (q_keyless r E).
    unfold count_key in *. rewrite filter_app, length_app. simpl.
    rewrite Hc. lia.
Qed.

Lemma transform_keep {A B : Type} (g : R -> A) (f : list A -> list (option B)) rows :
  map snd (filter (fun c => q (fst c))
                  (combine rows (transform eqb (map key rows) (map g rows) f)))
  = transform eqb (map key (filter q rows)) (map g (filter q rows)) f.
Proof.
  unfold transform. rewrite (scatter_keep _ rows [] []) by reflexivity.
  apply scatter_ext. intros k. now rewrite get_group_keep.
Qed.

End DropKeyless.

Lemma has_date_keyless r : has_date r = false -> chave r = None.
Proof.
  unfold has_date, chave, ano_mes. destruct (Data r); [discriminate|].
  now destruct (Nome_Loja r).
Qed.

Lemma dropna_assign {V : Type} (set : V -> Row -> Row) df (col : list V) :
  (forall v r, has_date (set v r) = has_date r) ->
  dropna_Data (assign set df col)
  = assign set (dropna_Data df)
      (map snd (filter (fun c => has_date (fst c)) (combine df col))).
Proof.
  intros Hset. unfold dropna_Data, assign. revert col.
  induction df as [|r df IH]; intros [|v col]; simpl; auto.
  - destruct (has_date r); simpl; auto. now rewrite combine_nil.
  - rewrite Hset. destruct (has_date r); simpl; now rewrite IH.
Qed.

Lemma keep_col_map {A B : Type} (h : A -> B) (q : Row -> bool) df (col : list A) :
  map snd (filter (fun c => q (fst c)) (combine df (map h col)))
  = map h (map snd (filter (fun c => q (fst c)) (combine df col))).
Proof.
  revert col. induction df as [|r df IH]; intros [|v col]; simpl; auto.
  destruct (q r); simpl; now rewrite IH.
Qed.

Lemma dias_por_mes_dropna df :
  dias_por_mes (dropna_Data df) = dropna_Data (dias_por_mes df).
Proof.
  unfold dias_por_mes. cbv zeta. rewrite dropna_assign by reflexivity.
  unfold dropna_Data.
  rewrite (merge_left_keep key_eqb chave has_date).
  now rewrite (size_keep key_eqb chave has_date has_date_keyless).
Qed.

Lemma meta_mes_dropna df :
  meta_mes (dropna_Data df) = dropna_Data (meta_mes df).
Proof.
  unfold meta_mes. rewrite dropna_assign by reflexivity.
  unfold dropna_Data. rewrite keep_col_map.
  rewrite !(map_map Meta_Mes replace_zero_na).
  now rewrite (transform_keep key_eqb chave has_date has_date_keyless
                 (fun r => replace_zero_na (Meta_Mes r)) bfill df).
Qed.

Lemma real_variacao_dropna df :
  real_variacao (dropna_Data df) = dropna_Data (real_variacao df).
Proof.
  unfold real_variacao. rewrite dropna_assign by reflexivity.
  unfold dropna_Data.
  now rewrite (transform_keep key_eqb chave has_date has_date_keyless
                 Real variacao df).
Qed.

(** The rows without a date change nothing in the other rows of the
    normalised table. *)
Lemma carregar_dados_dropna df :
  carregar_dados (dropna_Data df) = dropna_Data (carregar_dados df).
Proof.
  unfold carregar_dados. cbv zeta.
  rewrite dias_por_mes_dropna, meta_mes_dropna.
  unfold dropna_Data at 1. rewrite <- sort_values_filter.
  fold (dropna_Data (sort_values (meta_mes (dias_por_mes df)))).
  rewrite real_variacao_dropna.
  unfold meta_dia, dropna_Data. now rewrite filter_map_comm.
Qed.

Lemma pagina_filtrar rede rede' s :
  filtrar rede s = filtrar rede' s -> pagina rede s = pagina rede' s.
Proof. intros H. unfold pagina. cbv zeta. now rewrite H. Qed.

Lemma filtrar_without_dateless df s :
  filtrar (carregar_dados df) s = filtrar (carregar_dados (dropna_Data df)) s.
Proof. now rewrite carregar_dados_dropna, filtrar_dropna. Qed.

(** C10.  A row whose date could not be read is in no filtered subset,
    whatever the year and month chosen: the subset, the aggregated table and
    the whole page are what they would be if the source file did not hold
    the row.  Such a row has no [DIAS]. *)
Theorem dateless_rows_excluded :
  forall df s,
    let rede := carregar_dados df in
    (forall r, In r (filtrar rede s) -> Data r <> None)
    /\ filtrar rede s = filtrar (carregar_dados (dropna_Data df)) s
    /\ df_grouped (filtrar rede s)
       = df_grouped (filtrar (carregar_dados (dropna_Data df)) s)
    /\ pagina rede s = pagina (carregar_dados (dropna_Data df)) s
    /\ (forall r, In r rede -> Data r = None -> DIAS r = None).
Proof.
  intros df s rede. split; [|split; [|split; [|split]]].
  - intros r Hr Hd.
    pose proof (filtrar_window rede s) as Hw. rewrite Forall_forall in Hw.
    apply Hw, na_janela_has_date in Hr. unfold has_date in Hr.
    rewrite Hd in Hr. discriminate.
  - apply filtrar_without_dateless.
  - unfold rede. now rewrite filtrar_without_dateless.
  - apply pagina_filtrar, filtrar_without_dateless.
  - intros r Hr Hd.
    assert (Hk : chave r = None).
    { apply has_date_keyless. unfold has_date. now rewrite Hd. }
    assert (Hin : In r (sem_grupo rede)).
    { apply filter_In. split; auto. now rewrite Hk. }
    pose proof (sem_grupo_DIAS df) as HN. rewrite Forall_forall in HN.
    now destruct (HN r Hin).
Qed.

Lemma dateless_rows_excluded_witness :
  let rede := carregar_dados Exemplos.com_data_nula in
  let r := nth 2 rede (Exemplos.linha "A" 0 0 0) in
  In r rede /\ Data r = None /\ DIAS r = None
  /\ List.length (filtrar rede Exemplos.todos) = 2.
Proof.
  assert (Hin : In (nth 2 (carregar_dados Exemplos.com_data_nula) (Exemplos.linha "A" 0 0 0))
                   (carregar_dados Exemplos.com_data_nula))
    by (right; right; left; reflexivity).
  assert (Hd : Data (nth 2 (carregar_dados Exemplos.com_data_nula)
                         (Exemplos.linha "A" 0 0 0)) = None) by reflexivity.
  split; [exact Hin|]. split; [exact Hd|]. split.
  - exact (proj2 (proj2 (proj2 (proj2
             (dateless_rows_excluded Exemplos.com_data_nula Exemplos.todos))))
             _ Hin Hd).
  - reflexivity.
Defined.

(** * Further properties of the code *)

(** ** The normalised table as a whole *)

(** A column that no block of [carregar_dados] writes comes out as it went
    in, up to the order of the rows. *)
Lemma carregar_dados_other {B : Type} (f : Row -> B) df :
  (forall v r, f (set_DIAS v r) = f r) ->
  (forall v r, f (set_Meta_Mes v r) = f r) ->
  (forall v r, f (set_Real_Variacao v r) = f r) ->
  (forall v r, f (set_Meta_Dia v r) = f r) ->
  Permutation (map f (carregar_dados df)) (map f df).
Proof.
  intros H1 H2 H3 H4. unfold carregar_dados. cbv zeta.
  rewrite meta_dia_other by exact H4.
  unfold real_variacao. rewrite assign_other;
    [|exact H3|rewrite transform_length, length_map; lia].
  unfold sort_values. rewrite (Permutation_map f (sort_perm _ _)).
  unfold meta_mes. rewrite assign_other;
    [|exact H2|rewrite length_map, transform_length, length_map; lia].
  unfold dias_por_mes. cbv zeta. rewrite assign_other;
    [|exact H1|rewrite merge_left_length, length_map; lia].
  reflexivity.
Qed.

(** X1.  [carregar_dados] drops no row and adds none: the normalised table
    holds the rows of the loaded table, their source columns untouched, in
    the order of shop, month and date, a missing value after every value. *)
Theorem carregar_dados_sorted_permutation :
  forall df,
    Permutation (map ledger (carregar_dados df)) (map ledger df)
    /\ List.length (carregar_dados df) = List.length df
    /\ StronglySorted (fun a b => key_leb a b = true)
                      (map sort_key (carregar_dados df)).
Proof.
  intros df.
  assert (P : Permutation (map ledger (carregar_dados df)) (map ledger df))
    by now apply carregar_dados_other.
  split; [exact P|]. split.
  - apply Permutation_length in P. now rewrite !length_map in P.
  - apply carregar_dados_sorted.
Qed.

Lemma filter_idem {A : Type} (p : A -> bool) l : filter p (filter p l) = filter p l.
Proof. apply filter_filter_impl. auto. Qed.

Lemma carregar_dados_of_group k g :
  Forall (fun r => chave r = Some k) g -> grupo k (carregar_dados g) = carregar_dados g.
Proof.
  intros Hg. apply filter_all. intros r Hr. apply in_group_chave.
  assert (P : Permutation (map chave (carregar_dados g)) (map chave g))
    by now apply carregar_dados_other.
  apply (in_map chave) in Hr. apply (Permutation_in _ P) in Hr.
  apply in_map_iff in Hr as [r0 [E Hr0]]. rewrite <- E.
  rewrite Forall_forall in Hg. now apply Hg.
Qed.

(** X2.  The (shop, month) groups do not interact: the rows of a group in
    the normalised table are what [carregar_dados] makes of the rows of that
    group alone, so two tables with the same rows of a group give the same
    rows of that group. *)
Theorem carregar_dados_group_local :
  forall df k,
    grupo k (carregar_dados df) = carregar_dados (grupo k df)
    /\ (forall df', grupo k df' = grupo k df ->
                    grupo k (carregar_dados df') = grupo k (carregar_dados df)).
Proof.
  intros df k. split.
  - rewrite <- (carregar_dados_of_group k (grupo k df)) by apply grupo_Forall.
    rewrite !carregar_dados_grupo. unfold grupo. now rewrite filter_idem.
  - intros df' E. now rewrite !carregar_dados_grupo, E.
Qed.

Lemma carregar_dados_group_local_witness :
  grupo (Exemplos.janeiro "A") (Exemplos.linha "B" 1 7 9 :: Exemplos.uma_loja)
  = grupo (Exemplos.janeiro "A") Exemplos.uma_loja
  /\ grupo (Exemplos.janeiro "A")
           (carregar_dados (Exemplos.linha "B" 1 7 9 :: Exemplos.uma_loja))
     = grupo (Exemplos.janeiro "A") (carregar_dados Exemplos.uma_loja).
Proof.
  assert (E : grupo (Exemplos.janeiro "A") (Exemplos.linha "B" 1 7 9 :: Exemplos.uma_loja)
              = grupo (Exemplos.janeiro "A") Exemplos.uma_loja) by reflexivity.
  split; [exact E|].
  exact (proj2 (carregar_dados_group_local Exemplos.uma_loja (Exemplos.janeiro "A")) _ E).
Defined.

(** X3.  In a table that has a row with a shop and a date, a row without a
    shop or without a date belongs to no group: in the normalised table its
    [Meta Mês] is 0, whatever target the file gave it, and its
    [Real_Variacao] is missing.  (In a table where no row has both there is
    no group at all, and pandas leaves the whole column missing.) *)
Theorem keyless_rows_lose_target :
  forall df r,
    (exists r0, In r0 df /\ chave r0 <> None) ->
    In r (carregar_dados df) -> chave r = None ->
    Meta_Mes r = 0%Qc /\ Real_Variacao r = None.
Proof.
  intros df r _ Hr Hk.
  assert (Hin : In r (sem_grupo (carregar_dados df))).
  { apply filter_In. split; auto. now rewrite Hk. }
  rewrite carregar_dados_sem_grupo in Hin. unfold normalizar_sem_grupo in Hin.
  apply in_map_iff in Hin as [r0 [<- _]]. split; reflexivity.
Qed.

Lemma keyless_rows_lose_target_witness :
  let rede := carregar_dados Exemplos.com_data_nula in
  let r := nth 2 rede (Exemplos.linha "A" 0 0 0) in
  (exists r0, In r0 Exemplos.com_data_nula /\ chave r0 <> None)
  /\ In r rede /\ chave r = None
  /\ Meta_Mes r = 0%Qc
  /\ this (Meta_Mes (nth 1 Exemplos.com_data_nula (Exemplos.linha "A" 0 0 0))) = 700%Q.
Proof.
  assert (Hin : In (nth 2 (carregar_dados Exemplos.com_data_nula) (Exemplos.linha "A" 0 0 0))
                   (carregar_dados Exemplos.com_data_nula))
    by (right; right; left; reflexivity).
  assert (Hk : chave (nth 2 (carregar_dados Exemplos.com_data_nula)
                          (Exemplos.linha "A" 0 0 0)) = None) by reflexivity.
  assert (H0 : exists r0, In r0 Exemplos.com_data_nula /\ chave r0 <> None).
  { exists (Exemplos.linha "A" 1 100 0). split; [left; reflexivity|discriminate]. }
  split; [exact H0|]. split; [exact Hin|]. split; [exact Hk|]. split.
  - exact (proj1 (keyless_rows_lose_target _ _ H0 Hin Hk)).
  - reflexivity.
Defined.

(** ** Differences and running sums *)



(** X4.  On binary64 the running sum undoes [variacao] where no
    subtraction rounds: for readings [x] that are binary64 numbers and whose
    consecutive differences are binary64 numbers too, [cumsum] of
    [variacao x] is [x] again, cell by cell. *)
Theorem variacao_cumsum_roundtrip :
  forall x : list Qc,
    Forall is_binary64 x ->
    Forall is_binary64 (diffs (hd 0%Qc x) (tl x)) ->
    cumsum64 (variacao64 (map Fin x)) = map Fin x.
Proof.
  intros x Hx Hd. rewrite (variacao64_exact x Hd).
  destruct x as [|a l]; auto.
  rewrite variacao_cons. cbn [map cell64]. rewrite map_map. cbn [cell64 hd tl] in *.
  change (Fin a :: map (fun q => Fin q) (diffs a l)) with (map Fin (a :: diffs a l)).
  rewrite cumsum64_Fin. cbn [map np_cumsum].
  inversion Hx; subst. now rewrite np_cumsum_from_diffs.
Qed.

Lemma variacao_cumsum_roundtrip_witness :
  let x := [Qc_of_Z 100; Qc_of_Z 250; Qc_of_Z 250] in
  Forall is_binary64 x
  /\ Forall is_binary64 (diffs (hd 0%Qc x) (tl x))
  /\ cumsum64 (variacao64 (map Fin x)) = map Fin x.
Proof.
  assert (Hx : Forall is_binary64 [Qc_of_Z 100; Qc_of_Z 250; Qc_of_Z 250])
    by (repeat constructor; apply binary64_int; reflexivity).
  assert (Hd : Forall is_binary64
                 (diffs (hd 0%Qc [Qc_of_Z 100; Qc_of_Z 250; Qc_of_Z 250])
                        (tl [Qc_of_Z 100; Qc_of_Z 250; Qc_of_Z 250]))).
  { cbn [hd tl diffs]. rewrite <- !Qc_of_Z_minus.
    repeat constructor; apply binary64_int; reflexivity. }
  split; [exact Hx|]. split; [exact Hd|].
  exact (variacao_cumsum_roundtrip _ Hx Hd).
Defined.

(** ** The target block run twice *)

Lemma first_nonzero_zero_inv l : first_nonzero l = 0%Qc -> Forall (eq 0%Qc) l.
Proof.
  induction l as [|t l IH]; simpl; intros H; [constructor|].
  destruct (Qc_eqb_spec t 0) as [->|Hne].
  - constructor; auto.
  - contradiction.
Qed.

Lemma first_nonzero_all_zero l : Forall (eq 0%Qc) l -> first_nonzero l = 0%Qc.
Proof.
  intros H. rewrite <- (app_nil_r l). now rewrite first_nonzero_zeros.
Qed.

Lemma backfill_zeros l : Forall (eq 0%Qc) l -> backfill l = l.
Proof.
  induction 1 as [|t l Ht Hl IH]; auto.
  cbn [backfill]. rewrite IH. f_equal. subst t.
  apply first_nonzero_all_zero. now constructor.
Qed.

Lemma backfill_idem l : backfill (backfill l) = backfill l.
Proof.
  induction l as [|t l IH]; auto.
  cbn [backfill]. rewrite IH. f_equal.
  destruct (Qc_eqb_spec (first_nonzero (t :: l)) 0) as [Hz|Hnz].
  - pose proof (first_nonzero_zero_inv _ Hz) as Hall.
    rewrite Hz. apply first_nonzero_all_zero. constructor; [reflexivity|].
    inversion Hall as [|? ? _ Hl]; subst. now rewrite (backfill_zeros l Hl).
  - now apply first_nonzero_cons.
Qed.

(** A column is known by its cells in each group and in the rows without a
    group. *)
Lemma column_by_groups {A : Type} (keys : list (option Key)) (c1 c2 : list A) :
  List.length c1 = List.length keys -> List.length c2 = List.length keys ->
  (forall k, get_group key_eqb keys c1 k = get_group key_eqb keys c2 k) ->
  pick no_key keys c1 = pick no_key keys c2 ->
  c1 = c2.
Proof.
  unfold get_group, pick. revert c1 c2.
  induction keys as [|o keys IH]; intros [|a c1] [|b c2] L1 L2 Hg Hn;
    simpl in L1, L2; try discriminate; auto.
  assert (Hab : a = b).
  { destruct o as [k|].
    - specialize (Hg k). cbn [combine filter fst] in Hg.
      rewrite (proj2 (has_key_spec key_eqb key_eqb_spec k (Some k)) eq_refl) in Hg.
      cbn [map snd] in Hg. congruence.
    - cbn [combine filter fst no_key map snd] in Hn. congruence. }
  subst b. f_equal. apply IH; auto.
  - intros k. specialize (Hg k). cbn [combine filter fst] in Hg.
    destruct (has_key key_eqb k o); cbn [map snd] in Hg; congruence.
  - cbn [combine filter fst] in Hn.
    destruct (no_key o); cbn [map snd] in Hn; congruence.
Qed.

Lemma assign_twice {V : Type} (set : V -> Row -> Row) df (col : list V) :
  (forall v w r, set v (set w r) = set v r) ->
  assign set (assign set df col) col = assign set df col.
Proof.
  intros H. unfold assign. revert col.
  induction df as [|r df IH]; intros [|v col]; simpl; auto.
  now rewrite H, IH.
Qed.

Lemma all_equal_length {A : Type} (a : A) l1 l2 :
  Forall (eq a) l1 -> Forall (eq a) l2 -> List.length l1 = List.length l2 ->
  l1 = l2.
Proof.
  intros H1. revert l2. induction H1 as [|x l1 <- _ IH]; intros [|y l2] H2 L;
    simpl in L; try discriminate; auto.
  inversion H2; subst. f_equal. apply IH; auto.
Qed.

Lemma meta_mes_column df :
  map Meta_Mes (meta_mes df)
  = map (fillna 0%Qc)
        (transform key_eqb (map chave df) (map replace_zero_na (map Meta_Mes df)) bfill).
Proof.
  unfold meta_mes. apply assign_same; [reflexivity|].
  rewrite length_map, transform_length, length_map. lia.
Qed.

Lemma meta_mes_chave df : map chave (meta_mes df) = map chave df.
Proof.
  unfold meta_mes. apply assign_other; [reflexivity|].
  rewrite length_map, transform_length, length_map. lia.
Qed.

Lemma meta_mes_column_group df k :
  get_group key_eqb (map chave df) (map Meta_Mes (meta_mes df)) k
  = backfill (map Meta_Mes (grupo k df)).
Proof.
  rewrite <- (meta_mes_chave df).
  unfold get_group.
  rewrite (pick_rows (has_key key_eqb k) chave Meta_Mes (meta_mes df)).
  fold (in_group k). fold (grupo k (meta_mes df)).
  rewrite meta_mes_grupo, bfill_backfill.
  apply assign_same; [reflexivity|].
  rewrite backfill_length, length_map. lia.
Qed.

Lemma meta_mes_column_null df :
  Forall (eq 0%Qc) (pick no_key (map chave df) (map Meta_Mes (meta_mes df))).
Proof.
  rewrite <- (meta_mes_chave df).
  rewrite (pick_rows no_key chave Meta_Mes (meta_mes df)).
  fold (sem_grupo (meta_mes df)). rewrite meta_mes_sem_grupo, map_map. simpl.
  apply Forall_forall. intros x Hx. apply in_map_iff in Hx as [r [<- _]].
  reflexivity.
Qed.

(** X5.  The target block is idempotent: run on its own result it changes
    nothing. *)
Theorem meta_mes_idempotent :
  forall df, meta_mes (meta_mes df) = meta_mes df.
Proof.
  intros df.
  pose proof (meta_mes_chave df) as K.
  assert (L : List.length (meta_mes df) = List.length df).
  { apply (f_equal (@List.length (option Key))) in K. now rewrite !length_map in K. }
  assert (L' : List.length (meta_mes (meta_mes df)) = List.length df).
  { pose proof (meta_mes_chave (meta_mes df)) as K'.
    apply (f_equal (@List.length (option Key))) in K'.
    rewrite !length_map in K'. congruence. }
  assert (E : map Meta_Mes (meta_mes (meta_mes df)) = map Meta_Mes (meta_mes df)).
  { apply (column_by_groups (map chave df)).
    - now rewrite !length_map.
    - now rewrite !length_map.
    - intros k.
      pose proof (meta_mes_column_group df k) as G1.
      pose proof (meta_mes_column_group (meta_mes df) k) as G2. rewrite K in G2.
      assert (T : map Meta_Mes (grupo k (meta_mes df))
                  = backfill (map Meta_Mes (grupo k df))).
      { rewrite <- G1, <- K. symmetry.
        exact (pick_rows (has_key key_eqb k) chave Meta_Mes (meta_mes df)). }
      rewrite G2, G1, T. apply backfill_idem.
    - pose proof (meta_mes_column_null df) as N1.
      pose proof (meta_mes_column_null (meta_mes df)) as N2. rewrite K in N2.
      apply (all_equal_length 0%Qc); auto.
      rewrite !pick_length_le; auto; rewrite !length_map; lia. }
  transitivity (assign set_Meta_Mes (meta_mes df)
                       (map Meta_Mes (meta_mes (meta_mes df)))).
  { rewrite (meta_mes_column (meta_mes df)). reflexivity. }
  rewrite E, (meta_mes_column df). unfold meta_mes.
  apply assign_twice. reflexivity.
Qed.

(** ** Daily targets of a month *)

Lemma Qc_of_Z_succ m : Qc_of_Z (Z.of_nat (S m)) = (1 + Qc_of_Z (Z.of_nat m))%Qc.
Proof.
  apply Qc_is_canon. unfold Qc_of_Z. cbn [this Qcplus Q2Qc].
  rewrite !Qred_correct. unfold Qeq, Qplus, inject_Z. cbn [Qnum Qden].
  lia.
Qed.

(** The running sum of equal cells, where no addition rounds. *)
Lemma np_cumsum_from_multiples w m : forall j,
  (forall i, j < i <= j + m -> is_binary64 (Qc_of_Z (Z.of_nat i) * w)%Qc) ->
  last (np_cumsum_from (Fin (Qc_of_Z (Z.of_nat j) * w)%Qc) (repeat (Fin w) m))
       (Fin (Qc_of_Z (Z.of_nat j) * w)%Qc)
  = Fin (Qc_of_Z (Z.of_nat (j + m)) * w)%Qc.
Proof.
  induction m as [|m IH]; intros j H.
  - simpl. now rewrite Nat.add_0_r.
  - cbn [repeat np_cumsum_from add64].
    replace (Qc_of_Z (Z.of_nat j) * w + w)%Qc with (Qc_of_Z (Z.of_nat (S j)) * w)%Qc
      by (rewrite Qc_of_Z_succ; ring).
    rewrite (H (S j)) by lia. rewrite last_cons, IH.
    + f_equal. f_equal. f_equal. f_equal. lia.
    + intros i Hi. apply H. lia.
Qed.

Lemma sum64_repeat w n :
  1 <= n ->
  (forall i, 1 <= i <= n -> is_binary64 (Qc_of_Z (Z.of_nat i) * w)%Qc) ->
  sum64 (repeat (Fin w) n) = Fin (Qc_of_Z (Z.of_nat n) * w)%Qc.
Proof.
  intros Hn H. destruct n as [|m]; [lia|].
  unfold sum64.
  assert (E : filter (fun v => negb (isnan v)) (repeat (Fin w) (S m))
              = repeat (Fin w) (S m)).
  { generalize (S m). intros k. induction k; simpl; congruence. }
  rewrite E. cbn [repeat np_cumsum]. rewrite last_cons.
  assert (E1 : w = (Qc_of_Z (Z.of_nat 1) * w)%Qc).
  { change (Qc_of_Z (Z.of_nat 1)) with 1%Qc. ring. }
  rewrite E1 at 1 3. rewrite np_cumsum_from_multiples; [reflexivity|].
  intros i Hi. apply H. lia.
Qed.

(** X6.  When the target of a (shop, month) group is constant after the
    back-fill (every target of the group in the file is zero or [v], and
    the last row of the group in the file carries [v]), every one of the
    [n] rows of the group carries the target [v] and [DIAS] = [n]; where
    [n] is below 2^53 and [v / n] and its multiples up to [n] times are
    binary64 numbers (no conversion, no division and no addition rounds),
    [Meta Mês / DIAS] gives on binary64 the cells of [Meta Dia], and added
    up in row order they give [v]. *)
Theorem meta_dia_adds_up :
  forall df k v,
    let targets := map Meta_Mes (grupo k df) in
    let g := grupo k (carregar_dados df) in
    let n := List.length g in
    grupo k df <> [] ->
    Forall (fun t => t = 0%Qc \/ t = v) targets ->
    last targets 0%Qc = v ->
    (Z.of_nat n < 2 ^ 53)%Z ->
    (forall i, 1 <= i <= n ->
               is_binary64 (Qc_of_Z (Z.of_nat i) * (v / Qc_of_Z (Z.of_nat n)))%Qc) ->
    Forall (fun r => Meta_Mes r = v /\ DIAS r = Some n) g
    /\ map meta_dia64 g = map cell64 (map Meta_Dia g)
    /\ sum64 (map meta_dia64 g) = Fin v.
Proof.
  intros df k v targets g n Hne Ht Hl Hsmall Hb.
  assert (Hn64 : binary64 (Qc_of_Z (Z.of_nat n)) = Fin (Qc_of_Z (Z.of_nat n)))
    by (apply binary64_int; lia).
  assert (En : n = List.length (grupo k df)) by apply grupo_length.
  assert (Hn : 1 <= n).
  { rewrite En. destruct (grupo k df); [contradiction|simpl; lia]. }
  pose proof (Qc_of_nat_nonzero n Hn) as Hnz.
  assert (Hrows : Forall (fun r => Meta_Mes r = v /\ DIAS r = Some n) g).
  { pose proof (backfill_constant v targets Ht Hl) as HM.
    apply (Permutation_Forall (Permutation_sym (grupo_Meta_Mes k df))) in HM.
    rewrite Forall_map in HM.
    pose proof (grupo_DIAS k df) as HD. rewrite <- En in HD.
    rewrite Forall_forall in *. intros r Hr. split; [symmetry; now apply HM|].
    now apply HD. }
  assert (Hw : is_binary64 (v / Qc_of_Z (Z.of_nat n))%Qc).
  { specialize (Hb 1 ltac:(lia)).
    change (Qc_of_Z (Z.of_nat 1)) with 1%Qc in Hb.
    now replace (1 * (v / Qc_of_Z (Z.of_nat n)))%Qc
      with (v / Qc_of_Z (Z.of_nat n))%Qc in Hb by ring. }
  assert (Hcells : map meta_dia64 g
                   = repeat (Fin (v / Qc_of_Z (Z.of_nat n))%Qc) n).
  { assert (Hc : Forall (fun r => meta_dia64 r = Fin (v / Qc_of_Z (Z.of_nat n))%Qc) g).
    { apply Forall_impl with (2 := Hrows). intros r [Hv Hd].
      unfold meta_dia64. rewrite Hv, Hd. cbn [dias64]. rewrite Hn64. cbn [div64].
      destruct (Qc_eqb_spec (Qc_of_Z (Z.of_nat n)) 0) as [E|_]; [contradiction|].
      exact Hw. }
    unfold n at 2. generalize (Fin (v / Qc_of_Z (Z.of_nat n))%Qc) Hc.
    clear. intros f Hc. induction Hc as [|r l Hr _ IH]; auto.
    cbn [map List.length repeat]. now rewrite Hr, IH. }
  split; [exact Hrows|]. split.
  - pose proof (carregar_dados_rows df) as HR.
    rewrite map_map. apply map_ext_in. intros r Hr.
    assert (Hin : In r (carregar_dados df)) by now apply filter_In in Hr.
    rewrite Forall_forall in Hrows, HR. destruct (Hrows r Hr) as [Hv Hd].
    unfold meta_dia64. rewrite (HR r Hin), Hv, Hd. cbn [dias64]. rewrite Hn64.
    cbn [div64].
    destruct (Qc_eqb_spec (Qc_of_Z (Z.of_nat n)) 0) as [E|_]; [contradiction|].
    rewrite Hw. unfold div_cells. destruct n; [lia|reflexivity].
  - rewrite Hcells, sum64_repeat by assumption.
    f_equal. field. exact Hnz.
Qed.

Lemma meta_dia_adds_up_witness :
  let k := Exemplos.janeiro "A" in
  let g := grupo k (carregar_dados Exemplos.duas_lojas) in
  grupo k Exemplos.duas_lojas <> []
  /\ List.length g = 2
  /\ map meta_dia64 g = [Fin (Qc_of_Z 300); Fin (Qc_of_Z 300)]
  /\ sum64 (map meta_dia64 g) = Fin (Qc_of_Z 600).
Proof.
  intros k g.
  assert (Hne : grupo k Exemplos.duas_lojas <> []) by discriminate.
  assert (Hl : List.length g = 2) by reflexivity.
  assert (Hb : forall i, 1 <= i <= List.length g ->
                 is_binary64 (Qc_of_Z (Z.of_nat i)
                              * (Qc_of_Z 600 / Qc_of_Z (Z.of_nat (List.length g))))%Qc).
  { rewrite Hl. intros i Hi.
    assert (E : (Qc_of_Z 600 / Qc_of_Z (Z.of_nat 2))%Qc = Qc_of_Z 300)
      by (apply Qc_this_inj; reflexivity).
    rewrite E, <- Qc_of_Z_mult. apply binary64_int.
    assert (i = 1 \/ i = 2) as [-> | ->] by lia; reflexivity. }
  destruct (meta_dia_adds_up Exemplos.duas_lojas k (Qc_of_Z 600) Hne) as (_ & Hc & Hs).
  - change (grupo k Exemplos.duas_lojas)
      with [Exemplos.linha "A" 1 100 0; Exemplos.linha "A" 2 300 600].
    apply Forall_cons; [left; apply Qc_this_inj; reflexivity|].
    apply Forall_cons; [right; apply Qc_this_inj; reflexivity|].
    apply Forall_nil.
  - apply Qc_this_inj. reflexivity.
  - reflexivity.
  - exact Hb.
  - split; [exact Hne|]. split; [exact Hl|]. split; [|exact Hs].
    fold k g in Hc. rewrite Hc.
    vm_compute. f_equal; [|f_equal]; f_equal; apply Qc_this_inj; reflexivity.
Defined.

(** ** The accumulated columns *)

Lemma cumsum_from_minus a b x y :
  List.length x = List.length y ->
  map2 Qcminus (cumsum_from a x) (cumsum_from b y)
  = cumsum_from (a - b)%Qc (map2 Qcminus x y).
Proof.
  revert a b y. induction x as [|u x IH]; intros a b [|w y] L;
    simpl in L; try discriminate; auto.
  cbn [cumsum_from map2]. rewrite IH by lia.
  replace (a + u - (b + w))%Qc with (a - b + (u - w))%Qc by ring.
  reflexivity.
Qed.

(** X7.  [DESVIO_ACUM] is computed as [REAL_ACUM - META_ACUM], not as the
    running sum of [DESVIO_DIA]; on binary64 the two are the same column
    where no operation rounds: where the running sums of the two columns,
    their differences cell by cell and the running sums of these are
    binary64 numbers. *)
Theorem desvio_acum_is_cumsum :
  forall rv md : list Qc,
    List.length rv = List.length md ->
    Forall is_binary64 (cumsum rv) ->
    Forall is_binary64 (cumsum md) ->
    Forall is_binary64 (map2 Qcminus rv md) ->
    Forall is_binary64 (cumsum (map2 Qcminus rv md)) ->
    map2 sub64 (cumsum64 (map Fin rv)) (cumsum64 (map Fin md))
    = cumsum64 (map2 sub64 (map Fin rv) (map Fin md)).
Proof.
  intros rv md L Hrv Hmd Hd Hcd.
  assert (E : map2 Qcminus (cumsum rv) (cumsum md) = cumsum (map2 Qcminus rv md)).
  { unfold cumsum. rewrite cumsum_from_minus by exact L.
    now replace (0 - 0)%Qc with 0%Qc by ring. }
  rewrite !cumsum64_Fin, (np_cumsum_exact rv Hrv), (np_cumsum_exact md Hmd).
  rewrite (map2_sub64_exact rv md Hd), cumsum64_Fin, (np_cumsum_exact _ Hcd).
  rewrite map2_sub64_exact; rewrite E; [reflexivity|exact Hcd].
Qed.

Lemma desvio_acum_is_cumsum_witness :
  let rv := [Qc_of_Z 150; Qc_of_Z 200] in
  let md := [Qc_of_Z 400; Qc_of_Z 400] in
  map2 sub64 (cumsum64 (map Fin rv)) (cumsum64 (map Fin md))
  = cumsum64 (map2 sub64 (map Fin rv) (map Fin md))
  /\ cumsum64 (map2 sub64 (map Fin rv) (map Fin md))
     = [Fin (Qc_of_Z (-250)); Fin (Qc_of_Z (-450))].
Proof.
  assert (W : forall l : list Z,
             Forall (fun z => (Z.abs z < 2 ^ 53)%Z) l ->
             Forall is_binary64 (map Qc_of_Z l)).
  { intros l H. rewrite Forall_map. apply Forall_impl with (2 := H).
    intros z. apply binary64_int. }
  split.
  - apply desvio_acum_is_cumsum; [reflexivity|..].
    + replace (cumsum [Qc_of_Z 150; Qc_of_Z 200]) with (map Qc_of_Z [150; 350]%Z)
        by (apply Qc_list_inj; reflexivity).
      apply W. repeat constructor.
    + replace (cumsum [Qc_of_Z 400; Qc_of_Z 400]) with (map Qc_of_Z [400; 800]%Z)
        by (apply Qc_list_inj; reflexivity).
      apply W. repeat constructor.
    + replace (map2 Qcminus [Qc_of_Z 150; Qc_of_Z 200] [Qc_of_Z 400; Qc_of_Z 400])
        with (map Qc_of_Z [-250; -200]%Z) by (apply Qc_list_inj; reflexivity).
      apply W. repeat constructor.
    + replace (cumsum (map2 Qcminus [Qc_of_Z 150; Qc_of_Z 200]
                                    [Qc_of_Z 400; Qc_of_Z 400]))
        with (map Qc_of_Z [-250; -450]%Z) by (apply Qc_list_inj; reflexivity).
      apply W. repeat constructor.
  - vm_compute. f_equal; [|f_equal]; f_equal; apply Qc_this_inj; reflexivity.
Defined.

(** ** Nothing is lost between the rows and the dates *)


Lemma concat_map_app {A B : Type} (a b : A -> list B) l :
  Permutation (List.concat (map (fun d => a d ++ b d) l))
              (List.concat (map a l) ++ List.concat (map b l)).
Proof.
  induction l as [|d l IH]; simpl; auto.
  rewrite <- !app_assoc. apply Permutation_app_head.
  rewrite IH, !app_assoc. apply Permutation_app_tail, Permutation_app_comm.
Qed.

Lemma concat_indicator (r : Row) d0 l :
  NoDup l -> In d0 l ->
  List.concat (map (fun d => if date_eqb d d0 then [r] else []) l) = [r].
Proof.
  induction 1 as [|d l Hnotin Hnd IH]; intros Hin; [contradiction|].
  cbn [map List.concat]. destruct (date_eqb_spec d d0) as [->|Hne].
  - assert (Z : forall l', ~ In d0 l' ->
                List.concat (map (fun d => if date_eqb d d0 then [r] else []) l') = []).
    { intros l'. induction l' as [|e l' IH']; simpl; intros Hn; auto.
      destruct (date_eqb_spec e d0) as [->|_]; [exfalso; auto|].
      rewrite IH' by auto. reflexivity. }
    now rewrite Z.
  - destruct Hin as [E|Hin]; [congruence|]. now rewrite IH.
Qed.

Lemma concat_map_nil {A B : Type} (l : list A) :
  List.concat (map (fun _ => @nil B) l) = [].
Proof. induction l; simpl; auto. Qed.

(** The rows of the dates, taken together, are the rows that have a date. *)
Lemma rows_by_date rows dates :
  NoDup dates ->
  (forall r d, In r rows -> Data r = Some d -> In d dates) ->
  Permutation (List.concat (map (fun d => filter (on_date d) rows) dates))
              (dropna_Data rows).
Proof.
  intros Hnd. induction rows as [|r rows IH]; intros Hin.
  - simpl. now rewrite concat_map_nil.
  - assert (IH' : Permutation
                    (List.concat (map (fun d => filter (on_date d) rows) dates))
                    (dropna_Data rows)).
    { apply IH. intros r' d Hr'. apply Hin. now right. }
    assert (E : map (fun d => filter (on_date d) (r :: rows)) dates
                = map (fun d => (if on_date d r then [r] else [])
                                ++ filter (on_date d) rows) dates).
    { apply map_ext. intros d. cbn [filter]. now destruct (on_date d r). }
    rewrite E, concat_map_app, IH'. unfold dropna_Data. cbn [filter].
    unfold on_date, has_date. destruct (Data r) as [d0|] eqn:Ed.
    + cbn [has_key]. rewrite concat_indicator; [reflexivity|exact Hnd|].
      apply (Hin r d0); [now left|exact Ed].
    + cbn [has_key]. now rewrite concat_map_nil.
Qed.

(** X8.  Grouping by date loses no row and takes no row twice: the dates of
    [df_grouped] are distinct, each has a row of the filtered subset, and
    the rows of the dates, taken together, are the rows of the subset that
    have a date, each as often as it stands there. *)
Theorem aggregator_partitions_rows :
  forall df_f,
    let g := df_grouped df_f in
    NoDup (g_Data g)
    /\ (forall d, In d (g_Data g) -> filter (on_date d) df_f <> [])
    /\ Permutation (List.concat (map (fun d => filter (on_date d) df_f) (g_Data g)))
                   (dropna_Data df_f).
Proof.
  intros df_f g.
  destruct (df_grouped_columns df_f) as [HD _]. fold g in HD. rewrite HD.
  split; [apply datas_NoDup|]. split.
  - intros d Hd. apply datas_In in Hd as [r [Hr Ed]].
    assert (Hin : In r (filter (on_date d) df_f)).
    { apply filter_In. split; [exact Hr|]. unfold on_date. rewrite Ed.
      cbn [has_key]. now destruct (date_eqb_spec d d). }
    intros E. now rewrite E in Hin.
  - apply rows_by_date; [apply datas_NoDup|].
    intros r d Hr Hd. apply datas_In. now exists r.
Qed.

(** ** The order of the rows does not matter to the aggregation *)

Lemma filter_perm {A : Type} (p : A -> bool) x y :
  Permutation x y -> Permutation (filter p x) (filter p y).
Proof.
  induction 1 as [|a x y _ IH|a b x|x y z _ IH1 _ IH2]; simpl; auto.
  - destruct (p a); auto.
  - destruct (p a), (p b); auto. apply perm_swap.
  - now transitivity (filter p y).
Qed.

(** Two strictly ascending lists with the same elements are the same list. *)
Lemma strict_sorted_unique x y :
  StronglySorted date_lt x -> StronglySorted date_lt y ->
  (forall d, In d x <-> In d y) -> x = y.
Proof.
  assert (irr : forall d, ~ date_lt d d).
  { intros d H. unfold date_lt in H.
    rewrite (cmp_refl _ total_order_date) in H. discriminate. }
  assert (asym : forall a b, date_lt a b -> date_lt b a -> False).
  { intros a b H1 H2. apply (irr a).
    exact (cmp_trans _ total_order_date _ _ _ H1 H2). }
  intros Hx. revert y. induction Hx as [|a x Hx IH Ha]; intros y Hy Hxy.
  - destruct y as [|b y]; auto. exfalso. apply (proj2 (Hxy b)). now left.
  - destruct Hy as [|b y Hy Hb].
    + exfalso. apply (proj1 (Hxy a)). now left.
    + rewrite Forall_forall in Ha, Hb.
      assert (Hab : a = b).
      { destruct (proj1 (Hxy a) (or_introl eq_refl)) as [E|Hin]; [auto|].
        destruct (proj2 (Hxy b) (or_introl eq_refl)) as [E|Hin']; [auto|].
        exfalso. exact (asym a b (Ha b Hin') (Hb a Hin)). }
      subst b. f_equal. apply IH; auto.
      intros d. split; intros Hd.
      * destruct (proj1 (Hxy d) (or_intror Hd)) as [E|Hin]; auto.
        subst d. exfalso. exact (irr a (Ha a Hd)).
      * destruct (proj2 (Hxy d) (or_intror Hd)) as [E|Hin]; auto.
        subst d. exfalso. exact (irr a (Hb a Hd)).
Qed.

Lemma datas_perm x y : Permutation x y -> datas x = datas y.
Proof.
  intros P. apply strict_sorted_unique; try apply datas_sorted.
  intros d. rewrite !datas_In. split; intros [r [Hr Hd]]; exists r; split; auto.
  - exact (Permutation_in _ P Hr).
  - exact (Permutation_in _ (Permutation_sym P) Hr).
Qed.

(** X9.  The order of the rows of the filtered subset does not change
    which dates [df_grouped] has nor which rows stand under each date: two
    subsets with the same rows in another order give the same column of
    dates, and under each date the same rows, so that each daily sum is
    taken over the same cells. *)
Theorem df_grouped_order_independent :
  forall df_f df_f',
    Permutation df_f df_f' ->
    g_Data (df_grouped df_f) = g_Data (df_grouped df_f')
    /\ forall d, Permutation (filter (on_date d) df_f) (filter (on_date d) df_f').
Proof.
  intros x y P. split.
  - destruct (df_grouped_columns x) as [-> _], (df_grouped_columns y) as [-> _].
    now apply datas_perm.
  - intros d. now apply filter_perm.
Qed.

Lemma df_grouped_order_independent_witness :
  Permutation (carregar_dados Exemplos.duas_lojas) (rev (carregar_dados Exemplos.duas_lojas))
  /\ g_Data (df_grouped (carregar_dados Exemplos.duas_lojas))
     = g_Data (df_grouped (rev (carregar_dados Exemplos.duas_lojas))).
Proof.
  assert (P : Permutation (carregar_dados Exemplos.duas_lojas)
                          (rev (carregar_dados Exemplos.duas_lojas)))
    by apply Permutation_rev.
  split; [exact P|]. exact (proj1 (df_grouped_order_independent _ _ P)).
Defined.

(** ** One shop, one month *)










(** ** The side bar *)

Lemma string_eqb_spec (a b : string) : reflect (a = b) (String.eqb a b).
Proof. apply String.eqb_spec. Qed.

Lemma sorted_strict {A : Type} (cmp : A -> A -> comparison) l :
  total_order cmp ->
  StronglySorted (fun a b => leb_of cmp a b = true) l -> NoDup l ->
  StronglySorted (fun a b => cmp a b = Lt) l.
Proof.
  intros O. induction 1 as [|a l Hs IH Ha]; intros Hnd; constructor.
  - apply IH. now inversion Hnd.
  - inversion Hnd as [|? ? Hnotin _]; subst.
    rewrite Forall_forall in *. intros b Hb. specialize (Ha b Hb).
    unfold leb_of in Ha. destruct (cmp a b) eqn:E; auto; [|discriminate].
    apply (cmp_eq _ O) in E. congruence.
Qed.

Lemma opcoes_tail_In todos col x :
  In x (tl (opcoes todos col)) <-> In (Some x) col.
Proof.
  unfold opcoes, sorted_str, unique_dropna. cbn [tl]. split; intros H.
  - apply (Permutation_in _ (sort_perm _ _)) in H.
    now apply (group_keys_in _ string_eqb_spec) in H.
  - apply (Permutation_in _ (Permutation_sym (sort_perm _ _))).
    now apply (group_keys_in _ string_eqb_spec).
Qed.

Lemma opcoes_lista todos col : lista_de_opcoes todos col (opcoes todos col).
Proof.
  split; [reflexivity|]. split; [|apply opcoes_tail_In].
  unfold opcoes, sorted_str, unique_dropna. cbn [tl].
  apply (sorted_strict String.compare _ total_order_string).
  - apply sort_sorted.
    + intros a b. apply (leb_of_total _ total_order_string).
    + intros a b c. apply (leb_of_trans _ total_order_string).
  - apply (Permutation_NoDup (Permutation_sym (sort_perm _ _))).
    apply group_keys_NoDup, string_eqb_spec.
Qed.

(** X11.  Each of the four lists of options that the side bar builds for
    Produto, Regional, Coordenador and Loja starts with its "all" entry;
    after it come the values of the column it is taken from, the missing
    ones left out, each once, in strictly ascending order.  The column is
    that of the whole table for Produto and Regional, of the rows of the
    regional chosen for Coordenador, and of the rows of the regional and
    the coordinator chosen for Loja.  (The lists of Ano and Mês are built
    in another way and are not spoken of.) *)
Theorem opcoes_sorted_distinct :
  forall rede regional_sel coordenador_sel,
    lista_de_opcoes "Todos" (map Produto rede) (opcoes_produto rede)
    /\ lista_de_opcoes "Todas" (map Regional rede) (opcoes_regional rede)
    /\ lista_de_opcoes "Todos"
         (map Coordenador (df_tmp_regional rede regional_sel))
         (opcoes_coordenador rede regional_sel)
    /\ lista_de_opcoes "Todas"
         (map Nome_Loja
              (df_tmp_coordenador (df_tmp_regional rede regional_sel)
                                  coordenador_sel))
         (opcoes_loja rede regional_sel coordenador_sel).
Proof.
  intros rede regional_sel coordenador_sel.
  repeat split; apply opcoes_lista.
Qed.

Lemma cond_filter_In {A : Type} (b : bool) (p : A -> bool) l a :
  In a (if b then filter p l else l) <-> In a l /\ (b = false \/ p a = true).
Proof.
  destruct b.
  - rewrite filter_In. intuition discriminate.
  - intuition.
Qed.

Lemma eq_str_spec cell sel : eq_str cell sel = true <-> cell = Some sel.
Proof.
  destruct cell as [x|]; simpl; [|split; discriminate].
  rewrite String.eqb_eq. split; congruence.
Qed.

Lemma df_tmp_In rede reg coord r :
  In r (df_tmp_coordenador (df_tmp_regional rede reg) coord) <->
  In r rede
  /\ (reg = "Todas"%string \/ Regional r = Some reg)
  /\ (coord = "Todos"%string \/ Coordenador r = Some coord).
Proof.
  unfold df_tmp_coordenador, df_tmp_regional.
  destruct (String.eqb_spec coord "Todos") as [Ec|Nc];
    destruct (String.eqb_spec reg "Todas") as [Er|Nr];
    rewrite ?filter_In, ?eq_str_spec; intuition.
Qed.

(** Who is in the filtered subset. *)
Lemma filtrar_In rede s r :
  In r (filtrar rede s) <->
  In r rede
  /\ (produto_sel s = "Todos"%string \/ Produto r = Some (produto_sel s))
  /\ (regional_sel s = "Todas"%string \/ Regional r = Some (regional_sel s))
  /\ (coordenador_sel s = "Todos"%string \/ Coordenador r = Some (coordenador_sel s))
  /\ (loja_sel s = "Todas"%string \/ Nome_Loja r = Some (loja_sel s))
  /\ na_janela s r = true.
Proof.
  unfold filtrar. cbv zeta. fold (na_janela s).
  rewrite filter_In, !cond_filter_In, !eq_str_spec, !negb_false_iff, !String.eqb_eq.
  tauto.
Qed.

(** X12.  The list of shops follows the regional and the coordinator
    chosen before it: a shop that it offers has a row in the table under
    that regional and that coordinator, and this row is in the filtered
    subset for the year and month of its date, once the shop is chosen and
    the product filter is open. *)
Theorem opcoes_loja_cascade :
  forall rede reg coord loja,
    In loja (tl (opcoes_loja rede reg coord)) ->
    exists r,
      In r rede
      /\ Nome_Loja r = Some loja
      /\ (reg = "Todas"%string \/ Regional r = Some reg)
      /\ (coord = "Todos"%string \/ Coordenador r = Some coord)
      /\ (forall s d,
             produto_sel s = "Todos"%string -> regional_sel s = reg ->
             coordenador_sel s = coord -> loja_sel s = loja ->
             Data r = Some d ->
             ano_sel s = Some (year d) -> mes_sel s = Some (month d) ->
             In r (filtrar rede s)).
Proof.
  intros rede reg coord loja H. unfold opcoes_loja in H.
  apply opcoes_tail_In, in_map_iff in H as [r [Hl Hr]].
  apply df_tmp_In in Hr as [Hin [Hreg Hcoord]].
  exists r. repeat split; auto.
  intros s d Hp Hrs Hcs Hls Hd Hy Hm. apply filtrar_In.
  rewrite Hp, Hrs, Hcs, Hls. repeat split; auto.
  unfold na_janela. rewrite Hd, Hy, Hm. simpl. now rewrite !Z.eqb_refl.
Qed.

Lemma opcoes_loja_cascade_witness :
  opcoes_loja ExemplosRede.rede "Sul" "Ana" = ["Todas"; "A"]%string
  /\ exists r,
      In r ExemplosRede.rede
      /\ Nome_Loja r = Some "A"%string
      /\ ("Sul"%string = "Todas"%string \/ Regional r = Some "Sul"%string)
      /\ ("Ana"%string = "Todos"%string \/ Coordenador r = Some "Ana"%string)
      /\ (forall s d,
             produto_sel s = "Todos"%string -> regional_sel s = "Sul"%string ->
             coordenador_sel s = "Ana"%string -> loja_sel s = "A"%string ->
             Data r = Some d ->
             ano_sel s = Some (year d) -> mes_sel s = Some (month d) ->
             In r (filtrar ExemplosRede.rede s)).
Proof.
  split; [reflexivity|].
  apply (opcoes_loja_cascade ExemplosRede.rede "Sul" "Ana" "A").
  simpl. auto.
Defined.

(** ** Texts that [limpar_moeda] reads *)

Local Open Scope string_scope.

Lemma all_str_app p a b : all_str p (a ++ b) = all_str p a && all_str p b.
Proof. induction a as [|c a IH]; simpl; auto. now rewrite IH, andb_assoc. Qed.

Lemma all_str_impl (p q : ascii -> bool) s :
  (forall c, p c = true -> q c = true) -> all_str p s = true -> all_str q s = true.
Proof.
  intros H. induction s as [|c s IH]; simpl; auto.
  rewrite !andb_true_iff. intros [Hc Hs]. auto.
Qed.

Lemma append_assoc (a b c : string) : (a ++ b) ++ c = a ++ (b ++ c).
Proof. induction a as [|x a IH]; simpl; congruence. Qed.

Lemma append_nil_r (a : string) : a ++ EmptyString = a.
Proof. induction a as [|x a IH]; simpl; congruence. Qed.

Lemma length_append (a b : string) :
  String.length (a ++ b) = (String.length a + String.length b)%nat.
Proof. induction a as [|x a IH]; simpl; congruence. Qed.

(** *** Stripping *)

Lemma lstrip_all sp w : all_str sp w = true -> lstrip_with sp w = EmptyString.
Proof.
  induction w as [|c w IH]; simpl; auto.
  rewrite andb_true_iff. intros [Hc Hw]. now rewrite Hc, IH.
Qed.

Lemma rstrip_all sp w : all_str sp w = true -> rstrip_with sp w = EmptyString.
Proof.
  induction w as [|c w IH]; simpl; auto.
  rewrite andb_true_iff. intros [Hc Hw]. now rewrite IH, Hc.
Qed.

Lemma lstrip_app_l sp w x :
  all_str sp w = true -> lstrip_with sp (w ++ x) = lstrip_with sp x.
Proof.
  induction w as [|c w IH]; simpl; auto.
  rewrite andb_true_iff. intros [Hc Hw]. now rewrite Hc, IH.
Qed.

Lemma rstrip_app_r sp x w :
  all_str sp w = true -> rstrip_with sp (x ++ w) = rstrip_with sp x.
Proof.
  intros Hw. induction x as [|c x IH]; simpl.
  - now apply rstrip_all.
  - now rewrite IH.
Qed.

Lemma strip_with_app_r sp s w :
  all_str sp w = true ->
  rstrip_with sp (lstrip_with sp (s ++ w)) = rstrip_with sp (lstrip_with sp s).
Proof.
  intros Hw. induction s as [|c s IH].
  - simpl. now rewrite (lstrip_all sp w Hw).
  - cbn [append lstrip_with]. destruct (sp c); [exact IH|].
    change (String c (s ++ w)) with (String c s ++ w).
    now apply rstrip_app_r.
Qed.

Lemma strip_padding w1 s w2 :
  all_str isspace w1 = true -> all_str isspace w2 = true ->
  strip (w1 ++ s ++ w2) = strip s.
Proof.
  intros H1 H2. unfold strip.
  rewrite (lstrip_app_l isspace w1 _ H1). now apply strip_with_app_r.
Qed.

Lemma limpar_moeda_strip s t :
  strip s = strip t -> limpar_moeda (VStr s) = limpar_moeda (VStr t).
Proof. intros E. rewrite !limpar_moeda_str. unfold parse_text. now rewrite E. Qed.

(** X13.  White space around a text does not change what [limpar_moeda]
    reads in it. *)
Theorem limpar_moeda_ignores_padding :
  forall w1 s w2,
    all_str isspace w1 = true -> all_str isspace w2 = true ->
    limpar_moeda (VStr (w1 ++ s ++ w2)) = limpar_moeda (VStr s).
Proof.
  intros w1 s w2 H1 H2. apply limpar_moeda_strip. now apply strip_padding.
Qed.

Lemma limpar_moeda_ignores_padding_witness :
  all_str isspace "  " = true
  /\ limpar_moeda (VStr ("  " ++ "R$ 1.234,56" ++ "  ")) = limpar_moeda (VStr "R$ 1.234,56").
Proof.
  split; [reflexivity|].
  apply limpar_moeda_ignores_padding; reflexivity.
Defined.

(** *** Plain number texts *)

Lemma lstrip_none sp s : all_str (fun c => negb (sp c)) s = true -> lstrip_with sp s = s.
Proof.
  destruct s as [|c s]; simpl; auto.
  rewrite andb_true_iff. intros [Hc _]. now destruct (sp c).
Qed.

Lemma rstrip_none sp s : all_str (fun c => negb (sp c)) s = true -> rstrip_with sp s = s.
Proof.
  induction s as [|c s IH]; simpl; auto.
  rewrite andb_true_iff. intros [Hc Hs]. rewrite (IH Hs).
  destruct s; [now destruct (sp c)|reflexivity].
Qed.

Lemma replace_none old new s :
  (exists c0 old', old = String c0 old'
                   /\ all_str (fun c => negb (Ascii.eqb c0 c)) s = true) ->
  replace old new s = s.
Proof.
  intros [c0 [old' [-> H]]]. unfold replace.
  induction s as [|c s IH]; auto.
  cbn [all_str] in H. apply andb_true_iff in H as [Hc Hs].
  cbn [replace_from prefix].
  destruct (ascii_dec c0 c) as [->|_].
  - rewrite Ascii.eqb_refl in Hc. discriminate.
  - now rewrite (IH Hs).
Qed.

Lemma plain_facts c :
  plain c = true ->
  isspace c = false /\ Ascii.eqb "R" c = false /\ Ascii.eqb "r" c = false
  /\ Ascii.eqb c "-" = false.
Proof.
  unfold plain, isdigit, isspace, code.
  destruct c as [[] [] [] [] [] [] [] []]; vm_compute; intuition discriminate.
Qed.

Lemma digit_or_point_facts c :
  digit_or_point c = true ->
  float_space c = false /\ Ascii.eqb c "_" = false
  /\ Ascii.eqb c "-" = false /\ Ascii.eqb c "+" = false
  /\ lower c = c /\ Ascii.eqb c "i" = false /\ Ascii.eqb c "n" = false.
Proof.
  unfold digit_or_point, isdigit, float_space, lower, code.
  destruct c as [[] [] [] [] [] [] [] []]; vm_compute; intuition discriminate.
Qed.

Lemma isdigit_facts c :
  isdigit c = true ->
  Ascii.eqb c "." = false /\ Ascii.eqb c "," = false
  /\ Ascii.eqb c "e" = false /\ Ascii.eqb c "E" = false.
Proof.
  unfold isdigit, code.
  destruct c as [[] [] [] [] [] [] [] []]; vm_compute; intuition discriminate.
Qed.

(** What [limpar_moeda] does before it reads the number leaves a plain
    text as it is. *)
Lemma limpar_moeda_plain c s :
  all_str plain (String c s) = true ->
  limpar_moeda (VStr (String c s))
  = Ok (match float_of_str (replace "," "." (sub_thousands (String c s))) with
        | Ok f => f
        | Raise _ => zero
        end).
Proof.
  intros H. rewrite limpar_moeda_str. unfold parse_text.
  assert (Hsp : all_str (fun c => negb (isspace c)) (String c s) = true).
  { apply (all_str_impl plain); auto. intros x Hx.
    now rewrite (proj1 (plain_facts x Hx)). }
  assert (HS : strip (String c s) = String c s).
  { unfold strip. now rewrite lstrip_none, rstrip_none. }
  rewrite HS.
  assert (Hc : plain c = true) by (cbn [all_str] in H; now apply andb_true_iff in H).
  cbn [String.eqb]. rewrite (proj2 (proj2 (proj2 (plain_facts c Hc)))). cbn [orb].
  rewrite (replace_none "R$" EmptyString (String c s)).
  2:{ exists "R"%char, "$". split; auto. apply (all_str_impl plain); auto.
      intros x Hx. now rewrite (proj1 (proj2 (plain_facts x Hx))). }
  rewrite (replace_none "r$" EmptyString (String c s)).
  2:{ exists "r"%char, "$". split; auto. apply (all_str_impl plain); auto.
      intros x Hx. now rewrite (proj1 (proj2 (proj2 (plain_facts x Hx)))). }
  rewrite HS. reflexivity.
Qed.

(** *** Reading a number *)

Lemma take_digits_app acc n ds rest :
  all_str isdigit ds = true ->
  (match rest with
   | EmptyString => True
   | String c _ => isdigit c = false
   end) ->
  take_digits acc n (ds ++ rest) = (digits_val acc ds, (n + String.length ds)%nat, rest).
Proof.
  revert acc n. induction ds as [|c ds IH]; intros acc n Hd Hr.
  - cbn [append digits_val String.length]. rewrite Nat.add_0_r.
    destruct rest as [|c r]; [reflexivity|]. cbn [take_digits]. now rewrite Hr.
  - cbn [all_str] in Hd. apply andb_true_iff in Hd as [Hc Hd].
    cbn [append take_digits digits_val String.length]. rewrite Hc.
    rewrite IH by auto. f_equal. f_equal. lia.
Qed.

Lemma digits_val_app acc a b : digits_val acc (a ++ b) = digits_val (digits_val acc a) b.
Proof. revert acc. induction a as [|c a IH]; intros acc; simpl; auto. Qed.

Lemma drop_underscores_none prev s :
  Ascii.eqb prev "_" = false ->
  all_str (fun c => negb (Ascii.eqb c "_")) s = true ->
  drop_underscores prev s = Some s.
Proof.
  revert prev. induction s as [|c s IH]; intros prev Hp H.
  - cbn [drop_underscores]. now rewrite Hp.
  - cbn [all_str] in H. apply andb_true_iff in H as [Hc Hs].
    apply negb_true_iff in Hc. cbn [drop_underscores]. rewrite Hc, Hp. cbn [andb].
    now rewrite (IH c Hc Hs).
Qed.

Lemma take_sign_none c s :
  Ascii.eqb c "-" = false -> Ascii.eqb c "+" = false ->
  take_sign (String c s) = (false, String c s).
Proof.
  intros H1 H2. unfold take_sign.
  destruct c as [[] [] [] [] [] [] [] []]; try reflexivity; discriminate.
Qed.

(** A text of digits and points goes to the number parser as it is. *)
Lemma float_of_str_digits_points c s :
  all_str digit_or_point (String c s) = true ->
  float_of_str (String c s)
  = match parse_decimal (String c s) with
    | Some q => Ok (Fin q)
    | None => Raise ValueError
    end.
Proof.
  intros H. unfold float_of_str.
  assert (Hsp : all_str (fun x => negb (float_space x)) (String c s) = true).
  { apply (all_str_impl digit_or_point); auto. intros x Hx.
    now rewrite (proj1 (digit_or_point_facts x Hx)). }
  rewrite lstrip_none, rstrip_none by auto.
  rewrite drop_underscores_none; [|reflexivity|].
  2:{ apply (all_str_impl digit_or_point); auto. intros x Hx.
      now rewrite (proj1 (proj2 (digit_or_point_facts x Hx))). }
  destruct (parse_decimal (String c s)); [reflexivity|].
  assert (Hc : digit_or_point c = true)
    by (cbn [all_str] in H; now apply andb_true_iff in H).
  destruct (digit_or_point_facts c Hc) as [_ [_ [Hm [Hp [Hl [Hi Hn]]]]]].
  unfold parse_inf_or_nan. rewrite (take_sign_none c s Hm Hp).
  cbn [lowercase String.eqb]. rewrite Hl, Hi, Hn. reflexivity.
Qed.

Lemma digits_are_digit_or_point s :
  all_str isdigit s = true -> all_str digit_or_point s = true.
Proof.
  apply all_str_impl. intros c Hc. unfold digit_or_point. now rewrite Hc.
Qed.

Lemma digits_are_plain s : all_str isdigit s = true -> all_str plain s = true.
Proof. apply all_str_impl. intros c Hc. unfold plain. now rewrite Hc. Qed.

Lemma take_sign_digits_point ip rest :
  all_str isdigit ip = true ->
  take_sign (ip ++ String "." rest) = (false, ip ++ String "." rest).
Proof.
  intros H. destruct ip as [|c ip]; [reflexivity|].
  cbn [all_str] in H. apply andb_true_iff in H as [Hc _].
  assert (Hd : digit_or_point c = true) by (unfold digit_or_point; now rewrite Hc).
  destruct (digit_or_point_facts c Hd) as [_ [_ [Hm [Hp _]]]].
  now apply take_sign_none.
Qed.

(** [digits . digits] is the number so written. *)
Lemma parse_decimal_point ip fp :
  all_str isdigit ip = true -> all_str isdigit fp = true ->
  (String.length ip + String.length fp)%nat <> 0%nat ->
  parse_decimal (ip ++ String "." fp) = Some (decimal ip fp).
Proof.
  intros Hi Hf Hne. unfold parse_decimal.
  rewrite take_sign_digits_point by exact Hi.
  rewrite (take_digits_app 0 0 ip (String "." fp) Hi) by reflexivity.
  cbn [Nat.add].
  rewrite <- (append_nil_r fp) at 1.
  rewrite (take_digits_app _ 0 fp EmptyString Hf) by exact I.
  cbn [Nat.add].
  destruct (String.length ip + String.length fp =? 0)%nat eqn:E.
  - apply Nat.eqb_eq in E. contradiction.
  - unfold decimal, apply_sign. now rewrite digits_val_app.
Qed.

(** [digits . digits . more] is no number. *)
Lemma parse_decimal_two_points ip fp rest :
  all_str isdigit ip = true -> all_str isdigit fp = true ->
  parse_decimal (ip ++ String "." (fp ++ String "." rest)) = None.
Proof.
  intros Hi Hf. unfold parse_decimal.
  rewrite take_sign_digits_point by exact Hi.
  rewrite (take_digits_app 0 0 ip (String "." (fp ++ String "." rest)) Hi)
    by reflexivity.
  rewrite (take_digits_app _ 0 fp (String "." rest) Hf) by reflexivity.
  destruct (0 + String.length ip + (0 + String.length fp) =? 0)%nat; reflexivity.
Qed.

(** *** The separators *)

Lemma sub_thousands_digits ds rest :
  all_str isdigit ds = true -> sub_thousands (ds ++ rest) = ds ++ sub_thousands rest.
Proof.
  induction ds as [|c ds IH]; intros H; auto.
  cbn [all_str] in H. apply andb_true_iff in H as [Hc Hd].
  cbn [append sub_thousands].
  rewrite (proj1 (isdigit_facts c Hc)). cbn [andb]. now rewrite IH.
Qed.

Lemma sub_thousands_only_digits ds :
  all_str isdigit ds = true -> sub_thousands ds = ds.
Proof.
  intros H. rewrite <- (append_nil_r ds) at 1.
  rewrite sub_thousands_digits by exact H. cbn. apply append_nil_r.
Qed.

Lemma map_string_app f a b : map_string f (a ++ b) = map_string f a ++ map_string f b.
Proof. induction a as [|c a IH]; simpl; congruence. Qed.

Lemma comma_to_point_digits ds :
  all_str isdigit ds = true -> map_string comma_to_point ds = ds.
Proof.
  induction ds as [|c ds IH]; intros H; auto.
  cbn [all_str] in H. apply andb_true_iff in H as [Hc Hd].
  cbn [map_string]. unfold comma_to_point at 1.
  rewrite (proj1 (proj2 (isdigit_facts c Hc))). now rewrite IH.
Qed.

Lemma three_digits b :
  all_str isdigit b = true -> String.length b = 3%nat ->
  exists d1 d2 d3,
    b = String d1 (String d2 (String d3 EmptyString))
    /\ isdigit d1 = true /\ isdigit d2 = true /\ isdigit d3 = true.
Proof.
  intros H L. destruct b as [|d1 [|d2 [|d3 [|d4 b]]]]; try discriminate.
  cbn [all_str] in H. rewrite !andb_true_iff in H.
  exists d1, d2, d3. intuition.
Qed.

Lemma nonempty_string s : s <> EmptyString -> exists c s', s = String c s'.
Proof. destruct s as [|c s']; [contradiction|]. intros _. now exists c, s'. Qed.

Lemma read_plain s :
  s <> EmptyString -> all_str plain s = true ->
  all_str digit_or_point (replace "," "." (sub_thousands s)) = true ->
  replace "," "." (sub_thousands s) <> EmptyString ->
  limpar_moeda (VStr s)
  = Ok (match parse_decimal (replace "," "." (sub_thousands s)) with
        | Some q => Fin q
        | None => zero
        end).
Proof.
  intros Hne Hp Hd Hne'.
  destruct (nonempty_string s Hne) as [c [s' ->]].
  rewrite (limpar_moeda_plain c s' Hp).
  destruct (nonempty_string _ Hne') as [c' [t E]]. rewrite E in *.
  rewrite (float_of_str_digits_points c' t Hd).
  now destruct (parse_decimal (String c' t)).
Qed.

Lemma append_nonempty_r a c b : a ++ String c b <> EmptyString.
Proof. destruct a; discriminate. Qed.

Lemma all_str_point_digits a rest :
  all_str isdigit a = true -> all_str digit_or_point rest = true ->
  all_str digit_or_point (a ++ String "." rest) = true.
Proof.
  intros Ha Hr. rewrite all_str_app, (digits_are_digit_or_point a Ha).
  cbn [all_str andb]. exact Hr.
Qed.

Lemma sub_thousands_comma f :
  all_str isdigit f = true -> sub_thousands (String "," f) = String "," f.
Proof. intros H. cbn [sub_thousands]. cbn. now rewrite sub_thousands_only_digits. Qed.

Lemma sub_thousands_separator b f :
  all_str isdigit b = true -> String.length b = 3%nat -> all_str isdigit f = true ->
  sub_thousands (String "." (b ++ String "," f)) = b ++ String "," f.
Proof.
  intros Hb Lb Hf. destruct (three_digits b Hb Lb) as [d1 [d2 [d3 [-> [H1 [H2 H3]]]]]].
  cbn [sub_thousands append followed_by_3digits_comma].
  rewrite H1, H2, H3. cbn [andb Ascii.eqb Bool.eqb].
  rewrite (proj1 (isdigit_facts d1 H1)), (proj1 (isdigit_facts d2 H2)),
    (proj1 (isdigit_facts d3 H3)). cbn [andb].
  now rewrite sub_thousands_only_digits.
Qed.

(** X14.  A text with one thousands point and a decimal comma,
    [a.bbb,f], is read as the number [abbb.f]. *)
Theorem limpar_moeda_one_separator :
  forall a b f,
    all_str isdigit a = true -> all_str isdigit b = true ->
    String.length b = 3%nat -> all_str isdigit f = true ->
    limpar_moeda (VStr (a ++ String "." (b ++ String "," f)))
    = Ok (Fin (decimal (a ++ b) f)).
Proof.
  intros a b f Ha Hb Lb Hf.
  assert (S : replace "," "." (sub_thousands (a ++ String "." (b ++ String "," f)))
              = (a ++ b) ++ String "." f).
  { rewrite sub_thousands_digits, sub_thousands_separator by auto.
    rewrite replace_comma, <- append_assoc, map_string_app.
    rewrite comma_to_point_digits by (rewrite all_str_app; now rewrite Ha, Hb).
    cbn [map_string]. now rewrite comma_to_point_digits. }
  rewrite read_plain.
  - rewrite S, parse_decimal_point; auto.
    + rewrite all_str_app. now rewrite Ha, Hb.
    + rewrite length_append, Lb. lia.
  - apply append_nonempty_r.
  - rewrite !all_str_app. cbn [all_str]. rewrite all_str_app. cbn [all_str].
    now rewrite (digits_are_plain a Ha), (digits_are_plain b Hb), (digits_are_plain f Hf).
  - rewrite S. apply all_str_point_digits.
    + rewrite all_str_app. now rewrite Ha, Hb.
    + now apply digits_are_digit_or_point.
  - rewrite S. apply append_nonempty_r.
Qed.

Lemma limpar_moeda_one_separator_witness :
  all_str isdigit "12" = true /\ String.length "345" = 3%nat
  /\ limpar_moeda (VStr "12.345,67") = Ok (Fin (decimal "12345" "67"))
  /\ this (decimal "12345" "67") = (1234567 # 100)%Q.
Proof.
  split; [reflexivity|]. split; [reflexivity|]. split.
  - apply (limpar_moeda_one_separator "12" "345" "67"); reflexivity.
  - reflexivity.
Defined.

Lemma sub_thousands_kept_point b rest :
  all_str isdigit b = true -> String.length b = 3%nat ->
  sub_thousands (String "." (b ++ String "." rest))
  = String "." (b ++ sub_thousands (String "." rest)).
Proof.
  intros Hb Lb. destruct (three_digits b Hb Lb) as [d1 [d2 [d3 [-> [H1 [H2 H3]]]]]].
  cbn [sub_thousands append followed_by_3digits_comma].
  rewrite H1, H2, H3. cbn [andb Ascii.eqb Bool.eqb].
  now rewrite (proj1 (isdigit_facts d1 H1)), (proj1 (isdigit_facts d2 H2)),
    (proj1 (isdigit_facts d3 H3)).
Qed.

(** X15.  A text with two thousands points, [a.bbb.ccc,f], is read as 0.0:
    only the point in front of the last group goes, and what is left,
    [a.bbbccc.f], is no number. *)
Theorem limpar_moeda_two_separators :
  forall a b c f,
    all_str isdigit a = true ->
    all_str isdigit b = true -> String.length b = 3%nat ->
    all_str isdigit c = true -> String.length c = 3%nat ->
    all_str isdigit f = true ->
    limpar_moeda (VStr (a ++ String "." (b ++ String "." (c ++ String "," f))))
    = Ok zero.
Proof.
  intros a b c f Ha Hb Lb Hc Lc Hf.
  assert (S : replace "," "."
                (sub_thousands (a ++ String "." (b ++ String "." (c ++ String "," f))))
              = a ++ String "." ((b ++ c) ++ String "." f)).
  { rewrite sub_thousands_digits, sub_thousands_kept_point by auto.
    rewrite sub_thousands_separator by auto.
    rewrite replace_comma, map_string_app. cbn [map_string].
    rewrite <- append_assoc, map_string_app. cbn [map_string].
    rewrite !comma_to_point_digits; auto.
    rewrite all_str_app. now rewrite Hb, Hc. }
  assert (Hbc : all_str isdigit (b ++ c) = true)
    by (rewrite all_str_app; now rewrite Hb, Hc).
  rewrite read_plain.
  - now rewrite S, parse_decimal_two_points.
  - apply append_nonempty_r.
  - rewrite all_str_app. cbn [all_str]. rewrite all_str_app. cbn [all_str].
    rewrite all_str_app. cbn [all_str].
    now rewrite (digits_are_plain a Ha), (digits_are_plain b Hb),
      (digits_are_plain c Hc), (digits_are_plain f Hf).
  - rewrite S. apply all_str_point_digits; auto.
    apply all_str_point_digits; auto. now apply digits_are_digit_or_point.
  - rewrite S. apply append_nonempty_r.
Qed.

Lemma limpar_moeda_two_separators_witness :
  all_str isdigit "1" = true /\ String.length "234" = 3%nat
  /\ limpar_moeda (VStr "1.234.567,89") = Ok zero.
Proof.
  split; [reflexivity|]. split; [reflexivity|].
  apply (limpar_moeda_two_separators "1" "234" "567" "89"); reflexivity.
Defined.

Lemma no_comma_after_digits b :
  all_str isdigit b = true -> followed_by_3digits_comma b = false.
Proof.
  intros H. destruct b as [|d1 [|d2 [|d3 [|d4 b]]]]; auto.
  cbn [all_str] in H. rewrite !andb_true_iff in H.
  destruct H as [_ [_ [_ [H4 _]]]].
  cbn [followed_by_3digits_comma].
  rewrite (proj1 (proj2 (isdigit_facts d4 H4))). now rewrite !andb_false_r.
Qed.

(** X16.  In a text without a comma the point is the decimal point:
    [a.b] is read as the number [a.b], so that [1.234] is 1.234 and not
    1234. *)
Theorem limpar_moeda_point_without_comma :
  forall a b,
    all_str isdigit a = true -> all_str isdigit b = true ->
    (String.length a + String.length b)%nat <> 0%nat ->
    limpar_moeda (VStr (a ++ String "." b)) = Ok (Fin (decimal a b)).
Proof.
  intros a b Ha Hb Hne.
  assert (S : replace "," "." (sub_thousands (a ++ String "." b)) = a ++ String "." b).
  { rewrite sub_thousands_digits by auto. cbn [sub_thousands].
    rewrite (no_comma_after_digits b Hb). cbn [Ascii.eqb Bool.eqb andb].
    rewrite sub_thousands_only_digits by auto.
    rewrite replace_comma, map_string_app. cbn [map_string].
    now rewrite !comma_to_point_digits. }
  rewrite read_plain.
  - now rewrite S, parse_decimal_point.
  - apply append_nonempty_r.
  - rewrite all_str_app. cbn [all_str].
    now rewrite (digits_are_plain a Ha), (digits_are_plain b Hb).
  - rewrite S. apply all_str_point_digits; auto. now apply digits_are_digit_or_point.
  - rewrite S. apply append_nonempty_r.
Qed.

Lemma limpar_moeda_point_without_comma_witness :
  all_str isdigit "1" = true
  /\ (String.length "1" + String.length "234")%nat <> 0%nat
  /\ limpar_moeda (VStr "1.234") = Ok (Fin (decimal "1" "234"))
  /\ this (decimal "1" "234") = (617 # 500)%Q.
Proof.
  split; [reflexivity|]. split; [discriminate|]. split.
  - apply (limpar_moeda_point_without_comma "1" "234"); try reflexivity.
    discriminate.
  - reflexivity.
Defined.

Local Close Scope string_scope.

(** ** Texts that are not finite numbers *)

Local Open Scope string_scope.

Lemma lower_inv c :
  (lower c = "n"%char -> c = "n"%char \/ c = "N"%char)
  /\ (lower c = "a"%char -> c = "a"%char \/ c = "A"%char)
  /\ (lower c = "i"%char -> c = "i"%char \/ c = "I"%char)
  /\ (lower c = "f"%char -> c = "f"%char \/ c = "F"%char)
  /\ (lower c = "t"%char -> c = "t"%char \/ c = "T"%char)
  /\ (lower c = "y"%char -> c = "y"%char \/ c = "Y"%char).
Proof.
  destruct c as [[] [] [] [] [] [] [] []]; vm_compute;
    repeat split; intros H; try discriminate H; auto.
Qed.

Lemma limpar_moeda_nan sg word :
  sg = EmptyString \/ sg = "+" \/ sg = "-" ->
  lowercase word = "nan" ->
  limpar_moeda (VStr (sg ++ word)) = Ok NaN.
Proof.
  intros Hsg H.
  destruct word as [|c1 [|c2 [|c3 [|c4 w]]]]; try discriminate H.
  cbn [lowercase] in H. injection H as H1 H2 H3.
  apply (proj1 (lower_inv c1)) in H1.
  apply (proj1 (proj2 (lower_inv c2))) in H2.
  apply (proj1 (lower_inv c3)) in H3.
  destruct Hsg as [->|[->| ->]];
    destruct H1 as [->| ->]; destruct H2 as [->| ->]; destruct H3 as [->| ->];
    vm_compute; reflexivity.
Qed.

Lemma limpar_moeda_inf sg word :
  sg = EmptyString \/ sg = "+" \/ sg = "-" ->
  lowercase word = "inf" \/ lowercase word = "infinity" ->
  limpar_moeda (VStr (sg ++ word)) = Ok (Inf (sg =? "-")).
Proof.
  intros Hsg [H|H].
  - destruct word as [|c1 [|c2 [|c3 [|c4 w]]]]; try discriminate H.
    cbn [lowercase] in H. injection H as H1 H2 H3.
    apply (proj1 (proj2 (proj2 (lower_inv c1)))) in H1.
    apply (proj1 (lower_inv c2)) in H2.
    apply (proj1 (proj2 (proj2 (proj2 (lower_inv c3))))) in H3.
    destruct Hsg as [->|[->| ->]];
      destruct H1 as [->| ->]; destruct H2 as [->| ->]; destruct H3 as [->| ->];
      vm_compute; reflexivity.
  - destruct word as [|c1 [|c2 [|c3 [|c4 [|c5 [|c6 [|c7 [|c8 [|c9 w]]]]]]]]];
      try discriminate H.
    cbn [lowercase] in H. injection H as H1 H2 H3 H4 H5 H6 H7 H8.
    apply (proj1 (proj2 (proj2 (lower_inv c1)))) in H1.
    apply (proj1 (lower_inv c2)) in H2.
    apply (proj1 (proj2 (proj2 (proj2 (lower_inv c3))))) in H3.
    apply (proj1 (proj2 (proj2 (lower_inv c4)))) in H4.
    apply (proj1 (lower_inv c5)) in H5.
    apply (proj1 (proj2 (proj2 (lower_inv c6)))) in H6.
    apply (proj1 (proj2 (proj2 (proj2 (proj2 (lower_inv c7)))))) in H7.
    apply (proj2 (proj2 (proj2 (proj2 (proj2 (lower_inv c8)))))) in H8.
    destruct Hsg as [->|[->| ->]];
      destruct H1 as [->| ->]; destruct H2 as [->| ->]; destruct H3 as [->| ->];
      destruct H4 as [->| ->]; destruct H5 as [->| ->]; destruct H6 as [->| ->];
      destruct H7 as [->| ->]; destruct H8 as [->| ->];
      vm_compute; reflexivity.
Qed.

(** X24.  [limpar_moeda] (lines 25-41 of [app.py]) gives 0.0 for a float
    that is NaN, but not for a text that spells one: the words [nan], [inf]
    and [infinity], in any case, with or without a sign and with white space
    around them, are float literals, so the text comes back as NaN or as an
    infinity, negative under a minus sign. *)
Theorem limpar_moeda_not_finite :
  forall w1 sg word w2,
    all_str isspace w1 = true -> all_str isspace w2 = true ->
    sg = EmptyString \/ sg = "+" \/ sg = "-" ->
    (lowercase word = "nan" ->
     limpar_moeda (VStr (w1 ++ (sg ++ word) ++ w2)) = Ok NaN)
    /\ (lowercase word = "inf" \/ lowercase word = "infinity" ->
        limpar_moeda (VStr (w1 ++ (sg ++ word) ++ w2)) = Ok (Inf (sg =? "-"))).
Proof.
  intros w1 sg word w2 H1 H2 Hsg.
  assert (E : limpar_moeda (VStr (w1 ++ (sg ++ word) ++ w2))
              = limpar_moeda (VStr (sg ++ word)))
    by (apply limpar_moeda_strip; now apply strip_padding).
  rewrite E. split; intros H.
  - now apply limpar_moeda_nan.
  - now apply limpar_moeda_inf.
Qed.

Lemma limpar_moeda_not_finite_witness :
  all_str isspace " " = true
  /\ limpar_moeda (VFloat NaN) = Ok zero
  /\ limpar_moeda (VStr " NaN ") = Ok NaN
  /\ limpar_moeda (VStr " -Infinity ") = Ok (Inf true).
Proof.
  split; [reflexivity|]. split; [reflexivity|].
  split.
  - apply (proj1 (limpar_moeda_not_finite " " EmptyString "NaN" " "
                    eq_refl eq_refl (or_introl eq_refl))).
    reflexivity.
  - apply (proj2 (limpar_moeda_not_finite " " "-" "Infinity" " "
                    eq_refl eq_refl (or_intror (or_intror eq_refl)))).
    right. reflexivity.
Defined.

Local Close Scope string_scope.

(** ** The formatter *)

(** X17.  [format_large_numbers] shows an amount to the nearest integer
    (lines 44-47 of [app.py], the format [.0f]): the integer shown is at most
    one half away from the amount; when it is exactly one half away it is the
    even one of the two; an amount that is an integer is shown as it is; and
    the integer has the sign of the amount or is 0. *)
Theorem round_half_even_nearest :
  forall q : Qc,
    (Qabs (inject_Z (round_half_even q) - q) <= 1 # 2)%Q
    /\ ((Qabs (inject_Z (round_half_even q) - q) == 1 # 2)%Q ->
        Z.even (round_half_even q) = true)
    /\ ((q < 0)%Qc -> (round_half_even q <= 0)%Z)
    /\ ((0 <= q)%Qc -> (0 <= round_half_even q)%Z)
    /\ (forall z, round_half_even (Qc_of_Z z) = z).
Proof.
  intros q. destruct (round_half_even_cases q) as (Hn & He & Hs1 & Hs2).
  cbv zeta in *. set (r := round_half_even q) in *.
  assert (Hab : (Qabs (inject_Z r - q) = (Z.abs (r * Zpos (Qden q) - Qnum q) # Qden q))%Q).
  { unfold Qabs, Qminus, Qplus, Qopp, inject_Z. simpl.
    f_equal. f_equal. lia. }
  repeat split.
  - rewrite Hab. unfold Qle. simpl. lia.
  - rewrite Hab. unfold Qeq. simpl. intros H. apply He. lia.
  - intros Hq. apply Hs1. unfold Qclt, Qlt in Hq. simpl in Hq. lia.
  - intros Hq. apply Hs2. unfold Qcle, Qle in Hq. simpl in Hq. lia.
  - intros z. unfold round_half_even. rewrite Qc_of_Z_this. simpl.
    rewrite Z.div_1_r, Z.mod_1_r. reflexivity.
Qed.

(** *** Grouping of the digits *)

Local Open Scope string_scope.

Lemma list_ascii_of_string_app (a b : string) :
  list_ascii_of_string (a ++ b) = (list_ascii_of_string a ++ list_ascii_of_string b)%list.
Proof. induction a as [|c a IH]; simpl; congruence. Qed.

Lemma list_ascii_of_map_string f s :
  list_ascii_of_string (map_string f s) = map f (list_ascii_of_string s).
Proof. induction s as [|c s IH]; simpl; congruence. Qed.

Lemma map_string_of_list f l :
  map_string f (string_of_list_ascii l) = string_of_list_ascii (map f l).
Proof. induction l as [|c l IH]; simpl; congruence. Qed.

Lemma remove_char_of_list c l :
  remove_char c (string_of_list_ascii l)
  = string_of_list_ascii (filter (fun x => negb (Ascii.eqb x c)) l).
Proof.
  induction l as [|x l IH]; simpl; auto.
  destruct (Ascii.eqb x c); simpl; congruence.
Qed.

Lemma all_str_forallb p s : all_str p s = forallb p (list_ascii_of_string s).
Proof. induction s as [|c s IH]; simpl; congruence. Qed.

Lemma forallb_rev {A} (p : A -> bool) l : forallb p (rev l) = forallb p l.
Proof.
  induction l as [|x l IH]; simpl; auto.
  rewrite forallb_app, IH. simpl. rewrite andb_true_r. apply andb_comm.
Qed.

Lemma length_list_ascii s : List.length (list_ascii_of_string s) = String.length s.
Proof. induction s as [|c s IH]; simpl; congruence. Qed.

Lemma digit_not_separator c :
  isdigit c = true -> Ascii.eqb c "," = false /\ Ascii.eqb c "." = false.
Proof.
  intros H. split.
  - destruct (Ascii.eqb_spec c ","); auto. subst c. discriminate H.
  - destruct (Ascii.eqb_spec c "."); auto. subst c. discriminate H.
Qed.

Lemma group3_digits n l :
  forallb isdigit l = true ->
  filter (fun x => negb (Ascii.eqb x ".")) (map comma_to_point (group3 n l)) = l.
Proof.
  revert n. induction l as [|c l IH]; intros n H; auto.
  simpl in H. apply andb_true_iff in H as [Hc Hl].
  destruct (digit_not_separator c Hc) as [Hcomma Hpoint].
  assert (Hcp : comma_to_point c = c) by (unfold comma_to_point; now rewrite Hcomma).
  assert (Hd : filter (fun x => negb (Ascii.eqb x "."))
                 (map comma_to_point (c :: group3 (S n) l)) = c :: l).
  { cbn [map filter]. rewrite Hcp, Hpoint. simpl. now rewrite IH. }
  destruct n as [|[|[|[|n]]]]; try exact Hd.
  cbn [group3 map filter]. rewrite Hcp, Hpoint.
  change (comma_to_point ",") with "."%char. simpl. now rewrite IH.
Qed.

Lemma group3_length n l :
  (n <= 3)%nat ->
  List.length (group3 n l) = (List.length l + (List.length l + n - 1) / 3)%nat.
Proof.
  revert n. induction l as [|c l IH]; intros n Hn.
  - cbn [group3 List.length]. rewrite Nat.div_small; lia.
  - assert (Hd : (n < 3)%nat ->
                 List.length (c :: group3 (S n) l)
                 = (List.length (c :: l) + (List.length (c :: l) + n - 1) / 3)%nat).
    { intros Hlt. cbn [List.length]. rewrite IH by lia.
      replace (S (List.length l) + n - 1)%nat with (List.length l + S n - 1)%nat by lia.
      lia. }
    destruct n as [|[|[|[|n]]]]; try (apply Hd; lia).
    cbn [group3 List.length]. rewrite IH by lia.
    replace (S (List.length l) + 3 - 1)%nat with (List.length l + 1 * 3)%nat by lia.
    rewrite Nat.div_add by lia.
    replace (List.length l + 1 - 1)%nat with (List.length l) by lia. lia.
Qed.

Lemma group3_separators l : forall n i,
  (n <= 3)%nat ->
  forallb isdigit l = true ->
  (i < List.length (group3 n l))%nat ->
  nth_error (map comma_to_point (group3 n l)) i = Some "."%char
  <-> ((i + n) mod 4 = 3)%nat.
Proof.
  induction l as [|c l IH]; intros n i Hn H Hi; [simpl in Hi; lia|].
  simpl in H. apply andb_true_iff in H as [Hc Hl].
  destruct (digit_not_separator c Hc) as [Hcomma Hpoint].
  assert (Hcc : comma_to_point c <> "."%char).
  { unfold comma_to_point. rewrite Hcomma. intros ->. discriminate Hpoint. }
  assert (Hd : (n < 3)%nat ->
               (i < List.length (c :: group3 (S n) l))%nat ->
               nth_error (map comma_to_point (c :: group3 (S n) l)) i = Some "."%char
               <-> ((i + n) mod 4 = 3)%nat).
  { intros Hlt Hi'. destruct i as [|i].
    - cbn [map nth_error]. rewrite Nat.add_0_l, Nat.mod_small by lia.
      split; [intros [= E]; contradiction | lia].
    - cbn [map nth_error]. cbn [List.length] in Hi'.
      rewrite (IH (S n) i) by (auto; lia).
      now replace (i + S n)%nat with (S i + n)%nat by lia. }
  destruct n as [|[|[|[|n]]]]; try (apply Hd; [lia|exact Hi]).
  cbn [group3] in Hi |- *. destruct i as [|[|i]].
  - cbn. split; auto.
  - cbn [map nth_error]. split; [intros [= E]; contradiction | cbn; lia].
  - cbn [map nth_error]. cbn [List.length] in Hi.
    rewrite (IH 1%nat i) by (auto; lia).
    replace (S (S i) + 3)%nat with (i + 1 + 1 * 4)%nat by lia.
    now rewrite Nat.Div0.mod_add.
Qed.

Lemma string_of_uint_digits d :
  forallb isdigit (list_ascii_of_string (NilZero.string_of_uint d)) = true.
Proof.
  assert (H : forall u,
             forallb isdigit (list_ascii_of_string (NilEmpty.string_of_uint u)) = true)
    by (intros u; induction u; simpl; auto).
  destruct d; try apply H. reflexivity.
Qed.

(** The text of [format_large_numbers], part by part. *)
Lemma format_large_numbers_parts v :
  format_large_numbers (Some v)
  = "R$ " ++ sign_text v
    ++ string_of_list_ascii
         (rev (map comma_to_point
                 (group3 0 (rev (list_ascii_of_string (digits_text v)))))).
Proof.
  unfold format_large_numbers, format_comma_0f, sign_text. fold (digits_text v).
  rewrite replace_comma. cbv zeta.
  destruct (Qlt_le_dec v 0); cbn -[group3 digits_text];
    now rewrite map_string_of_list, map_rev.
Qed.

(** X18.  The text that [format_large_numbers] gives for an amount (lines
    44-47 of [app.py]) holds no comma, so that the thousands pattern of
    [limpar_moeda] leaves it as it is; without its points it is ["R$ "], the
    sign, and the decimal digits of the rounded amount, in their order:
    grouping adds separators and neither drops nor moves a digit. *)
Theorem format_large_numbers_digits :
  forall v,
    let text := format_large_numbers (Some v) in
    all_str (fun c => negb (Ascii.eqb c ",")) text = true
    /\ sub_thousands text = text
    /\ remove_char "." text = "R$ " ++ sign_text v ++ digits_text v
    /\ all_str isdigit (digits_text v) = true.
Proof.
  intros v text.
  assert (Hnc : all_str (fun c => negb (Ascii.eqb c ",")) text = true).
  { unfold text, format_large_numbers. rewrite replace_comma.
    generalize ("R$ " ++ format_comma_0f v). intros s.
    induction s as [|c s IH]; auto.
    cbn [map_string all_str]. rewrite IH, andb_true_r.
    unfold comma_to_point. now destruct (Ascii.eqb_spec c ",") as [|Hc]; [|destruct (Ascii.eqb_spec c ",")]. }
  assert (Hdg : forallb isdigit (list_ascii_of_string (digits_text v)) = true)
    by apply string_of_uint_digits.
  repeat split.
  - exact Hnc.
  - revert Hnc. generalize text. intros s. induction s as [|c s IH]; simpl; auto.
    rewrite andb_true_iff. intros [Hc Hs].
    assert (Hf : followed_by_3digits_comma s = false \/ Ascii.eqb c "." = false).
    { destruct s as [|a [|b [|c' [|d s]]]]; simpl; auto.
      simpl in Hs. rewrite !andb_true_iff in Hs.
      destruct Hs as (_ & _ & _ & Hd & _).
      destruct (Ascii.eqb d ","); [discriminate|]. rewrite !andb_false_r. auto. }
    destruct Hf as [-> | ->]; rewrite ?andb_false_r; simpl; now rewrite IH.
  - unfold text. rewrite format_large_numbers_parts.
    assert (Hs : forall s, remove_char "." ("R$ " ++ sign_text v ++ s)
                           = "R$ " ++ sign_text v ++ remove_char "." s).
    { intros s. unfold sign_text. now destruct (Qlt_le_dec v 0). }
    rewrite Hs, remove_char_of_list, filter_rev, group3_digits.
    + now rewrite rev_involutive, string_of_list_ascii_of_string.
    + rewrite forallb_rev. exact Hdg.
  - now rewrite all_str_forallb.
Qed.

(** X19.  Where [format_large_numbers] puts the thousands separators (lines
    44-47 of [app.py]): counted from the end of the text, the characters at
    the places 3, 7, 11, ... within the digits are points and no other
    character of the digits is; the text has one separator for every full
    group of three digits that follows the first digit. *)
Theorem format_large_numbers_separators :
  forall v,
    let text := list_ascii_of_string (format_large_numbers (Some v)) in
    let n := String.length (digits_text v) in
    List.length text = (3 + String.length (sign_text v) + n + (n - 1) / 3)%nat
    /\ forall i, (i < n + (n - 1) / 3)%nat ->
         nth_error (rev text) i = Some "."%char <-> (i mod 4 = 3)%nat.
Proof.
  intros v text n.
  set (ds := rev (list_ascii_of_string (digits_text v))).
  assert (Hds : forallb isdigit ds = true).
  { unfold ds. rewrite forallb_rev. apply string_of_uint_digits. }
  assert (Hlen : List.length (group3 0 ds) = (n + (n - 1) / 3)%nat).
  { rewrite group3_length by lia. unfold ds, n.
    rewrite length_rev, length_list_ascii, Nat.add_0_r. reflexivity. }
  assert (Ht : rev text
               = (map comma_to_point (group3 0 ds)
                  ++ rev (list_ascii_of_string ("R$ " ++ sign_text v)))%list).
  { unfold text. rewrite format_large_numbers_parts.
    change ("R$ " ++ sign_text v ++ ?s) with (("R$ " ++ sign_text v) ++ s).
    rewrite list_ascii_of_string_app, rev_app_distr.
    now rewrite list_ascii_of_string_of_list_ascii, rev_involutive. }
  split.
  - rewrite <- (length_rev text), Ht, length_app, length_map, Hlen, length_rev.
    rewrite length_list_ascii. unfold sign_text.
    destruct (Qlt_le_dec v 0); simpl; lia.
  - intros i Hi. rewrite Ht, nth_error_app1 by (rewrite length_map; lia).
    rewrite group3_separators by (auto; lia). now rewrite Nat.add_0_r.
Qed.

(** *** The digits of a number *)

Local Open Scope Z_scope.

Lemma of_uint_acc_val d : forall acc,
  digits_val (Zpos acc) (NilEmpty.string_of_uint d) = Zpos (Pos.of_uint_acc d acc).
Proof.
  induction d; intros acc; cbn [NilEmpty.string_of_uint digits_val Pos.of_uint_acc];
    auto; rewrite <- IHd; f_equal;
    match goal with
    | |- context [Z.of_N (code ?c)] =>
        let k := eval vm_compute in (Z.of_N (code c)) in
        change (Z.of_N (code c)) with k
    end; lia.
Qed.

Lemma of_uint_val d :
  digits_val 0 (NilEmpty.string_of_uint d) = Z.of_N (Pos.of_uint d).
Proof.
  induction d; cbn [NilEmpty.string_of_uint digits_val Pos.of_uint]; auto;
    apply (of_uint_acc_val d).
Qed.

Lemma of_uint_acc_bounds l : forall acc,
  Zpos acc * 10 ^ Z.of_nat (Decimal.nb_digits l) <= Zpos (Pos.of_uint_acc l acc)
  /\ Zpos (Pos.of_uint_acc l acc) < (Zpos acc + 1) * 10 ^ Z.of_nat (Decimal.nb_digits l).
Proof.
  induction l; intros acc; cbn [Decimal.nb_digits Pos.of_uint_acc];
    [simpl; lia | ..];
    rewrite Nat2Z.inj_succ, Z.pow_succ_r by lia;
    match goal with
    | |- context [Pos.of_uint_acc l ?a] => specialize (IHl a)
    end;
    assert (0 < 10 ^ Z.of_nat (Decimal.nb_digits l)) by (apply Z.pow_pos_nonneg; lia);
    nia.
Qed.

Lemma length_string_of_uint d :
  String.length (NilEmpty.string_of_uint d) = Decimal.nb_digits d.
Proof. induction d; simpl; congruence. Qed.

Lemma of_uint_upper d :
  Z.of_N (Pos.of_uint d) < 10 ^ Z.of_nat (Decimal.nb_digits d).
Proof.
  induction d; cbn [Decimal.nb_digits Pos.of_uint]; [simpl; lia | ..];
    rewrite Nat2Z.inj_succ, Z.pow_succ_r by lia;
    assert (0 < 10 ^ Z.of_nat (Decimal.nb_digits d)) by (apply Z.pow_pos_nonneg; lia);
    [lia | ..];
    match goal with
    | |- context [Pos.of_uint_acc d ?a] => pose proof (of_uint_acc_bounds d a)
    end;
    cbn [Z.of_N]; nia.
Qed.

Lemma to_uint_normal (n : N) : Decimal.unorm (N.to_uint n) = N.to_uint n.
Proof.
  rewrite <- (DecimalN.Unsigned.to_of (N.to_uint n)).
  now rewrite DecimalN.Unsigned.of_to.
Qed.

(** The decimal digits of a natural number: what they denote and how many
    they are. *)
Lemma digits_of_N (n : N) :
  let ds := NilZero.string_of_uint (N.to_uint n) in
  digits_val 0 ds = Z.of_N n
  /\ Z.of_N n < 10 ^ Z.of_nat (String.length ds)
  /\ (String.length ds = 1%nat \/ 10 ^ (Z.of_nat (String.length ds) - 1) <= Z.of_N n)
  /\ (1 <= String.length ds)%nat.
Proof.
  intros ds. unfold ds. clear ds.
  pose proof (to_uint_normal n) as Hnorm.
  pose proof (DecimalN.Unsigned.of_to n) as Hof.
  set (d := N.to_uint n) in *.
  assert (Hnil : d <> Decimal.Nil).
  { rewrite <- Hnorm. apply DecimalFacts.unorm_nonnil. }
  assert (Hs : NilZero.string_of_uint d = NilEmpty.string_of_uint d).
  { destruct d; try reflexivity. contradiction. }
  rewrite Hs, length_string_of_uint.
  change (N.of_uint d) with (Pos.of_uint d) in Hof.
  repeat split.
  - rewrite of_uint_val. now rewrite Hof.
  - rewrite <- Hof. apply of_uint_upper.
  - destruct d eqn:E; try contradiction.
    1:{ left. unfold Decimal.unorm in Hnorm.
        destruct (Decimal.nzhead (Decimal.D0 u)) eqn:Ez; try discriminate Hnorm.
        - injection Hnorm as <-. reflexivity.
        - exfalso. exact (DecimalFacts.nzhead_nonzero _ _ Ez). }
    all: right; rewrite <- Hof; cbn [Decimal.nb_digits Pos.of_uint Z.of_N];
      rewrite Nat2Z.inj_succ;
      match goal with
      | |- context [Pos.of_uint_acc ?l ?a] =>
          pose proof (of_uint_acc_bounds l a);
          replace (Z.succ (Z.of_nat (Decimal.nb_digits l)) - 1)
            with (Z.of_nat (Decimal.nb_digits l)) by lia;
          assert (0 < 10 ^ Z.of_nat (Decimal.nb_digits l))
            by (apply Z.pow_pos_nonneg; lia)
      end;
      nia.
  - destruct d; try contradiction; cbn [Decimal.nb_digits]; lia.
Qed.

(** *** Reading a formatted amount *)

Local Open Scope nat_scope.
Local Open Scope string_scope.

Lemma signed_facts c :
  signed c = true ->
  isspace c = false /\ Ascii.eqb "R" c = false /\ Ascii.eqb "r" c = false
  /\ Ascii.eqb c "," = false /\ float_space c = false /\ Ascii.eqb c "_" = false.
Proof.
  unfold signed, digit_or_point, isdigit, isspace, float_space, code.
  destruct c as [[] [] [] [] [] [] [] []]; vm_compute; intuition discriminate.
Qed.

Lemma rstrip_app_keep sp x y :
  y <> EmptyString -> all_str (fun c => negb (sp c)) y = true ->
  rstrip_with sp (x ++ y) = x ++ y.
Proof.
  intros Hy H. induction x as [|c x IH]; [now apply rstrip_none|].
  cbn [append rstrip_with]. rewrite IH.
  destruct (x ++ y) eqn:E; auto.
  destruct x; simpl in E; [contradiction|discriminate].
Qed.

Lemma sub_thousands_no_comma s :
  all_str (fun c => negb (Ascii.eqb c ",")) s = true -> sub_thousands s = s.
Proof.
  induction s as [|c s IH]; simpl; auto.
  rewrite andb_true_iff. intros [Hc Hs].
  assert (Hf : followed_by_3digits_comma s = false).
  { destruct s as [|a [|b [|c' [|d s]]]]; simpl; auto.
    simpl in Hs. rewrite !andb_true_iff in Hs.
    destruct Hs as (_ & _ & _ & Hd & _).
    destruct (Ascii.eqb d ","); [discriminate|]. now rewrite !andb_false_r. }
  rewrite Hf, andb_false_r. now rewrite IH.
Qed.

Lemma comma_to_point_no_comma s :
  all_str (fun c => negb (Ascii.eqb c ",")) s = true ->
  map_string comma_to_point s = s.
Proof.
  induction s as [|c s IH]; auto. cbn [all_str map_string].
  rewrite andb_true_iff. intros [Hc Hs]. rewrite (IH Hs).
  unfold comma_to_point. now destruct (Ascii.eqb c ",").
Qed.

Lemma signed_text sg c s :
  sg = EmptyString \/ sg = "-" ->
  all_str digit_or_point (String c s) = true ->
  all_str signed (sg ++ String c s) = true /\ sg ++ String c s <> EmptyString.
Proof.
  intros Hsg H.
  assert (Hb : all_str signed (String c s) = true).
  { revert H. apply all_str_impl. intros x Hx. unfold signed. now rewrite Hx. }
  destruct Hsg as [-> | ->]; split; try discriminate; auto.
Qed.

Lemma float_of_str_signed sg c s :
  sg = EmptyString \/ sg = "-" ->
  all_str digit_or_point (String c s) = true ->
  float_of_str (sg ++ String c s)
  = match parse_decimal (sg ++ String c s) with
    | Some q => Ok (Fin q)
    | None => Raise ValueError
    end.
Proof.
  intros Hsg H. destruct (signed_text sg c s Hsg H) as [Ht _].
  destruct Hsg as [-> | ->]; [now apply float_of_str_digits_points|].
  cbn [append] in *. unfold float_of_str.
  rewrite lstrip_none, rstrip_none.
  2,3: revert Ht; apply all_str_impl; intros x Hx;
       now rewrite (proj1 (proj2 (proj2 (proj2 (proj2 (signed_facts x Hx)))))).
  rewrite drop_underscores_none; [|reflexivity|].
  2:{ revert Ht. apply all_str_impl. intros x Hx.
      now rewrite (proj2 (proj2 (proj2 (proj2 (proj2 (signed_facts x Hx)))))). }
  destruct (parse_decimal (String "-" (String c s))); [reflexivity|].
  assert (Hc : digit_or_point c = true)
    by (cbn [all_str] in H; now apply andb_true_iff in H).
  destruct (digit_or_point_facts c Hc) as [_ [_ [Hm [Hp [Hl [Hi Hn]]]]]].
  unfold parse_inf_or_nan. cbn [take_sign lowercase String.eqb].
  rewrite Hl, Hi, Hn. reflexivity.
Qed.

(** What [limpar_moeda] does with ["R$ "], a sign, and digits and points. *)
Lemma limpar_moeda_shown sg c s :
  sg = EmptyString \/ sg = "-" ->
  all_str digit_or_point (String c s) = true ->
  limpar_moeda (VStr ("R$ " ++ sg ++ String c s))
  = Ok (match parse_decimal (sg ++ String c s) with
        | Some q => Fin q
        | None => zero
        end).
Proof.
  intros Hsg H. destruct (signed_text sg c s Hsg H) as [Ht Hne].
  rewrite limpar_moeda_str. unfold parse_text.
  pose proof (float_of_str_signed sg c s Hsg H) as Hf.
  set (t := sg ++ String c s) in *.
  assert (Hsp : all_str (fun x => negb (isspace x)) t = true).
  { revert Ht. apply all_str_impl. intros x Hx.
    now rewrite (proj1 (signed_facts x Hx)). }
  assert (HS : strip ("R$ " ++ t) = "R$ " ++ t).
  { unfold strip. change (lstrip_with isspace ("R$ " ++ t)) with ("R$ " ++ t).
    now apply rstrip_app_keep. }
  rewrite HS.
  change (("R$ " ++ t =? EmptyString) || ("R$ " ++ t =? "-")) with false. cbv iota.
  change (replace "R$" EmptyString ("R$ " ++ t)) with (String " " (replace "R$" EmptyString t)).
  rewrite (replace_none "R$" EmptyString t).
  2:{ exists "R"%char, "$". split; auto. revert Ht. apply all_str_impl.
      intros x Hx. now rewrite (proj1 (proj2 (signed_facts x Hx))). }
  rewrite (replace_none "r$" EmptyString (String " " t)).
  2:{ exists "r"%char, "$". split; auto. cbn [all_str].
      change (negb (Ascii.eqb "r" " ")) with true. cbn [andb].
      revert Ht. apply all_str_impl.
      intros x Hx. now rewrite (proj1 (proj2 (proj2 (signed_facts x Hx)))). }
  assert (HS' : strip (String " " t) = t).
  { unfold strip. change (lstrip_with isspace (String " " t)) with (lstrip_with isspace t).
    now rewrite lstrip_none, rstrip_none. }
  rewrite HS'.
  assert (Hnc : all_str (fun x => negb (Ascii.eqb x ",")) t = true).
  { revert Ht. apply all_str_impl. intros x Hx.
    now rewrite (proj1 (proj2 (proj2 (proj2 (signed_facts x Hx))))). }
  rewrite sub_thousands_no_comma, replace_comma, comma_to_point_no_comma by exact Hnc.
  rewrite Hf. now destruct (parse_decimal t).
Qed.

Lemma scale10_opp m e : scale10 (- m) e = (- scale10 m e)%Qc.
Proof.
  unfold scale10. apply Qc_is_canon. destruct (0 <=? e)%Z.
  - unfold Qc_of_Z, Qcopp, Q2Qc, this. rewrite !Qred_correct.
    unfold Qeq, inject_Z, Qopp. simpl. lia.
  - unfold Qcopp, Q2Qc, this. rewrite !Qred_correct.
    unfold Qeq, Qopp. simpl. lia.
Qed.

Lemma parse_decimal_minus c s :
  digit_or_point c = true ->
  parse_decimal (String "-" (String c s))
  = option_map Qcopp (parse_decimal (String c s)).
Proof.
  intros Hc. destruct (digit_or_point_facts c Hc) as [_ [_ [Hm [Hp _]]]].
  unfold parse_decimal. rewrite (take_sign_none c s Hm Hp).
  change (take_sign (String "-" (String c s))) with (true, String c s).
  cbv beta iota.
  destruct (take_digits 0 0 (String c s)) as [[ip ni] s2].
  set (X := match s2 with
            | String "." s' => take_digits ip 0 s'
            | _ => (ip, 0%nat, s2)
            end).
  destruct X as [[m nf] s3].
  destruct (ni + nf =? 0)%nat; [reflexivity|].
  destruct s3 as [|c3 s4].
  - cbn [option_map apply_sign]. now rewrite scale10_opp.
  - destruct (Ascii.eqb c3 "e" || Ascii.eqb c3 "E"); [|reflexivity].
    destruct (take_sign s4) as [eneg s5].
    destruct (take_digits 0 0 s5) as [[e ne] s6].
    destruct ne; [reflexivity|]. destruct s6; [|reflexivity].
    cbn [option_map apply_sign]. now rewrite scale10_opp.
Qed.

Lemma parse_digits ds :
  all_str isdigit ds = true -> ds <> EmptyString ->
  parse_decimal ds = Some (Qc_of_Z (digits_val 0 ds)).
Proof.
  intros H Hne. destruct ds as [|c s]; [contradiction|].
  assert (Hc : digit_or_point c = true).
  { cbn [all_str] in H. apply andb_true_iff in H as [Hc _].
    unfold digit_or_point. now rewrite Hc. }
  destruct (digit_or_point_facts c Hc) as [_ [_ [Hm [Hp _]]]].
  unfold parse_decimal. rewrite (take_sign_none c s Hm Hp).
  rewrite <- (append_nil_r (String c s)).
  rewrite (take_digits_app 0 0 (String c s) EmptyString H I).
  cbv beta iota. rewrite append_nil_r.
  cbn [String.length Nat.add Nat.eqb apply_sign Z.of_nat Z.opp].
  unfold scale10. change (0 <=? 0)%Z with true. cbv iota.
  now rewrite Z.pow_0_r, Z.mul_1_r.
Qed.

Lemma split_at_point s :
  all_str digit_or_point s = true -> (1 <= count_char "." s)%nat ->
  exists ip rest,
    s = ip ++ String "." rest /\ all_str isdigit ip = true
    /\ all_str digit_or_point rest = true
    /\ count_char "." s = S (count_char "." rest).
Proof.
  induction s as [|c s IH]; cbn [all_str count_char]; [lia|].
  rewrite andb_true_iff. intros [Hc Hs] Hn.
  destruct (Ascii.eqb_spec c ".") as [->|Hne].
  - exists EmptyString, s. auto.
  - destruct (IH Hs Hn) as (ip & rest & -> & Hip & Hrest & Hcount).
    exists (String c ip), rest. repeat split; auto.
    cbn [all_str]. rewrite Hip, andb_true_r.
    unfold digit_or_point in Hc. apply orb_true_iff in Hc as [Hc|Hc]; auto.
    apply Ascii.eqb_eq in Hc. contradiction.
Qed.

Lemma two_points s :
  all_str digit_or_point s = true -> (2 <= count_char "." s)%nat ->
  parse_decimal s = None.
Proof.
  intros H Hn.
  destruct (split_at_point s H ltac:(lia)) as (ip & s' & -> & Hip & Hs' & Hc).
  destruct (split_at_point s' Hs' ltac:(lia)) as (fp & rest & -> & Hfp & _ & _).
  now apply parse_decimal_two_points.
Qed.

Lemma length_remove_count c s :
  String.length s = (String.length (remove_char c s) + count_char c s)%nat.
Proof.
  induction s as [|x s IH]; cbn [remove_char count_char String.length]; auto.
  destruct (Ascii.eqb x c); cbn [String.length]; lia.
Qed.

Lemma remove_char_absent c s : count_char c s = 0%nat -> remove_char c s = s.
Proof.
  induction s as [|x s IH]; cbn [remove_char count_char]; auto.
  destruct (Ascii.eqb x c); [discriminate|]. intros H. now rewrite IH.
Qed.

Lemma length_string_of_list l : String.length (string_of_list_ascii l) = List.length l.
Proof. induction l as [|c l IH]; simpl; congruence. Qed.

Lemma group3_digit_or_point n l :
  forallb isdigit l = true ->
  forallb digit_or_point (map comma_to_point (group3 n l)) = true.
Proof.
  revert n. induction l as [|c l IH]; intros n H; auto.
  simpl in H. apply andb_true_iff in H as [Hc Hl].
  destruct (digit_not_separator c Hc) as [Hcomma _].
  assert (Hcp : comma_to_point c = c) by (unfold comma_to_point; now rewrite Hcomma).
  assert (Hd : digit_or_point c = true) by (unfold digit_or_point; now rewrite Hc).
  destruct n as [|[|[|[|n]]]]; cbn [group3 map forallb]; rewrite Hcp, Hd, IH; auto.
Qed.

(** The grouped digits: digits and points, the digits as they were, one
    point for every full group of three digits after the first digit. *)
Lemma grouped_facts ds :
  all_str isdigit ds = true ->
  all_str digit_or_point (grouped ds) = true
  /\ remove_char "." (grouped ds) = ds
  /\ String.length (grouped ds)
     = (String.length ds + (String.length ds - 1) / 3)%nat
  /\ count_char "." (grouped ds) = ((String.length ds - 1) / 3)%nat.
Proof.
  intros H. rewrite all_str_forallb in H.
  assert (Hr : forallb isdigit (rev (list_ascii_of_string ds)) = true)
    by now rewrite forallb_rev.
  assert (H1 : remove_char "." (grouped ds) = ds).
  { unfold grouped. rewrite remove_char_of_list, filter_rev, group3_digits by exact Hr.
    now rewrite rev_involutive, string_of_list_ascii_of_string. }
  assert (H2 : String.length (grouped ds)
               = (String.length ds + (String.length ds - 1) / 3)%nat).
  { unfold grouped. rewrite length_string_of_list, length_rev, length_map.
    rewrite group3_length by lia.
    now rewrite length_rev, length_list_ascii, Nat.add_0_r. }
  repeat split; auto.
  - unfold grouped. rewrite all_str_forallb, list_ascii_of_string_of_list_ascii.
    rewrite forallb_rev. now apply group3_digit_or_point.
  - pose proof (length_remove_count "." (grouped ds)) as E.
    rewrite H1, H2 in E. lia.
Qed.

Lemma grouped_units ds :
  all_str isdigit ds = true -> (String.length ds <= 3)%nat -> grouped ds = ds.
Proof.
  intros H L. destruct (grouped_facts ds H) as (_ & Hr & _ & Hc).
  rewrite <- Hr at 2. symmetry. apply remove_char_absent.
  rewrite Hc. apply Nat.div_small. lia.
Qed.

Lemma grouped_thousands ds :
  all_str isdigit ds = true ->
  (4 <= String.length ds <= 6)%nat ->
  exists a b,
    ds = a ++ b /\ String.length b = 3%nat
    /\ all_str isdigit a = true /\ all_str isdigit b = true
    /\ grouped ds = a ++ String "." b.
Proof.
  intros H L.
  destruct ds as [|x1 [|x2 [|x3 [|x4 ds]]]]; cbn [String.length] in L; try lia.
  cbn [all_str] in H. rewrite !andb_true_iff in H.
  destruct H as (H1 & H2 & H3 & H4 & H).
  assert (Hcp : forall x, isdigit x = true -> comma_to_point x = x).
  { intros x Hx. unfold comma_to_point.
    now rewrite (proj1 (digit_not_separator x Hx)). }
  destruct ds as [|x5 [|x6 [|x7 ds]]]; cbn [String.length] in L; try lia.
  - exists (String x1 EmptyString), (String x2 (String x3 (String x4 EmptyString))).
    repeat split; cbn [all_str]; rewrite ?H1, ?H2, ?H3, ?H4; auto.
    unfold grouped. cbn -[comma_to_point].
    change (comma_to_point ",") with "."%char. now rewrite !Hcp.
  - cbn [all_str] in H. rewrite !andb_true_iff in H. destruct H as (H5 & _).
    exists (String x1 (String x2 EmptyString)), (String x3 (String x4 (String x5 EmptyString))).
    repeat split; cbn [all_str]; rewrite ?H1, ?H2, ?H3, ?H4, ?H5; auto.
    unfold grouped. cbn -[comma_to_point].
    change (comma_to_point ",") with "."%char. now rewrite !Hcp.
  - cbn [all_str] in H. rewrite !andb_true_iff in H. destruct H as (H5 & H6 & _).
    exists (String x1 (String x2 (String x3 EmptyString))),
           (String x4 (String x5 (String x6 EmptyString))).
    repeat split; cbn [all_str]; rewrite ?H1, ?H2, ?H3, ?H4, ?H5, ?H6; auto.
    unfold grouped. cbn -[comma_to_point].
    change (comma_to_point ",") with "."%char. now rewrite !Hcp.
Qed.

Lemma Qc_of_Z_opp z : Qc_of_Z (- z) = (- Qc_of_Z z)%Qc.
Proof.
  pose proof (scale10_opp z 0) as H. unfold scale10 in H.
  change (0 <=? 0)%Z with true in H. cbv iota in H.
  now rewrite Z.pow_0_r, !Z.mul_1_r in H.
Qed.

(** What [limpar_moeda] makes of the text of [format_large_numbers]. *)
Lemma format_then_parse v :
  limpar_moeda (VStr (format_large_numbers (Some v)))
  = Ok (match parse_decimal (grouped (digits_text v)) with
        | Some q => Fin (if Qlt_le_dec v 0 then (- q)%Qc else q)
        | None => zero
        end).
Proof.
  rewrite format_large_numbers_parts. fold (grouped (digits_text v)).
  assert (Hd : all_str isdigit (digits_text v) = true).
  { rewrite all_str_forallb. apply string_of_uint_digits. }
  destruct (grouped_facts _ Hd) as (Hg & _ & Hl & _).
  destruct (digits_of_N (Z.to_N (Z.abs (round_half_even v)))) as (_ & _ & _ & Hn).
  fold (digits_text v) in Hn.
  destruct (grouped (digits_text v)) as [|c s] eqn:E;
    [cbn [String.length] in Hl; lia|].
  assert (Hc : digit_or_point c = true)
    by (cbn [all_str] in Hg; now apply andb_true_iff in Hg).
  rewrite limpar_moeda_shown; auto.
  2:{ unfold sign_text. destruct (Qlt_le_dec v 0); auto. }
  unfold sign_text. destruct (Qlt_le_dec v 0); cbn [append]; auto.
  rewrite parse_decimal_minus by exact Hc.
  now destruct (parse_decimal (String c s)).
Qed.

(** The number under the digits, with the sign of the text. *)
Lemma shown_value (v : Qc) :
  let n := Z.of_N (Z.to_N (Z.abs (round_half_even v))) in
  n = Z.abs (round_half_even v)
  /\ (if Qlt_le_dec v 0 then (- n)%Z else n) = round_half_even v.
Proof.
  intros n. unfold n. rewrite Z2N.id by apply Z.abs_nonneg. split; auto.
  destruct (round_half_even_cases v) as (_ & _ & Hneg & Hpos). cbv zeta in *.
  destruct (Qlt_le_dec v 0) as [Hv|Hv].
  - assert (round_half_even v <= 0)%Z by (apply Hneg; unfold Qlt in Hv; simpl in Hv; lia).
    lia.
  - assert (0 <= round_half_even v)%Z by (apply Hpos; unfold Qle in Hv; simpl in Hv; lia).
    lia.
Qed.

(** X20.  An amount that [format_large_numbers] shows with at most three
    digits (lines 44-47 of [app.py]) is read back by [limpar_moeda] (lines
    25-41) as the rounded amount: below 1000 the parser inverts the
    formatter, up to the rounding. *)
Theorem format_then_parse_units :
  forall v : Qc,
    (Z.abs (round_half_even v) < 1000)%Z ->
    limpar_moeda (VStr (format_large_numbers (Some v)))
    = Ok (Fin (Qc_of_Z (round_half_even v))).
Proof.
  intros v Hr. rewrite format_then_parse.
  assert (Hd : all_str isdigit (digits_text v) = true).
  { rewrite all_str_forallb. apply string_of_uint_digits. }
  destruct (shown_value v) as [Hn Hs]. cbv zeta in *.
  destruct (digits_of_N (Z.to_N (Z.abs (round_half_even v)))) as (Hv & _ & Hlo & Hne).
  fold (digits_text v) in Hv, Hlo, Hne.
  assert (L : (String.length (digits_text v) <= 3)%nat).
  { destruct Hlo as [Hlo|Hlo]; [lia|].
    destruct (le_lt_dec (String.length (digits_text v)) 3) as [|Hgt]; auto.
    assert (10 ^ 3 <= 10 ^ (Z.of_nat (String.length (digits_text v)) - 1))%Z
      by (apply Z.pow_le_mono_r; lia).
    lia. }
  rewrite grouped_units, parse_digits; auto.
  2:{ intros E. rewrite E in Hne. cbn in Hne. lia. }
  rewrite Hv. set (n := Z.of_N (Z.to_N (Z.abs (round_half_even v)))) in *.
  rewrite <- Hs. destruct (Qlt_le_dec v 0); auto. now rewrite Qc_of_Z_opp.
Qed.

Lemma format_then_parse_units_witness :
  (Z.abs (round_half_even (Q2Qc (-1997 # 2))) < 1000)%Z
  /\ format_large_numbers (Some (Q2Qc (-1997 # 2))) = "R$ -998"
  /\ limpar_moeda (VStr (format_large_numbers (Some (Q2Qc (-1997 # 2)))))
     = Ok (Fin (Qc_of_Z (round_half_even (Q2Qc (-1997 # 2))))).
Proof.
  split; [reflexivity|]. split; [reflexivity|].
  apply (format_then_parse_units (Q2Qc (-1997 # 2))). reflexivity.
Defined.

(** X21.  An amount that [format_large_numbers] shows with four to six
    digits has one separating point, and [limpar_moeda] reads that point as
    the decimal point: the text comes back as the thousandth part of the
    rounded amount. *)
Theorem format_then_parse_thousands :
  forall v : Qc,
    (1000 <= Z.abs (round_half_even v) < 1000000)%Z ->
    limpar_moeda (VStr (format_large_numbers (Some v)))
    = Ok (Fin (Q2Qc (round_half_even v # 1000))).
Proof.
  intros v Hr. rewrite format_then_parse.
  assert (Hd : all_str isdigit (digits_text v) = true).
  { rewrite all_str_forallb. apply string_of_uint_digits. }
  destruct (shown_value v) as [Hn Hs]. cbv zeta in *.
  destruct (digits_of_N (Z.to_N (Z.abs (round_half_even v)))) as (Hv & Hup & Hlo & Hne).
  fold (digits_text v) in Hv, Hup, Hlo, Hne.
  assert (L : (4 <= String.length (digits_text v) <= 6)%nat).
  { split.
    - destruct (le_lt_dec 4 (String.length (digits_text v))) as [|Hlt]; auto.
      assert (10 ^ Z.of_nat (String.length (digits_text v)) <= 10 ^ 3)%Z
        by (apply Z.pow_le_mono_r; lia).
      lia.
    - destruct Hlo as [Hlo|Hlo]; [lia|].
      destruct (le_lt_dec (String.length (digits_text v)) 6) as [|Hgt]; auto.
      assert (10 ^ 6 <= 10 ^ (Z.of_nat (String.length (digits_text v)) - 1))%Z
        by (apply Z.pow_le_mono_r; lia).
      lia. }
  destruct (grouped_thousands _ Hd L) as (a & b & E & Lb & Ha & Hb & ->).
  rewrite parse_decimal_point by (auto; lia).
  unfold decimal. rewrite <- E, Hv, Lb.
  set (n := Z.of_N (Z.to_N (Z.abs (round_half_even v)))) in *.
  change (Q2Qc (round_half_even v # 1000))
    with (scale10 (round_half_even v) (- Z.of_nat 3)).
  rewrite <- Hs. destruct (Qlt_le_dec v 0); auto. now rewrite scale10_opp.
Qed.

Lemma format_then_parse_thousands_witness :
  (1000 <= Z.abs (round_half_even (Qc_of_Z 1234)) < 1000000)%Z
  /\ format_large_numbers (Some (Qc_of_Z 1234)) = "R$ 1.234"
  /\ limpar_moeda (VStr (format_large_numbers (Some (Qc_of_Z 1234))))
     = Ok (Fin (Q2Qc (round_half_even (Qc_of_Z 1234) # 1000))).
Proof.
  split; [split; [discriminate|reflexivity]|]. split; [reflexivity|].
  apply (format_then_parse_thousands (Qc_of_Z 1234)).
  split; [discriminate|reflexivity].
Defined.

(** X22.  An amount that [format_large_numbers] shows with seven digits or
    more has two separating points or more; [float] refuses the text and
    [limpar_moeda] gives 0. *)
Theorem format_then_parse_millions :
  forall v : Qc,
    (1000000 <= Z.abs (round_half_even v))%Z ->
    limpar_moeda (VStr (format_large_numbers (Some v))) = Ok zero.
Proof.
  intros v Hr. rewrite format_then_parse.
  assert (Hd : all_str isdigit (digits_text v) = true).
  { rewrite all_str_forallb. apply string_of_uint_digits. }
  destruct (shown_value v) as [Hn _]. cbv zeta in *.
  destruct (digits_of_N (Z.to_N (Z.abs (round_half_even v)))) as (_ & Hup & _ & _).
  fold (digits_text v) in Hup.
  assert (L : (7 <= String.length (digits_text v))%nat).
  { destruct (le_lt_dec 7 (String.length (digits_text v))) as [|Hlt]; auto.
    assert (10 ^ Z.of_nat (String.length (digits_text v)) <= 10 ^ 6)%Z
      by (apply Z.pow_le_mono_r; lia).
    lia. }
  destruct (grouped_facts _ Hd) as (Hg & _ & _ & Hc).
  rewrite two_points; auto.
  rewrite Hc. change 2%nat with (6 / 3)%nat.
  apply Nat.Div0.div_le_mono. lia.
Qed.

Lemma format_then_parse_millions_witness :
  (1000000 <= Z.abs (round_half_even (Qc_of_Z 1234567)))%Z
  /\ format_large_numbers (Some (Qc_of_Z 1234567)) = "R$ 1.234.567"
  /\ limpar_moeda (VStr (format_large_numbers (Some (Qc_of_Z 1234567)))) = Ok zero.
Proof.
  split; [discriminate|]. split; [reflexivity|].
  apply (format_then_parse_millions (Qc_of_Z 1234567)). discriminate.
Defined.

Local Close Scope string_scope.

(** ** The window of the side bar *)

Local Open Scope nat_scope.

Lemma na_janela_spec s r :
  na_janela s r = true <->
  exists d, Data r = Some d /\ ano_sel s = Some (year d) /\ mes_sel s = Some (month d).
Proof.
  unfold na_janela, eq_num. rewrite andb_true_iff. split.
  - intros [Hy Hm]. destruct (Data r) as [d|]; [|discriminate]. cbn [option_map] in *.
    destruct (ano_sel s) as [a|]; [|discriminate].
    destruct (mes_sel s) as [m|]; [|discriminate].
    apply Z.eqb_eq in Hy, Hm. subst. now exists d.
  - intros [d [-> [-> ->]]]. cbn [option_map]. now rewrite !Z.eqb_refl.
Qed.

(** X23.  Who is in the filtered subset (lines 157-171 of [app.py]): the
    rows of the table that carry the product, the regional, the coordinator
    and the shop chosen, an "all" entry leaving its column open and a
    missing cell matching no choice, and whose date is in the year and month
    chosen.  So no row without a date is in it, every date of [df_grouped]
    is in that month, [df_grouped] has a row as soon as the subset has one,
    and a year or month that is NaN selects nothing. *)
Theorem filtrar_selects :
  forall rede s,
    let df_f := filtrar rede s in
    (forall r, In r df_f <->
       In r rede
       /\ (produto_sel s = "Todos"%string \/ Produto r = Some (produto_sel s))
       /\ (regional_sel s = "Todas"%string \/ Regional r = Some (regional_sel s))
       /\ (coordenador_sel s = "Todos"%string
           \/ Coordenador r = Some (coordenador_sel s))
       /\ (loja_sel s = "Todas"%string \/ Nome_Loja r = Some (loja_sel s))
       /\ exists d, Data r = Some d
                    /\ ano_sel s = Some (year d) /\ mes_sel s = Some (month d))
    /\ dropna_Data df_f = df_f
    /\ (forall d, In d (g_Data (df_grouped df_f)) ->
          ano_sel s = Some (year d) /\ mes_sel s = Some (month d))
    /\ (df_f <> [] -> g_Data (df_grouped df_f) <> [])
    /\ (ano_sel s = None \/ mes_sel s = None -> df_f = []).
Proof.
  intros rede s df_f.
  assert (W : forall r, In r df_f ->
                exists d, Data r = Some d
                          /\ ano_sel s = Some (year d) /\ mes_sel s = Some (month d)).
  { intros r Hr. apply na_janela_spec. now apply filtrar_In in Hr. }
  destruct (df_grouped_columns df_f) as [HD _]. cbv zeta in HD.
  split; [|split; [|split; [|split]]].
  - intros r. unfold df_f. now rewrite filtrar_In, na_janela_spec.
  - apply filter_all. intros r Hr. destruct (W r Hr) as [d [Hd _]].
    unfold has_date. now rewrite Hd.
  - intros d H. rewrite HD in H. apply datas_In in H as [r [Hr Hd]].
    destruct (W r Hr) as [d' [Hd' [Hy Hm]]]. split; congruence.
  - intros Hne. destruct df_f as [|r l] eqn:E; [contradiction|].
    destruct (W r (or_introl eq_refl)) as [d [Hd _]].
    assert (Hin : In d (datas (r :: l))) by (apply datas_In; exists r; simpl; auto).
    rewrite HD. intros E0. now rewrite E0 in Hin.
  - intros Hn. destruct df_f as [|r l]; auto.
    destruct (W r (or_introl eq_refl)) as [d [_ [Hy Hm]]].
    destruct Hn; congruence.
Qed.
